(** * SmoothBible: the data loader, the search worker and the reference parser

    A shallow embedding of [src/data.js] (class [Data]), of the search
    worker ([search], [tokenize], [esc], [highlight]) and of [parseRef]
    from [src/app.js], with the properties of the written specification
    stated and settled against it.

    Conventions of the embedding.
    - A JavaScript string is a [string]; a character is one UTF-16 code
      unit below 256 (Latin-1), so [toLowerCase], [\s] and the [i] flag of
      a regular expression are the ECMAScript ones restricted to that range.
    - A JavaScript number is an integer [Z], exact as in the safe range;
      [NaN] is [None] in a [num]. Fractions and infinities are outside
      the embedding.
    - A decoded JSON object is a finite map from field names to primitive
      values; a row of a payload and an entry of a canon file is such an
      object or [null].
    - A [Map] whose iteration order the code relies on is an association
      list in insertion order; a [Map] only read by key is a [gmap].
    - A function that can throw returns an [exc]; an [async] function is
      the function of its result, with the state passed along, and one
      call runs at a time: a search is followed from its start to its
      end with no other search started in between. *)

From Stdlib Require Import ZArith Ascii String DecimalString.
From stdpp Require Import base tactics option list sorting gmap strings.

Local Open Scope string_scope.
Local Open Scope Z_scope.
Local Open Scope list_scope.

(** ** JavaScript string primitives *)

Module JS.

Definition code (c : ascii) : N := N_of_ascii c.

(** [\s] of a regular expression, which is also what [trim] strips:
    TAB, LF, VT, FF, CR, SPACE and NBSP in the Latin-1 range. *)
Definition isSpace (c : ascii) : bool :=
  let n := code c in
  ((9 <=? n) && (n <=? 13))%N || (n =? 32)%N || (n =? 160)%N.

(** [\d] *)
Definition isDigit (c : ascii) : bool :=
  let n := code c in ((48 <=? n) && (n <=? 57))%N.

(** [[A-Za-z.]] *)
Definition isUpperAZ (c : ascii) : bool :=
  let n := code c in ((65 <=? n) && (n <=? 90))%N.
Definition isLowerAZ (c : ascii) : bool :=
  let n := code c in ((97 <=? n) && (n <=? 122))%N.
Definition isBookChar (c : ascii) : bool :=
  isUpperAZ c || isLowerAZ c || (code c =? 46)%N.

(** One code unit of [String.prototype.toLowerCase]: A-Z, and the
    Latin-1 capitals U+00C0..U+00DE without the multiplication sign. *)
Definition lowerChar (c : ascii) : ascii :=
  let n := code c in
  if isUpperAZ c then ascii_of_N (n + 32)
  else if ((192 <=? n) && (n <=? 222) && negb (n =? 215))%N
       then ascii_of_N (n + 32)
       else c.

Fixpoint toLowerCase (s : string) : string :=
  match s with
  | EmptyString => EmptyString
  | String c s' => String (lowerChar c) (toLowerCase s')
  end.

Definition isEmpty (s : string) : bool :=
  match s with EmptyString => true | _ => false end.

(** [s.startsWith(t)] *)
Fixpoint startsWith (s t : string) {struct t} : bool :=
  match t, s with
  | EmptyString, _ => true
  | String a t', String b s' => if Ascii.eqb a b then startsWith s' t' else false
  | String _ _, EmptyString => false
  end.

(** [s.includes(t)] *)
Fixpoint includes (s t : string) : bool :=
  startsWith s t ||
  match s with
  | EmptyString => false
  | String _ s' => includes s' t
  end.

Fixpoint dropWhile (p : ascii -> bool) (s : string) : string :=
  match s with
  | EmptyString => EmptyString
  | String c s' => if p c then dropWhile p s' else s
  end.

(** Drops the characters satisfying [p] at the end of [s]. *)
Fixpoint dropEndWhile (p : ascii -> bool) (s : string) : string :=
  match s with
  | EmptyString => EmptyString
  | String c s' =>
      match dropEndWhile p s' with
      | EmptyString => if p c then EmptyString else String c EmptyString
      | r => String c r
      end
  end.

(** [s.trim()] *)
Definition trim (s : string) : string :=
  dropEndWhile isSpace (dropWhile isSpace s).

Fixpoint removeAll (p : ascii -> bool) (s : string) : string :=
  match s with
  | EmptyString => EmptyString
  | String c s' => if p c then removeAll p s' else String c (removeAll p s')
  end.

Fixpoint takeStr (n : nat) (s : string) : string :=
  match n, s with
  | S k, String c s' => String c (takeStr k s')
  | _, _ => EmptyString
  end.

(** [s.split(/\s+/)]: the pieces between maximal runs of white space,
    with an empty piece before a leading run and after a trailing one.
    [inRun] says that the previous character was white space. *)
Fixpoint splitWs (inRun : bool) (s : string) : list string :=
  match s with
  | EmptyString => [EmptyString]
  | String c s' =>
      if isSpace c then
        if inRun then splitWs true s' else EmptyString :: splitWs true s'
      else
        match splitWs false s' with
        | p :: ps => String c p :: ps
        | [] => [String c EmptyString]
        end
  end.

(** Decimal rendering of an integer, as in a template literal (below
    1e21, where JavaScript changes to the exponent form). *)
Definition showZ (z : Z) : string := NilEmpty.string_of_int (Z.to_int z).

End JS.

(** ** The document store ([src/data.js]) *)

Module Store.
Import JS.

(** *** Values, numbers and exceptions *)

(** The primitive values a decoded JSON field can hold, with [VUndef]
    for a property that is absent. Nested objects and arrays as field
    values are outside the embedding. *)
Inductive value :=
| VUndef
| VNull
| VBool (b : bool)
| VNum (z : Z)
| VStr (s : string).

#[global] Instance value_eq_dec : EqDecision value.
Proof. solve_decision. Defined.

Definition value_enc (v : value) : unit + (unit + (bool + (Z + string))) :=
  match v with
  | VUndef => inl tt
  | VNull => inr (inl tt)
  | VBool b => inr (inr (inl b))
  | VNum z => inr (inr (inr (inl z)))
  | VStr s => inr (inr (inr (inr s)))
  end.

Definition value_dec (x : unit + (unit + (bool + (Z + string)))) : value :=
  match x with
  | inl _ => VUndef
  | inr (inl _) => VNull
  | inr (inr (inl b)) => VBool b
  | inr (inr (inr (inl z))) => VNum z
  | inr (inr (inr (inr s))) => VStr s
  end.

#[global] Instance value_countable : Countable value.
Proof.
  apply (inj_countable' value_enc value_dec). intros []; reflexivity.
Defined.

(** A number: [None] is [NaN]. *)
Abbreviation num := (option Z).

(** A decoded JSON object whose fields hold primitives. *)
Abbreviation record := (gmap string value).

(** An element of a decoded array that is read as an object: [None] is
    [null], on which reading a field throws a [TypeError]. An element
    that is itself a primitive or an array reads every field used below
    as absent, like the empty record. *)
Abbreviation row := (option record).

Definition get (r : record) (f : string) : value := default VUndef (r !! f).

Definition nullish (v : value) : bool :=
  match v with VUndef | VNull => true | _ => false end.

(** [!!v] *)
Definition truthy (v : value) : bool :=
  match v with
  | VUndef | VNull => false
  | VBool b => b
  | VNum z => negb (z =? 0)
  | VStr s => negb (isEmpty s)
  end.

(** [r.f1 ?? r.f2 ?? ... ?? last] *)
Fixpoint chain (r : record) (fields : list string) (last : value) : value :=
  match fields with
  | [] => last
  | f :: fs => if nullish (get r f) then chain r fs last else get r f
  end.

Fixpoint digitsValue (acc : Z) (s : string) : num :=
  match s with
  | EmptyString => Some acc
  | String c s' =>
      if isDigit c
      then digitsValue (10 * acc + Z.of_N (code c - 48)) s'
      else None
  end.

(** A non-empty run of decimal digits. *)
Definition digits (s : string) : num :=
  match s with
  | EmptyString => None
  | _ => digitsValue 0 s
  end.

(** [Number(s)] for a string: white space is trimmed, the empty string
    is 0, and a signed run of decimal digits is its value. The other
    numeric literals of ECMAScript (hexadecimal, exponents, fractions,
    [Infinity]) are read as [NaN] here. *)
Definition stringToNumber (s : string) : num :=
  match trim s with
  | EmptyString => Some 0
  | String c t as u =>
      if Ascii.eqb c "-" then Z.opp <$> digits t
      else if Ascii.eqb c "+" then digits t
      else digits u
  end.

(** [Number(v)] *)
Definition toNumber (v : value) : num :=
  match v with
  | VUndef => None
  | VNull => Some 0
  | VBool b => Some (if b then 1 else 0)
  | VNum z => Some z
  | VStr s => stringToNumber s
  end.

(** [String(v)], also what a template literal makes of [v]. *)
Definition toStr (v : value) : string :=
  match v with
  | VUndef => "undefined"
  | VNull => "null"
  | VBool b => if b then "true" else "false"
  | VNum z => showZ z
  | VStr s => s
  end.

(** [x | 0] on a number: [NaN] is 0, an integer wraps to 32 signed bits. *)
Definition toInt32 (n : num) : Z :=
  match n with
  | None => 0
  | Some z => (z + 2147483648) mod 4294967296 - 2147483648
  end.

(** [Number] of a run of decimal digits is the double nearest to its
    value, ties going to the even significand: the integer itself below
    2^53, and [None] for [Infinity]. *)
Definition nearestDouble (n : Z) : option Z :=
  if n <? 2 ^ 53 then Some n
  else
    let e := Z.log2 n - 52 in
    let q := n / 2 ^ e in
    let r := n mod 2 ^ e in
    let half := 2 ^ (e - 1) in
    let q' := if (half <? r) || ((r =? half) && Z.odd q) then q + 1 else q in
    if q' * 2 ^ e <? 2 ^ 1024 then Some (q' * 2 ^ e) else None.

Inductive error :=
| NoVerseRows          (* 'KJV JSON parsed but contained no verse rows.' *)
| UnknownFieldNames    (* 'KJV JSON parsed but verse rows used unknown field names.' *)
| InlineUnparsable     (* 'Inline kjv-json could not be parsed: ...' *)
| LooksLikeHtml        (* '"..." looks like an HTML page, not JSON' *)
| SyntaxError          (* thrown by JSON.parse or by res.json() *)
| TypeError            (* a field of null is read *)
| NetworkFailure       (* fetch rejected *)
| MissingData (book : value). (* 'Missing data for book: ...' *)

Inductive exc (A : Type) :=
| Ok (a : A)
| Throw (e : error).
Arguments Ok {A} a.
Arguments Throw {A} e.

Definition isThrow {A} (x : exc A) : bool :=
  match x with Ok _ => false | Throw _ => true end.

(** *** The Canon Table *)

Definition BUILT_IN_CANON : list (string * Z) :=
  [("Genesis",50);("Exodus",40);("Leviticus",27);("Numbers",36);("Deuteronomy",34);
   ("Joshua",24);("Judges",21);("Ruth",4);("1 Samuel",31);("2 Samuel",24);
   ("1 Kings",22);("2 Kings",25);("1 Chronicles",29);("2 Chronicles",36);("Ezra",10);
   ("Nehemiah",13);("Esther",10);("Job",42);("Psalms",150);("Proverbs",31);
   ("Ecclesiastes",12);("Song of Solomon",8);("Isaiah",66);("Jeremiah",52);("Lamentations",5);
   ("Ezekiel",48);("Daniel",12);("Hosea",14);("Joel",3);("Amos",9);
   ("Obadiah",1);("Jonah",4);("Micah",7);("Nahum",3);("Habakkuk",3);
   ("Zephaniah",3);("Haggai",2);("Zechariah",14);("Malachi",4);
   ("Matthew",28);("Mark",16);("Luke",24);("John",21);("Acts",28);
   ("Romans",16);("1 Corinthians",16);("2 Corinthians",13);("Galatians",6);("Ephesians",6);
   ("Philippians",4);("Colossians",4);("1 Thessalonians",5);("2 Thessalonians",3);("1 Timothy",6);
   ("2 Timothy",4);("Titus",3);("Philemon",1);("Hebrews",13);("James",5);
   ("1 Peter",5);("2 Peter",3);("1 John",5);("2 John",1);("3 John",1);
   ("Jude",1);("Revelation",22)].

Definition CANON_66 : list string := map fst BUILT_IN_CANON.

Definition bookFromId (n : value) : value :=
  let i := toInt32 (toNumber n) in
  if (1 <=? i) && (i <=? 66)
  then match CANON_66 !! Z.to_nat (i - 1) with
       | Some name => VStr name
       | None => VUndef
       end
  else VNull.

(** *** Verses and the state of a [Data] object *)

Record Verse := {
  book : value;
  chapter : num;
  verse : num;
  text : string;
  paragraphStart : bool
}.

(** What a fetch resolves to: the request fails, the response is not
    [ok], or it is [ok] with a body, given with what a JSON parser makes
    of it ([None] when the body is not JSON). *)
Inductive response (A : Type) :=
| NetworkError
| NotOk
| Body (raw : string) (parsed : option A).
Arguments NetworkError {A}.
Arguments NotOk {A}.
Arguments Body {A} raw parsed.

(** The resources a store asks for: [opts.singleFile], [opts.canonFile]
    and the file of one book under [opts.perBookDir]. *)
Inductive url :=
| SingleFile
| CanonFile
| BookFile (name : string).

(** The fields of the class. [fetched] is not one of them: it records
    the requests handed to [fetch], oldest first. *)
Record Data := {
  books : list value;
  bookChapters : gmap value num;
  cache : gmap string (list Verse);
  singleByRef : option (gmap string (list Verse));
  fetched : list url
}.

(** [new Data(opts)] *)
Definition newData : Data :=
  {| books := []; bookChapters := ∅; cache := ∅; singleByRef := None; fetched := [] |}.

(** The template [`${book}:${chapter}`]. *)
Definition refKey (b : value) (c : num) : string :=
  toStr b +:+ ":" +:+ match c with Some z => showZ z | None => "NaN" end.

(** *** [_ingestSingle] *)

(** A decoded bulk payload: an array of rows, an object whose fields are
    listed in property order (each an array of rows or something else),
    or a primitive. *)
Inductive jfield :=
| FArr (rows : list row)
| FOther.

Inductive json :=
| JArr (rows : list row)
| JObj (fields : list (string * jfield))
| JPrim (v : value).

Fixpoint fieldArr (k : string) (fields : list (string * jfield)) : option (list row) :=
  match fields with
  | [] => None
  | (k', f) :: rest =>
      if String.eqb k' k
      then match f with FArr rows => Some rows | FOther => None end
      else fieldArr k rest
  end.

Definition arrayFields (fields : list (string * jfield)) : list (list row) :=
  omap (fun kf => match kf.2 with FArr rows => Some rows | FOther => None end) fields.

Definition firstArrayInObject (fields : list (string * jfield)) : list row :=
  match fieldArr "data" fields with
  | Some a => a
  | None =>
  match fieldArr "verses" fields with
  | Some a => a
  | None =>
  match fieldArr "items" fields with
  | Some a => a
  | None =>
  match fieldArr "text" fields with
  | Some a => a
  | None => concat (arrayFields fields)
  end end end end.

Definition nameFields : list string :=
  ["book_name"; "bookName"; "name"; "Book"; "BOOK"].
Definition idFields : list string :=
  ["book"; "book_id"; "bookid"; "b"; "bookNumber"; "book_number"].
Definition chapterFields : list string :=
  ["chapter"; "c"; "Chapter"; "CHAPTER"; "chapter_number"].
Definition verseFields : list string :=
  ["verse"; "v"; "Verse"; "VERSE"; "verse_number"].
Definition textFields : list string :=
  ["text"; "t"; "content"; "body"; "value"; "words"].

(** The book of a row: a name, else a numeric id mapped through the canon. *)
Definition rowBook (r : record) : value :=
  let book := chain r nameFields VNull in
  if truthy book then book
  else
    let bid := chain r idFields (get r "bookIndex") in
    if nullish bid then book else bookFromId bid.

Definition rowChapter (r : record) : num :=
  toNumber (chain r chapterFields (get r "ch")).
Definition rowVerse (r : record) : num :=
  toNumber (chain r verseFields (get r "vs")).

Definition isPilcrow (c : ascii) : bool := (code c =? 182)%N.
Definition isHash (c : ascii) : bool := (code c =? 35)%N.

(** The two marker rules: a leading pilcrow, then leading [#]s, each
    with the white space after it. *)
Definition stripMarkers (start : bool) (txt : string) : string * bool :=
  let '(txt1, start1) :=
    match txt with
    | String c rest => if isPilcrow c then (dropWhile isSpace rest, true) else (txt, start)
    | EmptyString => (txt, start)
    end in
  if startsWith txt1 "#"
  then (dropWhile isSpace (dropWhile isHash txt1), true)
  else (txt1, start1).

Definition rowText (r : record) : string :=
  toStr (chain r textFields (VStr "")).

(** One turn of the loop over the rows: [None] is the [continue] that
    sets [sawBad]. *)
Definition readRow (r : record) : option Verse :=
  let b := rowBook r in
  match rowChapter r, rowVerse r with
  | Some c, Some v =>
      if truthy b
      then let '(txt, ps) := stripMarkers false (rowText r) in
           Some {| book := b; chapter := Some c; verse := Some v;
                   text := txt; paragraphStart := ps |}
      else None
  | _, _ => None
  end.

(** [byBook]: a [Map] from book to a [Map] from chapter to rows, both in
    insertion order. *)
Fixpoint pushChapter (v : Verse) (chs : list (num * list Verse)) : list (num * list Verse) :=
  match chs with
  | [] => [(chapter v, [v])]
  | (c, vs) :: rest =>
      if decide (c = chapter v) then (c, vs ++ [v]) :: rest
      else (c, vs) :: pushChapter v rest
  end.

Fixpoint pushVerse (v : Verse) (byBook : list (value * list (num * list Verse)))
  : list (value * list (num * list Verse)) :=
  match byBook with
  | [] => [(book v, pushChapter v [])]
  | (b, chs) :: rest =>
      if decide (b = book v) then (b, pushChapter v chs) :: rest
      else (b, chs) :: pushVerse v rest
  end.

Definition organize (verses : list Verse) : list (value * list (num * list Verse)) :=
  fold_left (fun m v => pushVerse v m) verses [].

(** [a.verse - b.verse > 0]; a [NaN] difference counts as 0. *)
Definition verseAfter (a b : Verse) : bool :=
  match verse a, verse b with
  | Some x, Some y => y <? x
  | _, _ => false
  end.

(** [arr.sort((a,b)=>a.verse-b.verse)]: the sort is stable, so on numbers
    it is this insertion sort. *)
Fixpoint insertVerse (x : Verse) (l : list Verse) : list Verse :=
  match l with
  | [] => [x]
  | y :: l' => if verseAfter x y then y :: insertVerse x l' else x :: y :: l'
  end.

Definition sortByVerse (l : list Verse) : list Verse :=
  foldr insertVerse [] l.

(** The canonical order: the canon names that are present, then the
    other books as they were met. *)
Definition orderBooks (keys : list value) : list value :=
  let ordered := VStr <$> filter (fun n => VStr n ∈ keys) CANON_66 in
  fold_left (fun ord b => if decide (b ∈ ord) then ord else ord ++ [b]) keys ordered.

(** [Math.max(...chs.keys())]; every book of [byBook] has a chapter. *)
Definition maxChapter (chs : list (num * list Verse)) : num :=
  match chs.*1 with
  | [] => None
  | k :: ks => fold_left (fun a b => match a, b with
                                    | Some x, Some y => Some (Z.max x y)
                                    | _, _ => None
                                    end) ks k
  end.

Definition storeChapter (b : value) (c : num) (arr2 : list Verse) : list Verse :=
  (fun v => {| book := b; chapter := c; verse := verse v;
               text := text v; paragraphStart := paragraphStart v |})
    <$> sortByVerse arr2.

Definition buildRefs (byBook : list (value * list (num * list Verse)))
  : gmap string (list Verse) :=
  fold_left (fun m bc =>
    fold_left (fun m' ca => <[refKey bc.1 ca.1 := storeChapter bc.1 ca.1 ca.2]> m')
              bc.2 m)
    byBook ∅.

(** [arr] *)
Definition jsonArray (j : json) : list row :=
  match j with
  | JArr rows => rows
  | JObj fields => firstArrayInObject fields
  | JPrim _ => []
  end.

Definition isNull (r : row) : bool :=
  match r with None => true | Some _ => false end.

(** The elements of [arr] that are not [null]. *)
Definition jsonRows (j : json) : list record := omap id (jsonArray j).

(** The loop over [arr] reads [r.book_name] of every element before
    anything is stored, so a [null] element ends the call with a
    [TypeError] wherever it stands; without one the loop is the reading
    of the rows. *)
Definition ingestSingle (j : json) (d : Data) : exc Data :=
  if existsb isNull (jsonArray j) then Throw TypeError else
  let arr := jsonRows j in
  let verses := omap readRow arr in
  let sawBad := existsb (fun r => negb (bool_decide (is_Some (readRow r)))) arr in
  match verses with
  | [] => if sawBad then Throw UnknownFieldNames else Throw NoVerseRows
  | _ =>
      let byBook := organize verses in
      let ordered := orderBooks byBook.*1 in
      Ok {| books := match ordered with [] => byBook.*1 | _ => ordered end;
            bookChapters :=
              fold_left (fun m bc => <[bc.1 := maxChapter bc.2]> m) byBook (bookChapters d);
            cache := cache d;
            singleByRef := Some (buildRefs byBook);
            fetched := fetched d |}
  end.

(** *** [_normalizePerBook] *)

(** One element of [jb.chapters]: its primitive fields, and the arrays
    under [verses] and [Verses] when it has them. *)
Record ChapterObj := {
  chFields : record;
  chVerses : option (list record);
  chVersesCap : option (list record)
}.

Inductive bentry :=
| BObj (entries : list (string * value))
| BPrim (v : value).

(** A decoded per-book payload: an object whose [chapters] is an array
    (with its [chapterCount] field), any other object or array as the
    list of its own properties in enumeration order, or a primitive. *)
Inductive perBook :=
| WithChapters (chapters : list ChapterObj) (declared : value)
| Keyed (entries : list (string * bentry))
| Prim (v : value).

Definition verseOfObj (b : value) (cnum : num) (v : record) : Verse :=
  let '(txt, ps) :=
    stripMarkers (truthy (get v "header") || truthy (get v "paragraphStart"))
                 (toStr (chain v ["text"; "t"; "body"] (VStr ""))) in
  {| book := b; chapter := cnum;
     verse := toNumber (chain v ["verse"; "v"] (get v "number"));
     text := txt; paragraphStart := ps |}.

Definition chapterVerses (ch : ChapterObj) : list record :=
  match chVerses ch with
  | Some l => l
  | None => match chVersesCap ch with Some l => l | None => [] end
  end.

Definition addChapterObj (b : value) (chapters : gmap num (list Verse)) (ch : ChapterObj)
  : gmap num (list Verse) :=
  let cnum :=
    toNumber (chain (chFields ch) ["chapter"; "number"; "c"]
                    (VNum (Z.of_nat (size chapters) + 1))) in
  <[cnum := sortByVerse (verseOfObj b cnum <$> chapterVerses ch)]> chapters.

Definition verseOfEntry (b : value) (cnum : num) (kv : string * value) : option Verse :=
  match digits kv.1 with
  | Some n =>
      let '(txt, ps) := stripMarkers false (toStr kv.2) in
      Some {| book := b; chapter := cnum; verse := Some n;
              text := txt; paragraphStart := ps |}
  | None => None
  end.

Definition addEntry (b : value) (chapters : gmap num (list Verse)) (kv : string * bentry)
  : gmap num (list Verse) :=
  match stringToNumber kv.1, kv.2 with
  | Some c, BObj entries =>
      <[Some c := sortByVerse (omap (verseOfEntry b (Some c)) entries)]> chapters
  | _, _ => chapters
  end.

Fixpoint entryPrim (k : string) (entries : list (string * bentry)) : value :=
  match entries with
  | [] => VUndef
  | (k', e) :: rest =>
      if String.eqb k' k
      then match e with BPrim v => v | BObj _ => VUndef end
      else entryPrim k rest
  end.

(** [a || b] on numbers. *)
Definition orElse (a : num) (b : Z) : Z :=
  match a with
  | Some z => if z =? 0 then b else z
  | None => b
  end.

Definition normalizePerBook (d : Data) (b : value) (jb : perBook)
  : Z * gmap num (list Verse) :=
  let chapters :=
    match jb with
    | WithChapters chs _ => fold_left (addChapterObj b) chs ∅
    | Keyed entries => fold_left (addEntry b) entries ∅
    | Prim _ => ∅
    end in
  let declared :=
    match jb with
    | WithChapters _ v => toNumber v
    | Keyed entries => toNumber (entryPrim "chapterCount" entries)
    | Prim _ => None
    end in
  let known := default None (bookChapters d !! b) in
  (orElse (Some (Z.of_nat (size chapters))) (orElse declared (orElse known 1)), chapters).

(** *** The world outside, and [_fetchMaybe] *)

Inductive canonJson :=
| CanonArr (entries : list row)
| CanonOther.

(** What the inline element holds: nothing (no element, or blank text),
    or a text with what [JSON.parse] makes of it. *)
Inductive inlineSrc :=
| NoInline
| Inline (parsed : option json).

Record World := {
  inlineJson : inlineSrc;
  singleFile : response json;
  canonFile : response canonJson;
  bookFile : string -> response perBook
}.

Definition jbTruthy (jb : perBook) : bool :=
  match jb with
  | Prim v => truthy v
  | _ => true
  end.

(** [_fetchMaybe(url)] for a book file: [Ok None] is [null]. The promise
    of [res.json()] is returned without being awaited, so its rejection
    is not caught by the [try] around it. *)
Definition fetchMaybe (w : World) (name : string) : exc (option perBook) :=
  match bookFile w name with
  | NetworkError => Ok None
  | NotOk => Ok None
  | Body _ None => Throw SyntaxError
  | Body _ (Some jb) => Ok (Some jb)
  end.

(** *** The public operations *)

Definition logFetch (u : url) (d : Data) : Data :=
  {| books := books d; bookChapters := bookChapters d; cache := cache d;
     singleByRef := singleByRef d; fetched := fetched d ++ [u] |}.

Definition setCache (k : string) (vs : list Verse) (d : Data) : Data :=
  {| books := books d; bookChapters := bookChapters d; cache := <[k := vs]> (cache d);
     singleByRef := singleByRef d; fetched := fetched d |}.

Definition setChapterCount (b : value) (n : Z) (d : Data) : Data :=
  {| books := books d;
     bookChapters :=
       if decide (bookChapters d !! b = Some (Some n)) then bookChapters d
       else <[b := Some n]> (bookChapters d);
     cache := cache d; singleByRef := singleByRef d; fetched := fetched d |}.

Definition hasBook (d : Data) (b : value) : bool := bool_decide (b ∈ books d).

Definition norm (s : value) : string :=
  let l := removeAll isSpace (toLowerCase (toStr s)) in
  match l with
  | String c rest =>
      if startsWith l "1st" || startsWith l "2nd" || startsWith l "3rd"
      then String c (string_of_list_ascii (drop 2 (list_ascii_of_string rest)))
      else l
  | EmptyString => l
  end.

(** [arr.find(p)], [undefined] when nothing is found. *)
Definition findValue (p : value -> bool) (l : list value) : value :=
  default VUndef (List.find p l).

Definition resolveBook (d : Data) (q : value) : value :=
  let n := norm q in
  let exact := findValue (fun b => String.eqb (norm b) n) (books d) in
  if truthy exact then exact
  else findValue (fun b => startsWith (norm b) n) (books d).

Definition chapterCount (d : Data) (b : value) : Z :=
  orElse (default None (bookChapters d !! b)) 1.

Definition getChapter (w : World) (b : value) (c : Z) (d : Data)
  : exc (list Verse) * Data :=
  let key := refKey b (Some c) in
  match cache d !! key with
  | Some vs => (Ok vs, d)
  | None =>
      match singleByRef d with
      | Some refs =>
          let verses := default [] (refs !! key) in
          (Ok verses, setCache key verses d)
      | None =>
          let d1 := logFetch (BookFile (toStr b)) d in
          match fetchMaybe w (toStr b) with
          | Throw e => (Throw e, d1)
          | Ok None => (Throw (MissingData b), d1)
          | Ok (Some jb) =>
              if jbTruthy jb then
                let '(count, chapters) := normalizePerBook d1 b jb in
                let verses := default [] (chapters !! Some c) in
                (Ok verses, setCache key verses (setChapterCount b count d1))
              else (Throw (MissingData b), d1)
          end
      end
  end.

Record Meta := {
  metaBooks : list value;
  chapterCounts : list Z
}.

Definition indexMeta (d : Data) : Meta :=
  {| metaBooks := books d; chapterCounts := chapterCount d <$> books d |}.

(** *** [init] *)

(** [try { body } catch(e) { console.error(...) }] around a block that
    leaves [fallback] behind when it throws. *)
Definition catch {A} (body : exc A) (fallback : A) : exc A :=
  match body with
  | Ok a => Ok a
  | Throw _ => Ok fallback
  end.

Definition bind {A B} (x : exc A) (f : A -> exc B) : exc B :=
  match x with
  | Ok a => f a
  | Throw e => Throw e
  end.

(** [/<html/i.test(text.slice(0,512))] *)
Definition looksLikeHtml (raw : string) : bool :=
  includes (toLowerCase (takeStr 512 raw)) "<html".

(** 1) the inline element; the result says whether [singleLoaded] is set. *)
Definition loadInline (w : World) (d : Data) : exc (Data * bool) :=
  match inlineJson w with
  | NoInline => Ok (d, false)
  | Inline None => Throw InlineUnparsable
  | Inline (Some j) => bind (ingestSingle j d) (fun d' => Ok (d', true))
  end.

(** 2) the single file, after the request for it was made. *)
Definition loadSingle (w : World) (d : Data) : exc (Data * bool) :=
  match singleFile w with
  | NetworkError => Throw NetworkFailure
  | NotOk => Ok (d, false)
  | Body raw parsed =>
      if looksLikeHtml raw then Throw LooksLikeHtml
      else match parsed with
           | None => Throw SyntaxError
           | Some j => bind (ingestSingle j d) (fun d' => Ok (d', true))
           end
  end.

(** 3) the canon file, [null] when it cannot be had. *)
Definition loadCanon (w : World) : exc (option canonJson) :=
  match canonFile w with
  | NetworkError => Throw NetworkFailure
  | NotOk => Ok None
  | Body _ None => Throw SyntaxError
  | Body _ (Some c) => Ok (Some c)
  end.

(** The rest of step 3, on what the canon request gave.
    [canon.map(e=>e.name)] reads a field of every entry before anything
    is stored, and it stands outside every [try]: a [null] entry ends
    [init] with a [TypeError]. *)
Definition useCanon (canon : option canonJson) (d : Data) : exc Data :=
  match canon with
  | Some (CanonArr arr) =>
      if existsb isNull arr then Throw TypeError else
      let entries := omap id arr in
      Ok {| books := (fun e => get e "name") <$> entries;
            bookChapters :=
              fold_left (fun m e => <[get e "name" := toNumber (get e "chapters")]> m)
                        entries (bookChapters d);
            cache := cache d; singleByRef := singleByRef d; fetched := fetched d |}
  | _ =>
      Ok {| books := VStr <$> CANON_66;
            bookChapters :=
              list_to_map ((fun nc => (VStr nc.1, Some nc.2)) <$> BUILT_IN_CANON);
            cache := cache d; singleByRef := singleByRef d; fetched := fetched d |}
  end.

Definition init (w : World) (d : Data) : exc Data :=
  bind (catch (loadInline w d) (d, false)) (fun '(d1, loaded1) =>
  bind (if loaded1 then Ok (d1, true)
        else let d1' := logFetch SingleFile d1 in
             catch (loadSingle w d1') (d1', false)) (fun '(d2, loaded2) =>
  if loaded2 then Ok d2
  else let d2' := logFetch CanonFile d2 in
       bind (catch (loadCanon w) None) (fun canon => useCanon canon d2'))).

End Store.

(** ** The search worker *)

Module Worker.
Import JS Store.

Record Hit := {
  hitBook : value;
  hitChapter : Z;
  hitVerse : num;
  previewHtml : string
}.

(** [s.toLowerCase().split(/\s+/).map(x=>x.trim()).filter(Boolean).slice(0,5)] *)
Definition tokenize (s : string) : list string :=
  take 5 (filter (fun x => isEmpty x = false) (trim <$> splitWs false (toLowerCase s))).

Definition escChar (c : ascii) : string :=
  let n := code c in
  if (n =? 38)%N then "&amp;"
  else if (n =? 60)%N then "&lt;"
  else if (n =? 62)%N then "&gt;"
  else if (n =? 34)%N then "&quot;"
  else String c EmptyString.

Fixpoint esc (s : string) : string :=
  match s with
  | EmptyString => EmptyString
  | String c s' => escChar c +:+ esc s'
  end.

(** Whether the expression [new RegExp(`(${escapeRegExp(t)})`, 'ig')]
    matches at the start of [s]: [escapeRegExp] quotes every syntax
    character, so the pattern is the literal [t], and under the [i] flag
    two Latin-1 characters agree when their lower cases do. *)
Definition matchesAt (t s : string) : bool :=
  startsWith (toLowerCase s) (toLowerCase t).

Definition mark (u : string) : string := "<mark>" +:+ u +:+ "</mark>".

(** [s.replace(re, '<mark>$1</mark>')] with the global flag: the matches
    are taken from left to right and do not overlap. [skip] counts the
    characters of [s] that belong to a match already written out. An
    empty pattern matches before every character and at the end. *)
Fixpoint markFrom (t : string) (skip : nat) (s : string) : string :=
  match s with
  | EmptyString => if isEmpty t then mark EmptyString else EmptyString
  | String c s' =>
      match skip with
      | S k => markFrom t k s'
      | O =>
          if matchesAt t s then
            if isEmpty t then mark EmptyString +:+ String c (markFrom t 0 s')
            else mark (takeStr (String.length t) s) +:+ markFrom t (String.length t - 1) s'
          else String c (markFrom t 0 s')
      end
  end.

Definition highlight (txt : string) (tokens : list string) : string :=
  fold_left (fun out t => markFrom t 0 out) tokens (esc txt).

(** The inner loop over the tokens: [ok] after it. *)
Definition allIncluded (txt : string) (tokens : list string) : bool :=
  forallb (includes txt) tokens.

Definition verseMatches (tokens : list string) (v : Verse) : bool :=
  allIncluded (toLowerCase (text v)) tokens.

Definition mkHit (tokens : list string) (b : value) (c : Z) (v : Verse) : Hit :=
  {| hitBook := b; hitChapter := c; hitVerse := verse v;
     previewHtml := highlight (text v) tokens |}.

(** The worker and the page that owns the store: the store, and the
    worker's own [_chapterCache]. *)
Record Sys := {
  store : Data;
  chapterCache : gmap string (list Verse)
}.

(** [getChapter(b,c)] of the worker. On a miss it posts [need-chapter];
    the page answers with [chapter-data] after its own [getChapter], and
    not at all when that one throws: the promise then never resolves,
    which is [None] here. *)
Definition workerGetChapter (w : World) (b : value) (c : Z) (s : Sys)
  : option (list Verse) * Sys :=
  let k := refKey b (Some c) in
  match chapterCache s !! k with
  | Some vs => (Some vs, s)
  | None =>
      match getChapter w b c (store s) with
      | (Ok vs, d') => (Some vs, {| store := d'; chapterCache := <[k := vs]> (chapterCache s) |})
      | (Throw _, d') => (None, {| store := d'; chapterCache := chapterCache s |})
      end
  end.

(** The loop over the verses of one chapter; [true] is [break outer]. *)
Fixpoint scanVerses (tokens : list string) (limit : Z) (b : value) (c : Z)
    (vs : list Verse) (results : list Hit) : list Hit * bool :=
  match vs with
  | [] => (results, false)
  | v :: vs' =>
      if verseMatches tokens v then
        let results' := results ++ [mkHit tokens b c v] in
        if limit <=? Z.of_nat (length results') then (results', true)
        else scanVerses tokens limit b c vs' results'
      else scanVerses tokens limit b c vs' results
  end.

(** The result of a loop that awaits chapters: it ran to its end, it
    left by [break outer], or it waits for an answer that never comes. *)
Inductive flow :=
| Next (results : list Hit)
| Break (results : list Hit)
| Stalled.

(** [for(let c=1; c<=cc; c++)], over the chapter numbers still to visit. *)
Fixpoint scanChapters (w : World) (tokens : list string) (limit : Z) (b : value)
    (cs : list Z) (results : list Hit) (s : Sys) : flow * Sys :=
  match cs with
  | [] => (Next results, s)
  | c :: cs' =>
      match workerGetChapter w b c s with
      | (None, s') => (Stalled, s')
      | (Some vs, s') =>
          match scanVerses tokens limit b c vs results with
          | (results', true) => (Break results', s')
          | (results', false) => scanChapters w tokens limit b cs' results' s'
          end
      end
  end.

(** [meta.chapterCounts[bi] || 1] *)
Definition countAt (m : Meta) (bi : nat) : Z :=
  orElse (chapterCounts m !! bi) 1.

(** The chapters 1..cc. *)
Definition chaptersUpTo (cc : Z) : list Z := seqZ 1 cc.

(** [outer: for(let bi=0; bi<meta.books.length; bi++)], over the
    numbered books still to visit. *)
Fixpoint scanBooks (w : World) (m : Meta) (tokens : list string) (limit : Z)
    (bs : list (nat * value)) (results : list Hit) (s : Sys) : flow * Sys :=
  match bs with
  | [] => (Next results, s)
  | (bi, b) :: bs' =>
      match scanChapters w tokens limit b (chaptersUpTo (countAt m bi)) results s with
      | (Next results', s') => scanBooks w m tokens limit bs' results' s'
      | r => r
      end
  end.

(** [search(q, limit)]: [None] when it never returns. *)
Definition search (w : World) (m : Meta) (q : string) (limit : Z) (s : Sys)
  : option (list Hit) * Sys :=
  let tokens := tokenize q in
  match tokens with
  | [] => (Some [], s)
  | _ =>
      match scanBooks w m tokens limit (imap pair (metaBooks m)) [] s with
      | (Next results, s') => (Some results, s')
      | (Break results, s') => (Some results, s')
      | (Stalled, s') => (None, s')
      end
  end.

End Worker.

(** ** The reference parser ([src/app.js]) *)

Module App.
Import JS Store.

Inductive alias :=
| AliasBook (name : string)
| AliasInherited
| AliasNone.

(** [BOOK_ALIASES[key]]. The table is a plain object, so the key
    [constructor] finds the inherited property, which is not a book. *)
Definition BOOK_ALIASES : list (string * string) :=
  [("ps","Psalms"); ("psalm","Psalms"); ("psalms","Psalms");
   ("jn","John"); ("mk","Mark"); ("mt","Matthew"); ("lk","Luke");
   ("gen","Genesis"); ("ex","Exodus"); ("lev","Leviticus"); ("num","Numbers");
   ("deut","Deuteronomy")].

Fixpoint assoc (k : string) (l : list (string * string)) : option string :=
  match l with
  | [] => None
  | (k', v) :: rest => if String.eqb k' k then Some v else assoc k rest
  end.

Definition aliasOf (key : string) : alias :=
  match assoc key BOOK_ALIASES with
  | Some name => AliasBook name
  | None => if String.eqb key "constructor" then AliasInherited else AliasNone
  end.

(** The longest prefix of [s] whose characters satisfy [p], and the rest. *)
Fixpoint spanStr (p : ascii -> bool) (s : string) : string * string :=
  match s with
  | EmptyString => (EmptyString, EmptyString)
  | String c s' =>
      if p c then let '(a, b) := spanStr p s' in (String c a, b)
      else (EmptyString, s)
  end.

Definition is123 (c : ascii) : bool :=
  let n := code c in ((49 <=? n) && (n <=? 51))%N.
Definition isColon (c : ascii) : bool := (code c =? 58)%N.

(** [s.match(/^\s*([1-3]?\s*[A-Za-z.]+)\s+(\d+)(?::(\d+))?\s*$/)]: the
    three groups. The classes that meet in the pattern are disjoint, so
    the greedy left-to-right reading is the only match. *)
Definition matchRef (s : string) : option (string * string * option string) :=
  let s1 := dropWhile isSpace s in
  let '(lead, s2) :=
    match s1 with
    | String c rest => if is123 c then (String c EmptyString, rest) else (EmptyString, s1)
    | EmptyString => (EmptyString, s1)
    end in
  let '(gap, s3) := spanStr isSpace s2 in
  let '(word, s4) := spanStr isBookChar s3 in
  let '(sep, s5) := spanStr isSpace s4 in
  let '(chap, s6) := spanStr isDigit s5 in
  if isEmpty word || isEmpty sep || isEmpty chap then None
  else
    let tok := lead +:+ gap +:+ word in
    match s6 with
    | String c rest =>
        if isColon c then
          let '(vs, s7) := spanStr isDigit rest in
          if isEmpty vs then None
          else if isEmpty (dropWhile isSpace s7) then Some (tok, chap, Some vs) else None
        else if isEmpty (dropWhile isSpace s6) then Some (tok, chap, None) else None
    | EmptyString => Some (tok, chap, None)
    end.

(** What [Number] makes of a run of digits: an integer, or [Infinity]. *)
Inductive whole :=
| Whole (z : Z)
| Infinite.

Record Ref := {
  refBook : value;
  refChapter : Z;
  refVerse : option whole
}.

(** [Number(m[2])], [Number(m[3])] on a run of digits. *)
Definition numberOfDigits (s : string) : whole :=
  match nearestDouble (default 0 (digits s)) with
  | Some z => Whole z
  | None => Infinite
  end.

(** [Math.min(Math.max(1, n), cc)] *)
Definition clamp (n : whole) (cc : Z) : Z :=
  match n with
  | Whole z => Z.min (Z.max 1 z) cc
  | Infinite => cc
  end.

Definition isDot (c : ascii) : bool := (code c =? 46)%N.

(** [m[1].replace(/\./g,'').trim()] *)
Definition cleanToken (tok : string) : string := trim (removeAll isDot tok).

Definition parseRef (d : Data) (s : string) : option Ref :=
  if isEmpty s then None
  else
    match matchRef s with
    | None => None
    | Some (tok, chap, vs) =>
        let b := cleanToken tok in
        let key := toLowerCase b in
        let found :=
          match aliasOf key with
          | AliasBook name => Some (VStr name)
          | AliasInherited => None
          | AliasNone =>
              let r := resolveBook d (VStr b) in
              Some (if truthy r then r else VStr b)
          end in
        match found with
        | None => None
        | Some b' =>
            if hasBook d b' then
              Some {| refBook := b';
                      refChapter := clamp (numberOfDigits chap) (chapterCount d b');
                      refVerse := numberOfDigits <$> vs |}
            else None
        end
    end.

End App.

(** ** Notions used in the statements *)

Import JS Store Worker App.

Fixpoint allChars (p : ascii -> bool) (s : string) : bool :=
  match s with
  | EmptyString => true
  | String c s' => p c && allChars p s'
  end.

(** [t] occurs in [s] up to the case of letters. *)
Definition ciSubstring (t s : string) : Prop :=
  exists pre u post, s = pre +:+ u +:+ post /\ toLowerCase u = toLowerCase t.

(** One of the four characters that [esc] rewrites. *)
Definition isHtmlSensitive (c : ascii) : bool :=
  let n := code c in ((n =? 38) || (n =? 60) || (n =? 62) || (n =? 34))%N.

Definition plainToken (t : string) : bool :=
  allChars (fun c => negb (isHtmlSensitive c)) t.

Definition isLowered (c : ascii) : bool := Ascii.eqb (lowerChar c) c.

(** [html] holds [u] wrapped in a mark tag. *)
Definition marked (u html : string) : Prop :=
  exists pre post, html = pre +:+ mark u +:+ post.

(** What a chapter request resolves to when the store holds [refs]. *)
Definition chapterOf (refs : gmap string (list Verse)) (b : value) (c : Z) : list Verse :=
  default [] (refs !! refKey b (Some c)).

(** The store is in single-source mode on [refs], and the two chapter
    caches only hold what was read from [refs]. *)
Definition coherent (refs : gmap string (list Verse)) (s : Sys) : Prop :=
  singleByRef (store s) = Some refs /\
  (forall k vs, cache (store s) !! k = Some vs -> vs = default [] (refs !! k)) /\
  (forall k vs, chapterCache s !! k = Some vs -> vs = default [] (refs !! k)).

(** One step of the traversal: a verse, met in a chapter of the book at
    an index of the metadata. *)
Record Visit := {
  atIndex : nat;
  atBook : value;
  atChapter : Z;
  atVerse : Verse
}.

Definition chapterVisits (refs : gmap string (list Verse)) (bi : nat) (b : value) (c : Z)
  : list Visit :=
  Build_Visit bi b c <$> chapterOf refs b c.

Definition bookVisits (refs : gmap string (list Verse)) (m : Meta) (ib : nat * value)
  : list Visit :=
  chaptersUpTo (countAt m ib.1) ≫= chapterVisits refs ib.1 ib.2.

(** The fixed traversal order: books in metadata order, chapters from 1
    to the count, verses as the chapter lists them. *)
Definition visits (refs : gmap string (list Verse)) (m : Meta) : list Visit :=
  imap pair (metaBooks m) ≫= bookVisits refs m.

Definition visitHit (tokens : list string) (x : Visit) : Hit :=
  mkHit tokens (atBook x) (atChapter x) (atVerse x).

Definition hitsAmong (tokens : list string) (l : list Visit) : list Hit :=
  visitHit tokens <$> filter (fun x => verseMatches tokens (atVerse x) = true) l.

(** The number of hits after which the loops are left. *)
Definition cap (limit : Z) : nat := Z.to_nat (Z.max 1 limit).

(** What the loops hold once [X] was collected. *)
Definition finish (n : nat) (X : list Hit) : flow :=
  if decide (n <= length X)%nat then Break (take n X) else Next X.

(** *** The traversal in any mode *)

(** The verses that the chapter requests of a search deliver when it
    runs from [s] and is not ended by its limit, in the order in which
    it meets them, up to the first request that is never answered; with
    them the state after the last request, [None] when one was not
    answered. *)
Fixpoint traceChapters (w : World) (bi : nat) (b : value) (cs : list Z) (s : Sys)
  : list Visit * option Sys :=
  match cs with
  | [] => ([], Some s)
  | c :: cs' =>
      match workerGetChapter w b c s with
      | (None, _) => ([], None)
      | (Some vs, s') =>
          let '(V, r) := traceChapters w bi b cs' s' in
          ((Build_Visit bi b c <$> vs) ++ V, r)
      end
  end.

Fixpoint traceBooks (w : World) (m : Meta) (bs : list (nat * value)) (s : Sys)
  : list Visit * option Sys :=
  match bs with
  | [] => ([], Some s)
  | (bi, b) :: bs' =>
      match traceChapters w bi b (chaptersUpTo (countAt m bi)) s with
      | (V, None) => (V, None)
      | (V, Some s') =>
          let '(V', r) := traceBooks w m bs' s' in (V ++ V', r)
      end
  end.

Definition trace (w : World) (m : Meta) (s : Sys) : list Visit * option Sys :=
  traceBooks w m (imap pair (metaBooks m)) s.

(** The verses on the way of a search, and whether every request on
    that way is answered. *)
Definition onTheWay (w : World) (m : Meta) (s : Sys) : list Visit := (trace w m s).1.

Definition answered (w : World) (m : Meta) (s : Sys) : bool :=
  bool_decide (is_Some (trace w m s).2).

(** [t] occurs in [txt] up to the case of letters, as a test. *)
Definition occurs (t txt : string) : bool :=
  includes (toLowerCase txt) (toLowerCase t).

(** The verses of [l] in whose text every token occurs. *)
Definition holding (tokens : list string) (l : list Visit) : list Visit :=
  filter (fun x => forallb (fun t => occurs t (text (atVerse x))) tokens = true) l.

(** What a search returns when its way is [V] and [r] tells whether
    every request was answered: the first [n] of the hits, and nothing
    when there are fewer and a request was not answered. *)
Definition outcome (n : nat) (X : list Hit) (r : option Sys) : flow :=
  if decide (n <= length X)%nat then Break (take n X)
  else match r with Some _ => Next X | None => Stalled end.

(** *** A small store for the closed examples *)

Definition sampleRow (b : string) (c v : Z) (t : string) : gmap string value :=
  {[ "book_name" := VStr b; "chapter" := VNum c; "verse" := VNum v; "text" := VStr t ]}.

Definition samplePayload : json :=
  JArr (Some <$>
    [sampleRow "John" 1 1 "In the beginning was the Word, and the Word was with God.";
     sampleRow "Genesis" 1 2 "And the earth was without form, and void;";
     sampleRow "Genesis" 1 1 "In the beginning God created the heaven and the earth."]).

(** A world in which nothing can be fetched. *)
Definition offline : World :=
  {| inlineJson := NoInline; singleFile := NetworkError; canonFile := NetworkError;
     bookFile := fun _ => NetworkError |}.

Definition sampleData : Data :=
  match ingestSingle samplePayload newData with
  | Ok d => d
  | Throw _ => newData
  end.

Definition sampleRefs : gmap string (list Verse) := default ∅ (singleByRef sampleData).

Definition sampleSys : Sys := {| store := sampleData; chapterCache := ∅ |}.

(** *** Notions about ingestion *)

(** The rows of a payload that survive the reading loop, as verses. *)
Definition survivors (j : json) : list Verse := omap readRow (jsonRows j).

(** The distinct elements of a list in the order of their first occurrence. *)
Definition firstOccurrences (l : list value) : list value :=
  fold_left (fun acc b => if decide (b ∈ acc) then acc else acc ++ [b]) l [].

(** The first value under a key of an association list. *)
Fixpoint alookup {K V} `{EqDecision K} (k : K) (l : list (K * V)) : option V :=
  match l with
  | [] => None
  | (k', v) :: rest => if decide (k' = k) then Some v else alookup k rest
  end.

(** Both verse numbers are numbers and the first is not above the second. *)
Definition verseLe (a b : Verse) : Prop :=
  exists x y, verse a = Some x /\ verse b = Some y /\ x <= y.

Definition verseLt (a b : Verse) : Prop :=
  exists x y, verse a = Some x /\ verse b = Some y /\ x < y.

(** The verses of [l] that belong to chapter [c] of book [b]. *)
Definition ofChapter (b : value) (c : num) (l : list Verse) : list Verse :=
  filter (fun v => book v = b /\ chapter v = c) l.

(** The rows under a book and a chapter of [byBook]. *)
Definition groupOf (b : value) (c : num) (m : list (value * list (num * list Verse)))
  : list Verse :=
  default [] (alookup c (default [] (alookup b m))).

(** The verse numbers of a chapter run 1, 2, 3, ... *)
Definition contiguousFromOne (vs : list Verse) : Prop :=
  verse <$> vs = Some <$> seqZ 1 (Z.of_nat (length vs)).

Definition triple (v : Verse) : value * num * num := (book v, chapter v, verse v).

(** A payload with a verse given twice and a verse missing. *)
Definition dupPayload : json :=
  JArr (Some <$> [sampleRow "Genesis" 1 3 "c"; sampleRow "Genesis" 1 1 "a";
                  sampleRow "Genesis" 1 1 "b"]).

Definition dupData : Data :=
  match ingestSingle dupPayload newData with
  | Ok d => d
  | Throw _ => newData
  end.

Definition dupRefs : gmap string (list Verse) := default ∅ (singleByRef dupData).

(** What the store holds for Genesis 1 after that payload. *)
Definition dupStored : list Verse :=
  [{| book := VStr "Genesis"; chapter := Some 1; verse := Some 1;
      text := "a"; paragraphStart := false |};
   {| book := VStr "Genesis"; chapter := Some 1; verse := Some 1;
      text := "b"; paragraphStart := false |};
   {| book := VStr "Genesis"; chapter := Some 1; verse := Some 3;
      text := "c"; paragraphStart := false |}].

(** A payload whose first row is [null] and whose second is a verse. *)
Definition goodRow : gmap string value :=
  sampleRow "Genesis" 1 1 "In the beginning God created the heaven and the earth.".

Definition nullRowPayload : json := JArr [None; Some goodRow].

(** *** Notions about the order of the hits *)

(** The position of a book in the list of books. *)
Definition rank (bs : list value) (b : value) : nat :=
  default (length bs) (fst <$> list_find (fun x => x = b) bs).

(** The order of the results: by position of the book, then by chapter,
    then by verse number. *)
Definition hitLe (bs : list value) (h1 h2 : Hit) : Prop :=
  (rank bs (hitBook h1) < rank bs (hitBook h2))%nat \/
  (rank bs (hitBook h1) = rank bs (hitBook h2) /\
   (hitChapter h1 < hitChapter h2 \/
    (hitChapter h1 = hitChapter h2 /\
     exists x y, hitVerse h1 = Some x /\ hitVerse h2 = Some y /\ x <= y))).

Definition visitLe (x y : Visit) : Prop :=
  (atIndex x < atIndex y)%nat \/
  (atIndex x = atIndex y /\
   (atChapter x < atChapter y \/
    (atChapter x = atChapter y /\ verseLe (atVerse x) (atVerse y)))).

(** The canonical order of the books met: the canon names among them in
    canon order, then the others as they were first met. *)
Definition canonicalOrder (met : list value) : list value :=
  (VStr <$> filter (fun n => VStr n ∈ met) CANON_66) ++
  filter (fun b => b ∉ VStr <$> CANON_66) met.

(** *** Notions about the store operations *)

(** The inline payload is there and is ingested into [d1]. *)
Definition inlineLoads (w : World) (d d1 : Data) : Prop :=
  exists j, inlineJson w = Inline (Some j) /\ ingestSingle j d = Ok d1.

(** The single file is fetched, parsed and ingested into [d2]. *)
Definition singleLoads (w : World) (d d2 : Data) : Prop :=
  exists raw j,
    singleFile w = Body raw (Some j) /\ looksLikeHtml raw = false /\
    ingestSingle j (logFetch SingleFile d) = Ok d2.

(** The canon payload that step 3 reads, [None] when there is none. *)
Definition canonOf (w : World) : option canonJson :=
  match canonFile w with
  | Body _ (Some c) => Some c
  | _ => None
  end.

(** The canon payload is an array that holds [null]. *)
Definition canonHasNull (w : World) : bool :=
  match canonOf w with
  | Some (CanonArr arr) => existsb isNull arr
  | _ => false
  end.

(** A world without bulk payload whose canon file is the array [[null]]. *)
Definition nullCanonWorld : World :=
  {| inlineJson := NoInline; singleFile := NotOk;
     canonFile := Body "[null]" (Some (CanonArr [None]));
     bookFile := fun _ => NotOk |}.

(** The same world with the empty array for canon file. *)
Definition emptyCanonWorld : World :=
  {| inlineJson := NoInline; singleFile := NotOk;
     canonFile := Body "[]" (Some (CanonArr []));
     bookFile := fun _ => NotOk |}.

(** The fetch of a book file gives no payload to normalise: the request
    fails, the response is not [ok], or the payload is falsy. *)
Definition noPayload (w : World) (b : value) : bool :=
  match bookFile w (toStr b) with
  | NetworkError | NotOk => true
  | Body _ None => false
  | Body _ (Some jb) => negb (jbTruthy jb)
  end.

(** The body of a book file is not JSON. *)
Definition badBody (w : World) (b : value) : bool :=
  match bookFile w (toStr b) with
  | Body _ None => true
  | _ => false
  end.

(** A world without bulk payload, in which the file of Genesis holds
    two chapters and the file of Exodus is a web page. *)
Definition genesisFile : perBook :=
  Keyed [("1", BObj [("1", VStr "In the beginning God created the heaven and the earth.");
                     ("2", VStr "And the earth was without form, and void;")]);
         ("2", BObj [("1", VStr "Thus the heavens and the earth were finished.")])].

Definition splitWorld : World :=
  {| inlineJson := NoInline; singleFile := NotOk; canonFile := NotOk;
     bookFile := fun name =>
       if String.eqb name "Genesis" then Body "{...}" (Some genesisFile)
       else if String.eqb name "Exodus" then Body "<!doctype html><html></html>" None
       else NotOk |}.

Definition splitData : Data :=
  match init splitWorld newData with
  | Ok d => d
  | Throw _ => newData
  end.

(** *** Notions about the order of the hits in any mode *)

(** The order of the way of a search: by index of the book in the
    metadata, then by chapter. *)
Definition wayLe (x y : Visit) : Prop :=
  (atIndex x < atIndex y)%nat \/
  (atIndex x = atIndex y /\ atChapter x <= atChapter y).

(** Every list of a map of chapters is sorted by verse number. *)
Definition sortedLists (chapters : gmap string (list Verse)) : Prop :=
  forall k vs, chapters !! k = Some vs -> StronglySorted verseLe vs.

(** Every book file normalises to chapters sorted by verse number, as
    the files keyed by chapter and verse number do. *)
Definition sortedFiles (w : World) : Prop :=
  forall name raw jb d b c vs,
    bookFile w name = Body raw (Some jb) ->
    (normalizePerBook d b jb).2 !! c = Some vs ->
    StronglySorted verseLe vs.

(** Every chapter that a request can deliver lists its verses in
    ascending order: those of the two caches, and those of the bulk
    payload or, without one, of the book files. *)
Definition orderly (w : World) (s : Sys) : Prop :=
  sortedLists (chapterCache s) /\
  sortedLists (cache (store s)) /\
  match singleByRef (store s) with
  | Some refs => sortedLists refs
  | None => sortedFiles w
  end.

(** The book list that [init] leaves when no content source loads. *)
Definition canonBooks (w : World) : list value :=
  match canonOf w with
  | Some (CanonArr arr) => (fun e => get e "name") <$> omap id arr
  | _ => VStr <$> CANON_66
  end.

(** A world without bulk payload whose canon file lists John before
    Genesis, with a file for each of the two books. *)
Definition johnFile : perBook :=
  Keyed [("1", BObj [("1", VStr "In the beginning was the Word, and the Word was with God.")])].

Definition johnFirstWorld : World :=
  {| inlineJson := NoInline; singleFile := NotOk;
     canonFile :=
       Body "[...]"
            (Some (CanonArr [Some {[ "name" := VStr "John"; "chapters" := VNum 1 ]};
                             Some {[ "name" := VStr "Genesis"; "chapters" := VNum 2 ]}]));
     bookFile := fun name =>
       if String.eqb name "Genesis" then Body "{...}" (Some genesisFile)
       else if String.eqb name "John" then Body "{...}" (Some johnFile)
       else NotOk |}.

Definition johnFirstData : Data :=
  match init johnFirstWorld newData with
  | Ok d => d
  | Throw _ => newData
  end.

Definition johnFirstSys : Sys := {| store := johnFirstData; chapterCache := ∅ |}.

(** *** Notions about the reference parser *)

(** The reference that [parseRef] builds for the book [b]. *)
Definition refTo (d : Data) (b : value) (chap : string) (vs : option string) : Ref :=
  {| refBook := b;
     refChapter := clamp (numberOfDigits chap) (chapterCount d b);
     refVerse := numberOfDigits <$> vs |}.

(** No book of the store has a normalised name that starts with the
    normalised token. *)
Definition unresolvable (d : Data) (b : string) : Prop :=
  forall x, x ∈ books d -> startsWith (norm x) (norm (VStr b)) = false.

(** A store ingested from one row whose chapter number is -1. *)
Definition belowOnePayload : json := JArr [Some (sampleRow "Alpha" (-1) 1 "x")].

Definition belowOneData : Data :=
  match ingestSingle belowOnePayload newData with
  | Ok d => d
  | Throw _ => newData
  end.

(** *** A verse for the examples of highlighting *)

Definition quotedVerse : Verse :=
  {| book := VStr "John"; chapter := Some 1; verse := Some 1;
     text := "In the <Beginning> was the Word"; paragraphStart := false |}.

From Stdlib Require DecimalZ.

(** *** Notions about keys and stored books *)

Definition isColonChar (c : ascii) : bool := (code c =? 58)%N.

Definition isStr (v : value) : bool :=
  match v with VStr _ => true | _ => false end.

(** Every surviving row of the payload names its book by a string. *)
Definition stringNamed (j : json) : Prop :=
  forallb (fun v => isStr (book v)) (survivors j) = true.

(** The largest chapter number among the rows of a book. *)
Definition isMaxChapter (b : value) (l : list Verse) (n : Z) : Prop :=
  (exists v, v ∈ l /\ book v = b /\ chapter v = Some n) /\
  (forall v c, v ∈ l -> book v = b -> chapter v = Some c -> c <= n).

(** *** Notions about tokens and escaped text *)

Definition notSpace (c : ascii) : bool := negb (isSpace c).

(** One of the characters that can open, close or quote inside a tag. *)
Definition isMarkup (c : ascii) : bool :=
  let n := code c in ((n =? 60) || (n =? 62) || (n =? 34))%N.

Definition noMarkup (s : string) : bool := allChars (fun c => negb (isMarkup c)) s.

(** An integer that a JSON number can be: a double. *)
Definition isDouble (z : Z) : Prop := nearestDouble (Z.abs z) = Some (Z.abs z).

(** Every verse under a chapter number bears the book and that number. *)
Definition labelled (b : value) (chapters : gmap num (list Verse)) : Prop :=
  forall c vs, chapters !! c = Some vs ->
    Forall (fun v => book v = b /\ chapter v = c) vs.

(** Two states of the system that differ at most in the two chapter
    caches. *)
Definition onlyCaches (s s' : Sys) : Prop :=
  books (store s') = books (store s) /\
  bookChapters (store s') = bookChapters (store s) /\
  singleByRef (store s') = singleByRef (store s) /\
  fetched (store s') = fetched (store s).

(** A store whose only book is named like an alias. *)
Definition aliasNamedData : Data :=
  match useCanon (Some (CanonArr [ Some {[ "name" := VStr "Jn"; "chapters" := VNum 3 ]} ]))
                 newData with
  | Ok d => d
  | Throw _ => newData
  end.

(** What [parseRef] requires of the alias table to give up on a token:
    the key is an inherited property, or an alias of a book that the
    store does not have. *)
Definition deadAlias (d : Data) (key : string) : Prop :=
  match aliasOf key with
  | AliasBook name => hasBook d (VStr name) = false
  | AliasInherited => True
  | AliasNone => False
  end.

(** ** The page: the reader and the palette ([src/app.js]) *)

Module Page.
Import JS Store App.

(** The paragraphs that [renderChapter] appends to the reader, each as
    the verses whose spans it holds, in order. [current] is the
    paragraph being filled: it has child nodes exactly when a verse was
    put into it. *)
Fixpoint paragraphsFrom (current : list Verse) (verses : list Verse) : list (list Verse) :=
  match verses with
  | [] => [current]
  | v :: rest =>
      if paragraphStart v && negb (bool_decide (current = []))
      then current :: paragraphsFrom [v] rest
      else paragraphsFrom (current ++ [v]) rest
  end.

(** [renderChapter(book, chap)]: the paragraphs put under the heading.
    When [getChapter] throws, so does the call, before the reader is
    touched. *)
Definition renderChapter (w : World) (b : value) (c : Z) (d : Data)
  : exc (list (list Verse)) * Data :=
  match getChapter w b c d with
  | (Ok verses, d') => (Ok (paragraphsFrom [] verses), d')
  | (Throw e, d') => (Throw e, d')
  end.

(** One entry of the palette. The label of a book entry is the book as
    the store has it. *)
Record Item := {
  itemLabel : value;
  itemBook : value;
  itemChapter : Z;
  itemVerse : option whole
}.

(** [ref.verse ? ':'+ref.verse : ''] *)
Definition verseSuffix (v : option whole) : string :=
  match v with
  | Some (Whole n) => if n =? 0 then "" else ":" +:+ showZ n
  | Some Infinite => ":Infinity"
  | None => ""
  end.

Definition refItem (r : Ref) : Item :=
  {| itemLabel := VStr (toStr (refBook r) +:+ " " +:+ showZ (refChapter r)
                        +:+ verseSuffix (refVerse r));
     itemBook := refBook r; itemChapter := refChapter r; itemVerse := refVerse r |}.

Definition bookItem (b : value) : Item :=
  {| itemLabel := b; itemBook := b; itemChapter := 1; itemVerse := None |}.

(** The loop [for(const b of data.books) if(b.toLowerCase().includes(qq))]:
    [None] is the [TypeError] of a book that is not a string. *)
Fixpoint matchingBooks (qq : string) (bs : list value) : option (list value) :=
  match bs with
  | [] => Some []
  | VStr s :: rest =>
      (fun l => if includes (toLowerCase s) qq then VStr s :: l else l)
        <$> matchingBooks qq rest
  | _ :: _ => None
  end.

(** The entries that [updatePaletteList(input)] turns into links:
    [items.slice(0,50)]. *)
Definition paletteItems (d : Data) (input : string) : option (list Item) :=
  let q := trim input in
  let items :=
    match parseRef d q with
    | Some r => [refItem r]
    | None => []
    end in
  if isEmpty q then Some (take 50 (items ++ (bookItem <$> books d)))
  else (fun bs => take 50 (items ++ (bookItem <$> bs)))
         <$> matchingBooks (toLowerCase q) (books d).

End Page.

Import Page.

(** *** Notions about the paragraphs *)

Definition continues (v : Verse) : Prop := paragraphStart v = false.

(** A paragraph in which no verse but the first starts a paragraph. *)
Definition unbroken (p : list Verse) : Prop := Forall continues (tail p).

(** A paragraph that begins with a verse that starts one. *)
Definition opened (p : list Verse) : Prop :=
  exists v, head p = Some v /\ paragraphStart v = true.
(** * Properties *)

(** ** Strings *)

Lemma append_cons (c : ascii) (s t : string) : String c s +:+ t = String c (s +:+ t).
Proof. reflexivity. Qed.

Lemma append_nil_l (s : string) : "" +:+ s = s.
Proof. reflexivity. Qed.

(** Unfolds the appends whose left side is known. *)
Tactic Notation "sapp" := rewrite ?append_cons, ?append_nil_l.
Tactic Notation "sapp" "in" hyp(H) := rewrite ?append_cons, ?append_nil_l in H.
Ltac ssimpl := simpl; sapp; simpl.

Lemma append_nil_r (s : string) : s +:+ "" = s.
Proof. induction s as [|c s IH]; ssimpl; [reflexivity | now rewrite IH]. Qed.

Lemma append_assoc (a b c : string) : (a +:+ b) +:+ c = a +:+ (b +:+ c).
Proof. induction a as [|x a IH]; ssimpl; [reflexivity | now rewrite IH]. Qed.

Lemma append_length (a b : string) :
  String.length (a +:+ b) = (String.length a + String.length b)%nat.
Proof. induction a as [|x a IH]; ssimpl; [reflexivity | now rewrite IH]. Qed.

Lemma startsWith_spec (s t : string) :
  startsWith s t = true <-> exists post, s = t +:+ post.
Proof.
  revert s. induction t as [|a t IH]; intros s; simpl.
  - split; [intros _; now exists s | reflexivity].
  - destruct s as [|b s].
    + split; [discriminate | intros [post H]; discriminate].
    + destruct (Ascii.eqb_spec a b) as [->|Hne].
      * rewrite IH. split; intros [post H]; exists post.
        -- sapp. now rewrite H.
        -- sapp in H. now injection H.
      * split; [discriminate | intros [post H]; sapp in H; injection H; congruence].
Qed.

Lemma includes_spec (s t : string) :
  includes s t = true <-> exists pre post, s = pre +:+ t +:+ post.
Proof.
  induction s as [|c s IH].
  - simpl. rewrite orb_false_r, startsWith_spec. split.
    + intros [post H]. now exists "", post.
    + intros (pre & post & H). destruct pre; [now exists post | discriminate].
  - cbn [includes]. rewrite orb_true_iff, startsWith_spec, IH. split.
    + intros [[post H] | (pre & post & H)].
      * now exists "", post.
      * exists (String c pre), post. simpl. now rewrite H.
    + intros (pre & post & H). destruct pre as [|x pre].
      * left. now exists post.
      * right. simpl in H. injection H as _ H. now exists pre, post.
Qed.

Lemma toLowerCase_app (a b : string) :
  toLowerCase (a +:+ b) = toLowerCase a +:+ toLowerCase b.
Proof. induction a as [|x a IH]; simpl; [reflexivity | now rewrite IH]. Qed.

Lemma lowerChar_idemp (c : ascii) : lowerChar (lowerChar c) = lowerChar c.
Proof. destruct c as [[] [] [] [] [] [] [] []]; reflexivity. Qed.

Lemma toLowerCase_idemp (s : string) : toLowerCase (toLowerCase s) = toLowerCase s.
Proof.
  induction s as [|c s IH]; simpl; [reflexivity|].
  now rewrite lowerChar_idemp, IH.
Qed.

Lemma toLowerCase_length (s : string) : String.length (toLowerCase s) = String.length s.
Proof. induction s as [|c s IH]; simpl; [reflexivity | now rewrite IH]. Qed.

(** A split of the lowered string comes from a split of the string. *)
Lemma toLowerCase_split (s a b : string) :
  toLowerCase s = a +:+ b ->
  exists a' b', s = a' +:+ b' /\ toLowerCase a' = a /\ toLowerCase b' = b.
Proof.
  revert s. induction a as [|x a IH]; intros s H.
  - now exists "", s.
  - destruct s as [|c s]; [discriminate|]. simpl in H. injection H as Hc H.
    destruct (IH _ H) as (a' & b' & -> & Ha & Hb).
    exists (String c a'), b'. simpl. now rewrite Hc, Ha.
Qed.

Lemma includes_lower_spec (s t : string) :
  includes (toLowerCase s) (toLowerCase t) = true <-> ciSubstring t s.
Proof.
  rewrite includes_spec. unfold ciSubstring. split.
  - intros (pre & post & H).
    destruct (toLowerCase_split _ _ _ H) as (pre' & r & -> & Hpre & Hr).
    destruct (toLowerCase_split _ _ _ Hr) as (u & post' & -> & Hu & Hpost).
    now exists pre', u, post'.
  - intros (pre & u & post & -> & Hu).
    exists (toLowerCase pre), (toLowerCase post).
    now rewrite !toLowerCase_app, Hu.
Qed.

(** ** The tokens of a query *)

Lemma allChars_app (p : ascii -> bool) (a b : string) :
  allChars p (a +:+ b) = allChars p a && allChars p b.
Proof. induction a as [|x a IH]; simpl; [reflexivity | now rewrite IH, andb_assoc]. Qed.

Lemma allChars_dropWhile (p q : ascii -> bool) (s : string) :
  allChars p s = true -> allChars p (dropWhile q s) = true.
Proof.
  induction s as [|c s IH]; simpl; [easy|].
  intros [Hc Hs]%andb_true_iff. destruct (q c); [auto | simpl; now rewrite Hc, Hs].
Qed.

Lemma allChars_dropEndWhile (p q : ascii -> bool) (s : string) :
  allChars p s = true -> allChars p (dropEndWhile q s) = true.
Proof.
  induction s as [|c s IH]; simpl; [easy|].
  intros [Hc Hs]%andb_true_iff. specialize (IH Hs).
  destruct (dropEndWhile q s) as [|y r].
  - destruct (q c); simpl; [reflexivity | now rewrite Hc].
  - change (p c && allChars p (String y r) = true). now rewrite Hc, IH.
Qed.

Lemma allChars_trim (p : ascii -> bool) (s : string) :
  allChars p s = true -> allChars p (trim s) = true.
Proof. intros H. now apply allChars_dropEndWhile, allChars_dropWhile. Qed.

Lemma allChars_splitWs (p : ascii -> bool) (s : string) (inRun : bool) :
  allChars p s = true -> Forall (fun x => allChars p x = true) (splitWs inRun s).
Proof.
  revert inRun. induction s as [|c s IH]; intros inRun; simpl.
  - intros _. now repeat constructor.
  - intros [Hc Hs]%andb_true_iff. destruct (isSpace c).
    + destruct inRun; [auto|]. constructor; [reflexivity | auto].
    + specialize (IH false Hs). destruct (splitWs false s) as [|x ps].
      * repeat constructor. simpl. now rewrite Hc.
      * inversion IH as [|? ? Hx Hps]; subst. constructor; [|assumption].
        simpl. now rewrite Hc, Hx.
Qed.

Lemma allChars_lowered (s : string) : allChars isLowered (toLowerCase s) = true.
Proof.
  induction s as [|c s IH]; simpl; [reflexivity|].
  rewrite IH, andb_true_r. unfold isLowered. rewrite lowerChar_idemp.
  apply Ascii.eqb_refl.
Qed.

Lemma lowered_fixed (s : string) : allChars isLowered s = true -> toLowerCase s = s.
Proof.
  induction s as [|c s IH]; simpl; [reflexivity|].
  intros [Hc Hs]%andb_true_iff. apply Ascii.eqb_eq in Hc. now rewrite Hc, IH.
Qed.

Lemma tokenize_elem (q t : string) :
  t ∈ tokenize q -> t <> "" /\ toLowerCase t = t.
Proof.
  unfold tokenize. intros Ht.
  apply elem_of_take in Ht as (i & Ht & _). apply list_elem_of_lookup_2 in Ht.
  apply list_elem_of_filter in Ht as [Hne Ht]. split.
  - intros ->. discriminate.
  - apply lowered_fixed.
    apply list_elem_of_fmap in Ht as (x & -> & Hx). apply allChars_trim.
    pose proof (allChars_splitWs isLowered _ false (allChars_lowered q)) as HF.
    rewrite Forall_forall in HF. now apply HF.
Qed.

(** ** The search loops in single-source mode *)

Lemma hitsAmong_app (tokens : list string) (l1 l2 : list Visit) :
  hitsAmong tokens (l1 ++ l2) = hitsAmong tokens l1 ++ hitsAmong tokens l2.
Proof. unfold hitsAmong. now rewrite filter_app, fmap_app. Qed.

Lemma limit_reached (limit : Z) (k : nat) :
  (limit <=? Z.of_nat (S k)) = bool_decide (cap limit <= S k)%nat.
Proof.
  unfold cap. destruct (Z.leb_spec limit (Z.of_nat (S k))) as [H|H];
    symmetry; [apply bool_decide_eq_true | apply bool_decide_eq_false]; lia.
Qed.

Lemma cap_pos (limit : Z) : (1 <= cap limit)%nat.
Proof. unfold cap. lia. Qed.

Lemma finish_below (n : nat) (X : list Hit) :
  (length X < n)%nat -> finish n X = Next X.
Proof. intros H. unfold finish. destruct (decide _); [lia | reflexivity]. Qed.

Lemma scanVerses_spec (tokens : list string) (limit : Z) (bi : nat) (b : value) (c : Z)
    (vs : list Verse) (results : list Hit) :
  (length results < cap limit)%nat ->
  let X := results ++ hitsAmong tokens (Build_Visit bi b c <$> vs) in
  scanVerses tokens limit b c vs results =
    (take (cap limit) X, bool_decide (cap limit <= length X)%nat).
Proof.
  revert results. induction vs as [|v vs IH]; intros results Hlt; cbn zeta.
  - cbn. rewrite app_nil_r, take_ge by lia.
    f_equal. symmetry. apply bool_decide_eq_false. lia.
  - cbn [scanVerses fmap list_fmap]. unfold hitsAmong.
    rewrite filter_cons. cbn [atVerse].
    destruct (verseMatches tokens v) eqn:Hm.
    + rewrite decide_True by reflexivity. rewrite fmap_cons.
      change (visitHit tokens (Build_Visit bi b c v)) with (mkHit tokens b c v).
      rewrite length_app. cbn [length]. rewrite Nat.add_1_r, limit_reached.
      case_bool_decide as Hcap.
      * assert (length (results ++ [mkHit tokens b c v]) = cap limit) as Hlen
          by (rewrite length_app; cbn; lia).
        set (R := visitHit tokens <$> filter _ _).
        change (results ++ mkHit tokens b c v :: R)
          with (results ++ [mkHit tokens b c v] ++ R).
        rewrite (app_assoc results).
        rewrite take_app_le, take_ge by lia.
        f_equal. symmetry. apply bool_decide_eq_true.
        rewrite length_app. lia.
      * rewrite IH by (rewrite length_app; cbn; lia).
        unfold hitsAmong. now rewrite <- app_assoc.
    + rewrite decide_False by congruence. now rewrite IH.
Qed.

Lemma workerGetChapter_single (w : World) (refs : gmap string (list Verse))
    (b : value) (c : Z) (s : Sys) :
  coherent refs s ->
  exists s', workerGetChapter w b c s = (Some (chapterOf refs b c), s') /\ coherent refs s'.
Proof.
  intros (Href & Hc & Hw). unfold workerGetChapter, chapterOf.
  destruct (chapterCache s !! refKey b (Some c)) as [vs|] eqn:Hk.
  - exists s. rewrite (Hw _ _ Hk). repeat split; assumption.
  - unfold getChapter. destruct (cache (store s) !! refKey b (Some c)) as [vs|] eqn:Hk'.
    + eexists. rewrite (Hc _ _ Hk'). split; [reflexivity|].
      repeat split; cbn; try assumption.
      intros k vs'. rewrite lookup_insert. case_decide; [|apply Hw].
      subst k. now intros [= <-].
    + rewrite Href. eexists. split; [reflexivity|].
      repeat split; cbn; try assumption.
      * intros k vs'. rewrite lookup_insert. case_decide; [|apply Hc].
        subst k. now intros [= <-].
      * intros k vs'. rewrite lookup_insert. case_decide; [|apply Hw].
        subst k. now intros [= <-].
Qed.

(** A store that has just ingested a payload, with a worker that has
    asked for nothing yet. *)
Lemma fresh_coherent (refs : gmap string (list Verse)) (d : Data) :
  singleByRef d = Some refs -> cache d = ∅ ->
  coherent refs {| store := d; chapterCache := ∅ |}.
Proof.
  intros Hr Hc. repeat split; cbn; [assumption| |].
  - intros k vs. rewrite Hc, lookup_empty. discriminate.
  - intros k vs. rewrite lookup_empty. discriminate.
Qed.

(** The page reading a chapter for itself keeps the system coherent. *)
Lemma getChapter_coherent (w : World) (refs : gmap string (list Verse))
    (b : value) (c : Z) (s : Sys) :
  coherent refs s ->
  coherent refs {| store := (getChapter w b c (store s)).2;
                   chapterCache := chapterCache s |}.
Proof.
  intros (Href & Hc & Hw). unfold getChapter.
  destruct (cache (store s) !! refKey b (Some c)) as [vs|] eqn:Hk.
  - repeat split; assumption.
  - rewrite Href. repeat split; cbn; try assumption.
    intros k vs'. rewrite lookup_insert. case_decide; [|apply Hc].
    subst k. now intros [= <-].
Qed.

Lemma scanChapters_spec (w : World) (refs : gmap string (list Verse))
    (tokens : list string) (limit : Z) (bi : nat) (b : value) (cs : list Z) :
  forall (results : list Hit) (s : Sys),
  coherent refs s ->
  (length results < cap limit)%nat ->
  exists s',
    scanChapters w tokens limit b cs results s =
      (finish (cap limit)
         (results ++ hitsAmong tokens (cs ≫= chapterVisits refs bi b)), s')
    /\ coherent refs s'.
Proof.
  induction cs as [|c cs IH]; intros results s Hs Hlt.
  - exists s. cbn. rewrite app_nil_r, finish_below by assumption. now split.
  - cbn [scanChapters].
    destruct (workerGetChapter_single w refs b c s Hs) as (s1 & -> & Hs1).
    rewrite (scanVerses_spec tokens limit bi b c) by assumption.
    rewrite bind_cons, hitsAmong_app, app_assoc.
    fold (chapterVisits refs bi b c).
    set (X := results ++ hitsAmong tokens (chapterVisits refs bi b c)).
    case_bool_decide as Hcap.
    + exists s1. split; [|assumption]. unfold finish.
      rewrite decide_True by (rewrite length_app; lia).
      now rewrite take_app_le by lia.
    + rewrite take_ge by lia. apply IH; [assumption | lia].
Qed.

Lemma scanBooks_spec (w : World) (refs : gmap string (list Verse)) (m : Meta)
    (tokens : list string) (limit : Z) (bs : list (nat * value)) :
  forall (results : list Hit) (s : Sys),
  coherent refs s ->
  (length results < cap limit)%nat ->
  exists s',
    scanBooks w m tokens limit bs results s =
      (finish (cap limit) (results ++ hitsAmong tokens (bs ≫= bookVisits refs m)), s')
    /\ coherent refs s'.
Proof.
  induction bs as [|[bi b] bs IH]; intros results s Hs Hlt.
  - exists s. cbn. rewrite app_nil_r, finish_below by assumption. now split.
  - cbn [scanBooks].
    destruct (scanChapters_spec w refs tokens limit bi b
                (chaptersUpTo (countAt m bi)) results s Hs Hlt) as (s1 & -> & Hs1).
    rewrite bind_cons, hitsAmong_app, app_assoc.
    change (bookVisits refs m (bi, b))
      with (chaptersUpTo (countAt m bi) ≫= chapterVisits refs bi b).
    set (X := results ++ hitsAmong tokens (chaptersUpTo (countAt m bi) ≫= chapterVisits refs bi b)).
    unfold finish at 1. destruct (decide (cap limit <= length X)%nat) as [Hcap|Hcap].
    + exists s1. split; [|assumption]. unfold finish.
      rewrite decide_True by (rewrite length_app; lia).
      now rewrite take_app_le by lia.
    + apply IH; [assumption | lia].
Qed.

(** In single-source mode a search returns, with the first [cap limit]
    hits of the traversal. *)
Lemma search_single (w : World) (refs : gmap string (list Verse)) (m : Meta)
    (q : string) (limit : Z) (s : Sys) :
  coherent refs s ->
  tokenize q <> [] ->
  exists s',
    search w m q limit s =
      (Some (take (cap limit) (hitsAmong (tokenize q) (visits refs m))), s')
    /\ coherent refs s'.
Proof.
  intros Hs Hq. unfold search.
  destruct (tokenize q) as [|t ts] eqn:Ht; [congruence|].
  destruct (scanBooks_spec w refs m (t :: ts) limit (imap pair (metaBooks m)) [] s Hs)
    as (s1 & -> & Hs1); [cbn; apply cap_pos|].
  exists s1. split; [|assumption]. rewrite app_nil_l. fold (visits refs m).
  unfold finish. destruct (decide _) as [H|H]; [reflexivity|].
  now rewrite take_ge by lia.
Qed.

(** ** The search loops in any mode *)

Lemma outcome_below (n : nat) (X : list Hit) (s : Sys) :
  (length X < n)%nat -> outcome n X (Some s) = Next X.
Proof. intros H. unfold outcome. destruct (decide _); [lia | reflexivity]. Qed.

Lemma outcome_reached (n : nat) (X Y : list Hit) (r r' : option Sys) :
  (n <= length X)%nat -> outcome n (X ++ Y) r = outcome n X r'.
Proof.
  intros H. unfold outcome. rewrite !decide_True by (rewrite ?length_app; lia).
  now rewrite take_app_le by lia.
Qed.

(** The loop over the chapters of a book returns what its way gives,
    and hands on the state of the way when it goes on to the next
    book. *)
Lemma scanChapters_trace (w : World) (tokens : list string) (limit : Z) (bi : nat)
    (b : value) (cs : list Z) :
  forall (results : list Hit) (s : Sys),
  (length results < cap limit)%nat ->
  let X := results ++ hitsAmong tokens (traceChapters w bi b cs s).1 in
  (scanChapters w tokens limit b cs results s).1
    = outcome (cap limit) X (traceChapters w bi b cs s).2 /\
  (forall R, (scanChapters w tokens limit b cs results s).1 = Next R ->
     (traceChapters w bi b cs s).2 = Some (scanChapters w tokens limit b cs results s).2).
Proof.
  induction cs as [|c cs IH]; intros results s Hlt; cbn zeta.
  - cbn. rewrite app_nil_r, outcome_below by assumption. now split.
  - cbn [scanChapters traceChapters].
    destruct (workerGetChapter w b c s) as [[vs|] s1]; cbn [fst snd].
    + rewrite (scanVerses_spec tokens limit bi b c) by assumption.
      specialize (IH (results ++ hitsAmong tokens (Build_Visit bi b c <$> vs)) s1).
      destruct (traceChapters w bi b cs s1) as [V r]. cbn [fst snd] in *.
      rewrite hitsAmong_app, app_assoc.
      set (X1 := results ++ hitsAmong tokens (Build_Visit bi b c <$> vs)) in *.
      case_bool_decide as Hcap.
      * cbn [fst snd]. split; [|discriminate].
        rewrite (outcome_reached _ X1 _ r (Some s1)) by assumption.
        unfold outcome. now rewrite decide_True by assumption.
      * rewrite take_ge by lia. apply IH. lia.
    + cbn. rewrite app_nil_r. unfold outcome.
      rewrite decide_False by lia. split; [reflexivity | discriminate].
Qed.

Lemma scanBooks_trace (w : World) (m : Meta) (tokens : list string) (limit : Z)
    (bs : list (nat * value)) :
  forall (results : list Hit) (s : Sys),
  (length results < cap limit)%nat ->
  (scanBooks w m tokens limit bs results s).1
    = outcome (cap limit) (results ++ hitsAmong tokens (traceBooks w m bs s).1)
              (traceBooks w m bs s).2.
Proof.
  induction bs as [|[bi b] bs IH]; intros results s Hlt.
  - cbn. now rewrite app_nil_r, outcome_below by assumption.
  - cbn [scanBooks traceBooks].
    destruct (scanChapters_trace w tokens limit bi b (chaptersUpTo (countAt m bi))
                results s Hlt) as [Hout Hstate].
    destruct (scanChapters w tokens limit b (chaptersUpTo (countAt m bi)) results s)
      as [f s1]. cbn [fst snd] in *.
    destruct (traceChapters w bi b (chaptersUpTo (countAt m bi)) s) as [V r].
    cbn [fst snd] in *. unfold outcome in Hout.
    destruct (decide (cap limit <= length (results ++ hitsAmong tokens V))%nat)
      as [Hcap | Hcap].
    + subst f. cbn [fst].
      assert (forall V' r', outcome (cap limit) (results ++ hitsAmong tokens (V ++ V')) r'
                = Break (take (cap limit) (results ++ hitsAmong tokens V))) as Hb.
      { intros V' r'. rewrite hitsAmong_app, app_assoc.
        rewrite (outcome_reached _ _ _ r' r') by assumption.
        unfold outcome. now rewrite decide_True by assumption. }
      destruct r as [s'|].
      * destruct (traceBooks w m bs s') as [V' r']. cbn [fst snd]. now rewrite Hb.
      * cbn [fst snd]. unfold outcome. now rewrite decide_True by assumption.
    + destruct r as [s'|].
      * subst f. specialize (Hstate _ eq_refl). injection Hstate as ->.
        rewrite IH by lia.
        destruct (traceBooks w m bs s1) as [V' r']. cbn [fst snd].
        now rewrite hitsAmong_app, app_assoc.
      * subst f. cbn [fst snd]. unfold outcome. now rewrite decide_False by assumption.
Qed.

(** What a search returns, in any mode: the first [cap limit] hits on
    its way, or nothing when the way has fewer and a request on it is
    never answered. *)
Lemma search_trace (w : World) (m : Meta) (q : string) (limit : Z) (s : Sys) :
  tokenize q <> [] ->
  (search w m q limit s).1 =
    match outcome (cap limit) (hitsAmong (tokenize q) (onTheWay w m s)) (trace w m s).2 with
    | Next X | Break X => Some X
    | Stalled => None
    end.
Proof.
  intros Hq. unfold search, onTheWay, trace.
  destruct (tokenize q) as [|t ts]; [congruence|].
  pose proof (scanBooks_trace w m (t :: ts) limit (imap pair (metaBooks m)) [] s) as H.
  cbn [app length] in H. rewrite <- H by apply cap_pos.
  now destruct (scanBooks w m (t :: ts) limit (imap pair (metaBooks m)) [] s)
    as [[X | X |] s1].
Qed.


Lemma hitsAmong_holding (tokens : list string) (l : list Visit) :
  (forall t, t ∈ tokens -> toLowerCase t = t) ->
  hitsAmong tokens l = visitHit tokens <$> holding tokens l.
Proof.
  intros Hlow. unfold hitsAmong, holding. f_equal.
  apply list_filter_iff. intros x. unfold verseMatches, allIncluded.
  assert (forallb (includes (toLowerCase (text (atVerse x)))) tokens
          = forallb (fun t => occurs t (text (atVerse x))) tokens) as ->; [|reflexivity].
  induction tokens as [|t ts IH]; [reflexivity|]. cbn [forallb].
  unfold occurs at 1. rewrite (Hlow t) by left.
  f_equal. apply IH. intros t' Ht'. apply Hlow. now right.
Qed.

Lemma hitsAmong_tokenize (q : string) (l : list Visit) :
  hitsAmong (tokenize q) l = visitHit (tokenize q) <$> holding (tokenize q) l.
Proof. apply hitsAmong_holding. intros t Ht. now apply (tokenize_elem q). Qed.





(** ** Matching *)

Lemma allIncluded_spec (txt : string) (tokens : list string) :
  allIncluded txt tokens = true <-> forall t, t ∈ tokens -> includes txt t = true.
Proof.
  unfold allIncluded. rewrite forallb_forall. split.
  - intros H t Ht. apply H. now apply list_elem_of_In.
  - intros H t Ht. apply H. now apply list_elem_of_In.
Qed.

(** The match test of the verse loop is the conjunction over the tokens
    of a query, each taken as a substring without regard to case. *)
Lemma verseMatches_spec (q : string) (v : Verse) :
  verseMatches (tokenize q) v = true <->
  forall t, t ∈ tokenize q -> ciSubstring t (text v).
Proof.
  unfold verseMatches. rewrite allIncluded_spec.
  split; intros H t Ht; specialize (H t Ht);
    destruct (tokenize_elem q t Ht) as [_ Hlow].
  - apply includes_lower_spec. now rewrite Hlow.
  - apply includes_lower_spec in H. now rewrite Hlow in H.
Qed.


Lemma sample_coherent : coherent sampleRefs sampleSys.
Proof.
  repeat split.
  - intros k vs H. change (cache (store sampleSys)) with (∅ : gmap string (list Verse)) in H.
    now rewrite lookup_empty in H.
  - intros k vs H. cbn in H. now rewrite lookup_empty in H.
Qed.

(** The loop over a chapter, whatever the mode of the store: the hits it
    adds are the verses of a prefix of the chapter that pass the test. *)
Lemma scanVerses_scanned (tokens : list string) (limit : Z) (b : value) (c : Z)
    (vs : list Verse) (results : list Hit) :
  exists k,
    (scanVerses tokens limit b c vs results).1 =
    results ++ (mkHit tokens b c <$>
                filter (fun v => verseMatches tokens v = true) (take k vs)).
Proof.
  revert results. induction vs as [|v vs IH]; intros results.
  - exists 0%nat. cbn. now rewrite app_nil_r.
  - cbn [scanVerses]. destruct (verseMatches tokens v) eqn:Hm.
    + destruct (limit <=? _).
      * exists 1%nat. cbn [take]. rewrite filter_cons, decide_True by assumption.
        reflexivity.
      * destruct (IH (results ++ [mkHit tokens b c v])) as [k Hk]. exists (S k).
        rewrite Hk. cbn [take]. rewrite filter_cons, decide_True by assumption.
        now rewrite <- app_assoc.
    + destruct (IH results) as [k Hk]. exists (S k).
      rewrite Hk. cbn [take]. now rewrite filter_cons, decide_False by congruence.
Qed.


(** What a search with tokens returns, by the verses on its way. *)
Lemma search_returns (w : World) (m : Meta) (q : string) (limit : Z) (s : Sys) :
  tokenize q <> [] ->
  let M := holding (tokenize q) (onTheWay w m s) in
  (forall hits, (search w m q limit s).1 = Some hits ->
     hits = visitHit (tokenize q) <$> take (cap limit) M) /\
  ((search w m q limit s).1 = None <->
     answered w m s = false /\ (length M < cap limit)%nat).
Proof.
  intros Hq M. rewrite (search_trace w m q limit s Hq), hitsAmong_tokenize.
  fold M. unfold outcome, answered. rewrite length_fmap.
  destruct (decide (cap limit <= length M)%nat) as [Hcap | Hcap].
  - split.
    + intros hits [= <-]. now rewrite fmap_take.
    + split; [discriminate | lia].
  - destruct (trace w m s).2 as [s'|].
    + split.
      * intros hits [= <-]. now rewrite take_ge by lia.
      * split; [discriminate|]. intros [H _]. apply bool_decide_eq_false in H.
        exfalso. apply H. eauto.
    + split; [discriminate|]. split; [|reflexivity]. intros _.
      split; [|lia]. apply bool_decide_eq_false. intros [? ?]. discriminate.
Qed.


(** A search over a split store: with the limit 1 the hit in Genesis is
    returned before the file of Exodus is asked for; with the limit of
    the page the search meets that file, which is a web page, and never
    returns. *)
Example search_over_split_store :
  (search splitWorld (indexMeta splitData) "the BEGINNING" 1
          {| store := splitData; chapterCache := ∅ |}).1
    = Some [{| hitBook := VStr "Genesis"; hitChapter := 1; hitVerse := Some 1;
               previewHtml :=
                 "In <mark>the</mark> <mark>beginning</mark> God created <mark>the</mark> heaven and <mark>the</mark> earth." |}] /\
  (search splitWorld (indexMeta splitData) "the BEGINNING" 100
          {| store := splitData; chapterCache := ∅ |}).1 = None.
Proof. vm_compute. split; reflexivity. Qed.

(** ** The limit *)

(** For a limit of at least 1 the hits are at most that many, and a
    smaller limit gives a prefix of what a larger one gives. *)
Lemma search_limit_prefix (w : World) (refs : gmap string (list Verse))
    (m : Meta) (q : string) (n n' : Z) (s : Sys) :
  coherent refs s -> n <= n' ->
  exists hits hits' s1 s2,
    search w m q n s = (Some hits, s1) /\
    search w m q n' s = (Some hits', s2) /\
    hits `prefix_of` hits' /\
    (1 <= n -> Z.of_nat (length hits) <= n).
Proof.
  intros Hs Hn. destruct (tokenize q) as [|t ts] eqn:Ht.
  - exists [], [], s, s. unfold search. rewrite Ht.
    repeat split; [apply prefix_nil | cbn; lia].
  - destruct (search_single w refs m q n s Hs) as (s1 & H1 & _); [congruence|].
    destruct (search_single w refs m q n' s Hs) as (s2 & H2 & _); [congruence|].
    do 4 eexists. split; [exact H1|]. split; [exact H2|]. split.
    + assert (cap n <= cap n')%nat as Hc by (unfold cap; lia).
      set (X := hitsAmong _ _).
      exists (drop (cap n) (take (cap n') X)).
      rewrite <- (take_drop (cap n) (take (cap n') X)) at 1.
      f_equal. rewrite take_take. f_equal. lia.
    + intros H1n. rewrite length_take. unfold cap. lia.
Qed.



(** The limit 0, which no sender posts: the test [results.length >=
    limit] comes after the push, so the first hit is returned. *)
Example search_limit_zero_returns_a_hit :
  length <$> (search offline (indexMeta sampleData) "beginning" 0 sampleSys).1
    = Some 1%nat /\
  length <$> (search offline (indexMeta sampleData) "beginning" 100 sampleSys).1
    = Some 2%nat.
Proof. vm_compute. split; reflexivity. Qed.

(** ** Ingestion: which rows survive, and when it fails *)

Lemma readRow_None (r : gmap string value) :
  readRow r = None <->
  truthy (rowBook r) = false \/ rowChapter r = None \/ rowVerse r = None.
Proof.
  unfold readRow.
  destruct (rowChapter r) as [c|], (rowVerse r) as [v|]; try (split; [tauto|reflexivity]).
  destruct (truthy (rowBook r)).
  - destruct (stripMarkers false (rowText r)). split; [discriminate|].
    intros [H|[H|H]]; discriminate.
  - split; [tauto | reflexivity].
Qed.

Lemma omap_nil_all {A B} (f : A -> option B) (l : list A) :
  omap f l = [] <-> forall x, x ∈ l -> f x = None.
Proof.
  induction l as [|x l IH]; cbn.
  - split; [intros _ y Hy; now apply elem_of_nil in Hy | reflexivity].
  - destruct (f x) eqn:Hx.
    + split; [discriminate|]. intros H. specialize (H x (list_elem_of_here _ _)). congruence.
    + cbn. rewrite IH. split.
      * intros H y [->|Hy]%elem_of_cons; auto.
      * intros H y Hy. apply H. now right.
Qed.

Lemma omap_filter_is_Some {A B} (f : A -> option B) (l : list A) :
  omap f (filter (fun x => is_Some (f x)) l) = omap f l.
Proof.
  induction l as [|x l IH]; [reflexivity|].
  rewrite filter_cons. destruct (decide (is_Some (f x))) as [[y Hy]|Hn].
  - cbn. now rewrite Hy, IH.
  - cbn. destruct (f x) eqn:Hx; [exfalso; apply Hn; eauto | exact IH].
Qed.

Lemma sawBad_all_dropped (rows : list (gmap string value)) :
  rows <> [] -> omap readRow rows = [] ->
  existsb (fun r => negb (bool_decide (is_Some (readRow r)))) rows = true.
Proof.
  destruct rows as [|r rows]; [congruence|]. intros _ H.
  rewrite omap_nil_all in H. cbn. rewrite (H r) by left.
  rewrite bool_decide_eq_false_2; [reflexivity | now intros [? ?]].
Qed.

Lemma ingestSingle_null (j : json) (d : Data) :
  existsb isNull (jsonArray j) = true -> ingestSingle j d = Throw TypeError.
Proof. intros H. unfold ingestSingle. now rewrite H. Qed.

Lemma ingestSingle_objects (j : json) (d d' : Data) :
  ingestSingle j d = Ok d' -> existsb isNull (jsonArray j) = false.
Proof. unfold ingestSingle. now destruct (existsb isNull (jsonArray j)). Qed.

Lemma ingestSingle_Ok (j : json) (d : Data) :
  existsb isNull (jsonArray j) = false ->
  survivors j <> [] ->
  ingestSingle j d =
    Ok {| books := orderBooks (organize (survivors j)).*1;
          bookChapters :=
            fold_left (fun m bc => <[bc.1 := maxChapter bc.2]> m)
                      (organize (survivors j)) (bookChapters d);
          cache := cache d;
          singleByRef := Some (buildRefs (organize (survivors j)));
          fetched := fetched d |}
  \/ (orderBooks (organize (survivors j)).*1 = [] /\
      ingestSingle j d =
        Ok {| books := (organize (survivors j)).*1;
              bookChapters :=
                fold_left (fun m bc => <[bc.1 := maxChapter bc.2]> m)
                          (organize (survivors j)) (bookChapters d);
              cache := cache d;
              singleByRef := Some (buildRefs (organize (survivors j)));
              fetched := fetched d |}).
Proof.
  unfold ingestSingle, survivors. intros -> H.
  destruct (omap readRow (jsonRows j)) as [|v vs] eqn:Hv; [congruence|].
  destruct (orderBooks (organize (v :: vs)).*1) eqn:Ho; [right | left]; auto.
Qed.

(** The three ways in which ingestion throws. *)
Lemma ingestSingle_throws (j : json) (d : Data) (e : error) :
  ingestSingle j d = Throw e <->
  (e = TypeError /\ existsb isNull (jsonArray j) = true) \/
  (existsb isNull (jsonArray j) = false /\ survivors j = [] /\
   (e = UnknownFieldNames /\ jsonRows j <> [] \/ e = NoVerseRows /\ jsonRows j = [])).
Proof.
  unfold ingestSingle, survivors.
  destruct (existsb isNull (jsonArray j)).
  { split; [intros [= <-]; now left|]. intros [[-> _] | [? _]]; [reflexivity | discriminate]. }
  destruct (omap readRow (jsonRows j)) as [|v vs] eqn:Hv.
  - destruct (jsonRows j) as [|r rows] eqn:Hr.
    + cbn. split.
      * intros [= <-]. right. repeat split. now right.
      * intros [[_ ?] | (_ & _ & [[_ ?] | [-> _]])]; congruence.
    + rewrite sawBad_all_dropped by (congruence || assumption). split.
      * intros [= <-]. right. repeat split. left. split; congruence.
      * intros [[_ ?] | (_ & _ & [[-> _] | [_ ?]])]; congruence.
  - split; [discriminate|]. intros [[_ ?] | (_ & ? & _)]; discriminate.
Qed.

(** C6. A payload of two rows, [null] and then a well-formed verse row:
    the loop throws a [TypeError] when it reads [r.book_name] of the
    first, so ingestion fails although the second row is usable, where
    the claim has an unusable record discarded and ingestion fail only
    when no verse survives. Without the [null] the same payload is
    ingested and holds that verse. *)
Theorem null_row_fails_the_ingestion :
  jsonArray nullRowPayload = [None; Some goodRow] /\
  is_Some (readRow goodRow) /\
  ingestSingle nullRowPayload newData = Throw TypeError /\
  isThrow (ingestSingle (JArr [Some goodRow]) newData) = false.
Proof.
  split; [reflexivity|]. split; [vm_compute; eauto|].
  split; vm_compute; reflexivity.
Qed.

(** ** Ingestion: how the surviving rows are grouped *)

Lemma pushChapter_keys (v : Verse) (chs : list (num * list Verse)) :
  (pushChapter v chs).*1 =
    if decide (chapter v ∈ chs.*1) then chs.*1 else chs.*1 ++ [chapter v].
Proof.
  induction chs as [|[c vs] chs IH]; cbn.
  - rewrite decide_False; [reflexivity | apply not_elem_of_nil].
  - destruct (decide (c = chapter v)) as [->|Hne]; cbn.
    + rewrite decide_True by left. reflexivity.
    + rewrite IH. destruct (decide (chapter v ∈ chs.*1)) as [Hin|Hin].
      * rewrite decide_True by now right. reflexivity.
      * rewrite decide_False; [reflexivity|].
        intros [?|?]%elem_of_cons; congruence.
Qed.

Lemma pushVerse_keys (v : Verse) (m : list (value * list (num * list Verse))) :
  (pushVerse v m).*1 =
    if decide (book v ∈ m.*1) then m.*1 else m.*1 ++ [book v].
Proof.
  induction m as [|[b chs] m IH]; cbn.
  - rewrite decide_False; [reflexivity | apply not_elem_of_nil].
  - destruct (decide (b = book v)) as [->|Hne]; cbn.
    + rewrite decide_True by left. reflexivity.
    + rewrite IH. destruct (decide (book v ∈ m.*1)) as [Hin|Hin].
      * rewrite decide_True by now right. reflexivity.
      * rewrite decide_False; [reflexivity|].
        intros [?|?]%elem_of_cons; congruence.
Qed.

Lemma alookup_pushChapter (v : Verse) (chs : list (num * list Verse)) (c : num) :
  alookup c (pushChapter v chs) =
    if decide (c = chapter v)
    then Some (default [] (alookup c chs) ++ [v])
    else alookup c chs.
Proof.
  induction chs as [|[c' vs] chs IH]; cbn.
  - destruct (decide (chapter v = c)), (decide (c = chapter v)); cbn; congruence.
  - destruct (decide (c' = chapter v)) as [->|Hne]; cbn.
    + destruct (decide (chapter v = c)), (decide (c = chapter v)); cbn; congruence.
    + destruct (decide (c' = c)) as [->|Hne'].
      * rewrite decide_False by congruence. reflexivity.
      * exact IH.
Qed.

Lemma alookup_pushVerse (v : Verse) (m : list (value * list (num * list Verse))) (b : value) :
  alookup b (pushVerse v m) =
    if decide (b = book v)
    then Some (pushChapter v (default [] (alookup b m)))
    else alookup b m.
Proof.
  induction m as [|[b' chs] m IH]; cbn.
  - destruct (decide (book v = b)), (decide (b = book v)); cbn; congruence.
  - destruct (decide (b' = book v)) as [->|Hne]; cbn.
    + destruct (decide (book v = b)), (decide (b = book v)); cbn; congruence.
    + destruct (decide (b' = b)) as [->|Hne'].
      * rewrite decide_False by congruence. reflexivity.
      * exact IH.
Qed.

Lemma organize_snoc (vs : list Verse) (v : Verse) :
  organize (vs ++ [v]) = pushVerse v (organize vs).
Proof. unfold organize. now rewrite fold_left_app. Qed.

Lemma firstOccurrences_snoc (l : list value) (b : value) :
  firstOccurrences (l ++ [b]) =
    if decide (b ∈ firstOccurrences l) then firstOccurrences l
    else firstOccurrences l ++ [b].
Proof. unfold firstOccurrences. now rewrite fold_left_app. Qed.

Lemma firstOccurrences_elem (l : list value) (b : value) :
  b ∈ firstOccurrences l <-> b ∈ l.
Proof.
  induction l as [|x l IH] using rev_ind; [reflexivity|].
  rewrite firstOccurrences_snoc, elem_of_app, list_elem_of_singleton.
  destruct (decide (x ∈ firstOccurrences l)) as [Hx|Hx].
  - rewrite IH. split; [tauto|]. intros [? | ->]; [assumption | now apply IH].
  - rewrite elem_of_app, list_elem_of_singleton, IH. reflexivity.
Qed.

Lemma firstOccurrences_NoDup (l : list value) : NoDup (firstOccurrences l).
Proof.
  induction l as [|x l IH] using rev_ind; [constructor|].
  rewrite firstOccurrences_snoc. destruct (decide _) as [Hx|Hx]; [assumption|].
  apply NoDup_app. split; [assumption|]. split.
  - intros y Hy ->%list_elem_of_singleton. contradiction.
  - apply NoDup_singleton.
Qed.

(** The books of [byBook] are the books of the rows, as first met. *)
Lemma organize_keys (vs : list Verse) :
  (organize vs).*1 = firstOccurrences (book <$> vs).
Proof.
  induction vs as [|v vs IH] using rev_ind; [reflexivity|].
  rewrite organize_snoc, pushVerse_keys, fmap_app. cbn [fmap list_fmap].
  now rewrite firstOccurrences_snoc, IH.
Qed.

Lemma ofChapter_snoc (b : value) (c : num) (vs : list Verse) (v : Verse) :
  ofChapter b c (vs ++ [v]) =
    ofChapter b c vs ++ (if decide (book v = b /\ chapter v = c) then [v] else []).
Proof. unfold ofChapter. rewrite filter_app. f_equal. Qed.

Lemma organize_group (vs : list Verse) (b : value) (c : num) :
  groupOf b c (organize vs) = ofChapter b c vs.
Proof.
  induction vs as [|v vs IH] using rev_ind; [reflexivity|].
  rewrite organize_snoc, ofChapter_snoc, <- IH. unfold groupOf.
  rewrite alookup_pushVerse. destruct (decide (b = book v)) as [->|Hb].
  - cbn [default from_option id]. rewrite alookup_pushChapter.
    destruct (decide (c = chapter v)) as [->|Hc].
    + rewrite decide_True by easy. reflexivity.
    + rewrite decide_False by (intros [_ ?]; congruence). now rewrite app_nil_r.
  - rewrite decide_False by (intros [? _]; congruence). now rewrite app_nil_r.
Qed.

Lemma pushChapter_keys_NoDup (v : Verse) (chs : list (num * list Verse)) :
  NoDup chs.*1 -> NoDup (pushChapter v chs).*1.
Proof.
  intros H. rewrite pushChapter_keys. destruct (decide _) as [Hin|Hin]; [assumption|].
  apply NoDup_app. split; [assumption|]. split; [|apply NoDup_singleton].
  intros y Hy ->%list_elem_of_singleton. contradiction.
Qed.

Lemma alookup_elem {K V} `{EqDecision K} (k : K) (v : V) (l : list (K * V)) :
  NoDup l.*1 -> (k, v) ∈ l <-> alookup k l = Some v.
Proof.
  induction l as [|[k' v'] l IH]; cbn; intros Hnd.
  - split; [intros H; now apply elem_of_nil in H | discriminate].
  - apply NoDup_cons in Hnd as [Hk' Hnd]. rewrite elem_of_cons, (IH Hnd).
    destruct (decide (k' = k)) as [->|Hne].
    + split.
      * intros [[= <-]|H]; [reflexivity|]. exfalso. apply Hk'.
        apply (IH Hnd) in H. apply list_elem_of_fmap. now exists (k, v).
      * intros [= ->]. now left.
    + split; [intros [[= ? ?]|H]; [congruence | assumption] | now right].
Qed.

Lemma organize_chapters_NoDup (vs : list Verse) (b : value) (chs : list (num * list Verse)) :
  (b, chs) ∈ organize vs -> NoDup chs.*1.
Proof.
  revert b chs. induction vs as [|v vs IH] using rev_ind; intros b chs.
  - intros H. now apply elem_of_nil in H.
  - rewrite organize_snoc. intros H.
    assert (NoDup (pushVerse v (organize vs)).*1) as Hnd
      by (rewrite <- organize_snoc, organize_keys; apply firstOccurrences_NoDup).
    apply (alookup_elem _ _ _ Hnd) in H. rewrite alookup_pushVerse in H.
    destruct (decide (b = book v)) as [->|Hb].
    + injection H as <-. apply pushChapter_keys_NoDup.
      destruct (alookup (book v) (organize vs)) as [chs0|] eqn:Hl; [|constructor].
      apply (IH (book v)). apply alookup_elem; [|assumption].
      rewrite organize_keys. apply firstOccurrences_NoDup.
    + apply (IH b). apply alookup_elem; [|assumption].
      rewrite organize_keys. apply firstOccurrences_NoDup.
Qed.

(** Every list of [byBook] holds the rows of its book and chapter, in
    the order of the payload. *)
Lemma organize_entry (vs : list Verse) (b : value) (chs : list (num * list Verse))
    (c : num) (arr : list Verse) :
  (b, chs) ∈ organize vs -> (c, arr) ∈ chs -> arr = ofChapter b c vs.
Proof.
  intros Hb Hc. rewrite <- organize_group. unfold groupOf.
  pose proof (organize_chapters_NoDup vs b chs Hb) as Hnd.
  apply alookup_elem in Hb; [|rewrite organize_keys; apply firstOccurrences_NoDup].
  apply alookup_elem in Hc; [|exact Hnd].
  rewrite Hb. cbn. now rewrite Hc.
Qed.

(** What [_singleByRef] holds under a key was put there for a chapter
    of a book of [byBook]. *)
Lemma buildRefs_lookup (m : list (value * list (num * list Verse)))
    (k : string) (vs : list Verse) :
  buildRefs m !! k = Some vs ->
  exists b chs c arr,
    (b, chs) ∈ m /\ (c, arr) ∈ chs /\ k = refKey b c /\ vs = storeChapter b c arr.
Proof.
  unfold buildRefs.
  assert (forall b (chs0 chs : list (num * list Verse)) (acc : gmap string (list Verse)),
            (forall c arr, (c, arr) ∈ chs -> (c, arr) ∈ chs0) ->
            fold_left (fun m' ca => <[refKey b ca.1 := storeChapter b ca.1 ca.2]> m') chs acc
              !! k = Some vs ->
            acc !! k = Some vs \/
            exists c arr, (c, arr) ∈ chs0 /\ k = refKey b c /\ vs = storeChapter b c arr)
    as Hinner.
  { intros b chs0 chs. induction chs as [|[c arr] chs IH]; intros acc Hsub; cbn.
    - now left.
    - intros H. apply IH in H as [H|H]; [|now right|intros; apply Hsub; now right].
      rewrite lookup_insert in H. case_decide as Hk.
      + right. exists c, arr. injection H as <-. split; [apply Hsub; left|]. now split.
      + now left. }
  assert (forall (m0 m1 : list (value * list (num * list Verse)))
                 (acc : gmap string (list Verse)),
            (forall x, x ∈ m1 -> x ∈ m0) ->
            fold_left (fun m bc =>
              fold_left (fun m' ca => <[refKey bc.1 ca.1 := storeChapter bc.1 ca.1 ca.2]> m')
                        bc.2 m) m1 acc !! k = Some vs ->
            acc !! k = Some vs \/
            exists b chs c arr,
              (b, chs) ∈ m0 /\ (c, arr) ∈ chs /\ k = refKey b c /\ vs = storeChapter b c arr)
    as Houter.
  { intros m0 m1. induction m1 as [|[b chs] m1 IH]; intros acc Hsub; cbn.
    - now left.
    - intros H. apply IH in H as [H|H]; [|now right|intros; apply Hsub; now right].
      apply (Hinner b chs) in H as [H|(c & arr & Hc & Hk & Hvs)]; [now left| |auto].
      right. exists b, chs, c, arr. split; [apply Hsub; left|]. auto. }
  intros H. apply (Houter m) in H as [H|H]; [|assumption|auto].
  now rewrite lookup_empty in H.
Qed.

(** ** Ingestion: the order inside a chapter *)

Lemma insertVerse_perm (x : Verse) (l : list Verse) : insertVerse x l ≡ₚ x :: l.
Proof.
  induction l as [|y l IH]; cbn; [reflexivity|].
  destruct (verseAfter x y); [|reflexivity].
  rewrite IH. apply Permutation_swap.
Qed.

Lemma sortByVerse_perm (l : list Verse) : sortByVerse l ≡ₚ l.
Proof.
  induction l as [|x l IH]; cbn; [reflexivity|].
  now rewrite insertVerse_perm, IH.
Qed.

Lemma verseLe_trans (a b c : Verse) : verseLe a b -> verseLe b c -> verseLe a c.
Proof.
  intros (x & y & Hx & Hy & Hxy) (y' & z & Hy' & Hz & Hyz).
  exists x, z. repeat split; try assumption. rewrite Hy in Hy'. injection Hy' as <-. lia.
Qed.

Lemma insertVerse_sorted (x : Verse) (l : list Verse) :
  is_Some (verse x) -> Forall (fun v => is_Some (verse v)) l ->
  StronglySorted verseLe l -> StronglySorted verseLe (insertVerse x l).
Proof.
  intros [n Hn] Hl Hs. induction Hs as [|y l Hs IH Hy]; cbn.
  - repeat constructor.
  - apply Forall_cons in Hl as [[k Hk] Hl]. unfold verseAfter. rewrite Hn, Hk.
    destruct (Z.ltb_spec k n) as [Hlt|Hge].
    + constructor; [now apply IH|].
      rewrite (insertVerse_perm x l). constructor; [|assumption].
      exists k, n. repeat split; try assumption. lia.
    + assert (verseLe x y) as Hxy by (exists n, k; repeat split; try assumption).
      constructor; [now constructor|]. constructor; [assumption|].
      eapply Forall_impl; [exact Hy|]. intros z Hz. now apply (verseLe_trans x y z).
Qed.

Lemma sortByVerse_sorted (l : list Verse) :
  Forall (fun v => is_Some (verse v)) l -> StronglySorted verseLe (sortByVerse l).
Proof.
  induction l as [|x l IH]; cbn; [constructor|].
  intros [Hx Hl]%Forall_cons. apply insertVerse_sorted; [assumption| |now apply IH].
  now rewrite sortByVerse_perm.
Qed.

Lemma sorted_strict (l : list Verse) :
  StronglySorted verseLe l -> NoDup (verse <$> l) -> StronglySorted verseLt l.
Proof.
  induction 1 as [|x l Hs IH Hx]; cbn; [constructor|].
  intros [Hnx Hnd]%NoDup_cons. constructor; [now apply IH|].
  rewrite Forall_forall in Hx |- *. intros y Hy.
  destruct (Hx y Hy) as (a & b & Ha & Hb & Hab).
  exists a, b. repeat split; try assumption.
  destruct (decide (a = b)) as [->|Hne]; [|lia].
  exfalso. apply Hnx. rewrite Ha, <- Hb. now apply list_elem_of_fmap_2.
Qed.

Lemma readRow_numbered (r : gmap string value) (v : Verse) :
  readRow r = Some v -> is_Some (verse v) /\ is_Some (chapter v) /\ truthy (book v) = true.
Proof.
  unfold readRow. destruct (rowChapter r), (rowVerse r); try discriminate.
  destruct (truthy (rowBook r)) eqn:Hb; [|discriminate].
  destruct (stripMarkers _ _). intros [= <-]. cbn. eauto.
Qed.

Lemma survivors_numbered (j : json) :
  Forall (fun v => is_Some (verse v)) (survivors j).
Proof.
  apply Forall_forall. intros v Hv. unfold survivors in Hv.
  apply list_elem_of_omap in Hv as (r & _ & Hr). now apply readRow_numbered in Hr.
Qed.

Lemma storeChapter_grouped (b : value) (c : num) (arr : list Verse) :
  Forall (fun v => book v = b /\ chapter v = c) arr ->
  storeChapter b c arr = sortByVerse arr.
Proof.
  intros H. unfold storeChapter.
  assert (Forall (fun v => book v = b /\ chapter v = c) (sortByVerse arr)) as Hs
    by now rewrite sortByVerse_perm.
  induction Hs as [|v l [Hb Hc] _ IH]; [reflexivity|].
  cbn. rewrite IH. f_equal. destruct v; cbn in *. now subst.
Qed.

Lemma ofChapter_Forall (b : value) (c : num) (l : list Verse) :
  Forall (fun v => book v = b /\ chapter v = c) (ofChapter b c l).
Proof.
  apply Forall_forall. intros v Hv. unfold ofChapter in Hv.
  now apply list_elem_of_filter in Hv as [? _].
Qed.

Lemma orderBooks_nil (keys : list value) : orderBooks keys = [] -> keys = [].
Proof.
  unfold orderBooks. generalize (VStr <$> filter (fun n => VStr n ∈ keys) CANON_66).
  induction keys as [|k keys IH]; [reflexivity|]. intros acc. cbn [fold_left].
  intros H. exfalso.
  assert (forall ks (a : list value), k ∈ a ->
            fold_left (fun ord b => if decide (b ∈ ord) then ord else ord ++ [b]) ks a <> [])
    as Hne.
  { clear. induction ks as [|x ks IH]; intros a Ha; cbn.
    - intros ->. now apply elem_of_nil in Ha.
    - apply IH. destruct (decide _); [assumption|]. apply elem_of_app. now left. }
  revert H. apply Hne. destruct (decide _); [assumption|].
  apply elem_of_app. right. now left.
Qed.

(** What a successful ingestion leaves in the store. *)
Lemma ingestSingle_result (j : json) (d d' : Data) :
  ingestSingle j d = Ok d' ->
  books d' = orderBooks (organize (survivors j)).*1 /\
  singleByRef d' = Some (buildRefs (organize (survivors j))) /\
  cache d' = cache d /\ fetched d' = fetched d /\
  bookChapters d' =
    fold_left (fun m bc => <[bc.1 := maxChapter bc.2]> m)
              (organize (survivors j)) (bookChapters d).
Proof.
  unfold ingestSingle. fold (survivors j). intros H.
  destruct (existsb isNull (jsonArray j)); [discriminate|].
  destruct (survivors j) as [|v vs] eqn:Hs; [destruct (existsb _ _); discriminate|].
  injection H as <-.
  cbn [books singleByRef cache fetched bookChapters]. repeat split.
  destruct (orderBooks _) eqn:Ho; [|reflexivity].
  apply orderBooks_nil in Ho. now rewrite Ho.
Qed.

(** What [_singleByRef] holds under a key: the surviving rows of one
    book and chapter, sorted by verse number. *)
Lemma stored_chapter_rows (j : json) (d d' : Data)
    (refs : gmap string (list Verse)) (k : string) (vs : list Verse) :
  ingestSingle j d = Ok d' ->
  singleByRef d' = Some refs ->
  refs !! k = Some vs ->
  exists b c,
    k = refKey b c /\
    vs = sortByVerse (ofChapter b c (survivors j)) /\
    vs ≡ₚ ofChapter b c (survivors j) /\
    StronglySorted verseLe vs /\
    (NoDup (verse <$> vs) -> StronglySorted verseLt vs).
Proof.
  intros Hi Hrefs Hk. apply ingestSingle_result in Hi as (_ & Hr & _).
  rewrite Hr in Hrefs. injection Hrefs as <-.
  apply buildRefs_lookup in Hk as (b & chs & c & arr & Hb & Hc & -> & ->).
  rewrite (organize_entry _ _ _ _ _ Hb Hc).
  rewrite storeChapter_grouped by apply ofChapter_Forall.
  exists b, c. split; [reflexivity|]. split; [reflexivity|].
  assert (StronglySorted verseLe (sortByVerse (ofChapter b c (survivors j)))) as Hs.
  { apply sortByVerse_sorted. unfold ofChapter.
    apply Forall_forall. intros v Hv. apply list_elem_of_filter in Hv as [_ Hv].
    pose proof (survivors_numbered j) as Hn. rewrite Forall_forall in Hn. auto. }
  split; [apply sortByVerse_perm|]. split; [exact Hs|].
  now apply sorted_strict.
Qed.


(** C2, as the code has it. After single-source ingestion every stored
    chapter holds exactly the surviving rows of one book and chapter,
    stably sorted by verse number: the numbers never decrease, and they
    strictly increase when the rows of the chapter carry distinct verse
    numbers. Nothing removes a repeated verse or closes a gap. *)
Theorem stored_chapter_is_sorted_rows (j : json) (d d' : Data)
    (refs : gmap string (list Verse)) (k : string) (vs : list Verse) :
  ingestSingle j d = Ok d' ->
  singleByRef d' = Some refs ->
  refs !! k = Some vs ->
  exists b c,
    k = refKey b c /\
    vs = sortByVerse (ofChapter b c (survivors j)) /\
    vs ≡ₚ ofChapter b c (survivors j) /\
    StronglySorted verseLe vs /\
    (NoDup (verse <$> vs) -> StronglySorted verseLt vs).
Proof. exact (stored_chapter_rows j d d' refs k vs). Qed.
Lemma stored_chapter_is_sorted_rows_witness :
  ingestSingle dupPayload newData = Ok dupData /\
  singleByRef dupData = Some dupRefs /\
  dupRefs !! "Genesis:1" = Some dupStored /\
  exists b c,
    "Genesis:1" = refKey b c /\
    dupStored = sortByVerse (ofChapter b c (survivors dupPayload)) /\
    dupStored ≡ₚ ofChapter b c (survivors dupPayload) /\
    StronglySorted verseLe dupStored /\
    (NoDup (verse <$> dupStored) -> StronglySorted verseLt dupStored).
Proof.
  assert (ingestSingle dupPayload newData = Ok dupData) as Hi
    by (vm_compute; reflexivity).
  assert (singleByRef dupData = Some dupRefs) as Hr by (vm_compute; reflexivity).
  assert (dupRefs !! "Genesis:1" = Some dupStored) as Hk by (vm_compute; reflexivity).
  split; [exact Hi|]. split; [exact Hr|]. split; [exact Hk|].
  exact (stored_chapter_is_sorted_rows dupPayload newData dupData dupRefs
           "Genesis:1" dupStored Hi Hr Hk).
Defined.

(** C2, as the claim states it, fails: a verse given twice is stored
    twice, and a missing verse leaves its gap. *)
Lemma ingest_keeps_duplicates_and_gaps :
  ingestSingle dupPayload newData = Ok dupData /\
  singleByRef dupData = Some dupRefs /\
  dupRefs !! "Genesis:1" = Some dupStored /\
  verse <$> dupStored = [Some 1; Some 1; Some 3] /\
  ~ NoDup (triple <$> dupStored) /\
  ~ contiguousFromOne dupStored.
Proof.
  split; [vm_compute; reflexivity|]. split; [vm_compute; reflexivity|].
  split; [vm_compute; reflexivity|]. split; [reflexivity|]. split.
  - intros H. apply NoDup_cons in H as [H _]. apply H. left.
  - unfold contiguousFromOne. discriminate.
Qed.

(** ** The order of the books and of the hits *)

Lemma filter_ext_elem {A} (P Q : A -> Prop) `{!forall x, Decision (P x)}
    `{!forall x, Decision (Q x)} (l : list A) :
  (forall x, x ∈ l -> P x <-> Q x) -> filter P l = filter Q l.
Proof.
  induction l as [|x l IH]; intros Hl; [reflexivity|].
  rewrite !filter_cons. rewrite IH by (intros y Hy; apply Hl; now right).
  pose proof (Hl x (list_elem_of_here _ _)) as Hx.
  destruct (decide (P x)), (decide (Q x)); try reflexivity; tauto.
Qed.

Lemma append_new_NoDup (keys acc : list value) :
  NoDup acc ->
  NoDup (fold_left (fun ord b => if decide (b ∈ ord) then ord else ord ++ [b]) keys acc).
Proof.
  revert acc. induction keys as [|k keys IH]; intros acc Hacc; cbn; [assumption|].
  apply IH. destruct (decide _) as [Hin|Hin]; [assumption|].
  apply NoDup_app. split; [assumption|]. split; [|apply NoDup_singleton].
  intros y Hy ->%list_elem_of_singleton. contradiction.
Qed.

Lemma append_new_filter (keys acc : list value) :
  NoDup keys ->
  fold_left (fun ord b => if decide (b ∈ ord) then ord else ord ++ [b]) keys acc =
    acc ++ filter (fun b => b ∉ acc) keys.
Proof.
  revert acc. induction keys as [|k keys IH]; intros acc Hnd; cbn [fold_left].
  - now rewrite app_nil_r.
  - apply NoDup_cons in Hnd as [Hk Hnd]. rewrite IH by assumption.
    rewrite filter_cons. destruct (decide (k ∈ acc)) as [Hin|Hin].
    + rewrite decide_False by tauto. reflexivity.
    + rewrite decide_True by assumption. rewrite <- app_assoc. cbn. do 2 f_equal.
      apply filter_ext_elem. intros x Hx.
      rewrite elem_of_app, list_elem_of_singleton. split; [tauto|].
      intros Hacc [? | ->]; [tauto | contradiction].
Qed.

Lemma CANON_66_NoDup : NoDup CANON_66.
Proof. refine (bool_decide_unpack _ _). vm_compute. exact I. Qed.

Lemma canonPart_NoDup (keys : list value) :
  NoDup (VStr <$> filter (fun n => VStr n ∈ keys) CANON_66).
Proof.
  apply NoDup_fmap_2; [intros ? ? [= ?]; assumption|].
  apply NoDup_filter, CANON_66_NoDup.
Qed.

Lemma orderBooks_NoDup (keys : list value) : NoDup (orderBooks keys).
Proof. apply append_new_NoDup, canonPart_NoDup. Qed.

(** The canon names that were met come first, in canon order; the other
    books follow in the order in which they were met. *)
Lemma orderBooks_canonical (keys : list value) :
  NoDup keys -> orderBooks keys = canonicalOrder keys.
Proof.
  intros Hnd. unfold orderBooks, canonicalOrder.
  rewrite append_new_filter by assumption. f_equal.
  apply filter_ext_elem. intros b Hb.
  rewrite !list_elem_of_fmap. split.
  - intros H (n & -> & Hn). apply H. exists n. split; [reflexivity|].
    apply list_elem_of_filter. now split.
  - intros H (n & -> & Hn). apply H. exists n. split; [reflexivity|].
    now apply list_elem_of_filter in Hn as [_ ?].
Qed.

Lemma rank_lookup (bs : list value) (i : nat) (b : value) :
  NoDup bs -> bs !! i = Some b -> rank bs b = i.
Proof.
  intros Hnd Hi. unfold rank.
  destruct (list_find (fun x => x = b) bs) as [[k x]|] eqn:Hf.
  - apply list_find_Some in Hf as (Hk & -> & _). cbn.
    now apply (NoDup_lookup bs k i b).
  - apply list_find_None in Hf. rewrite Forall_forall in Hf.
    exfalso. apply (Hf b); [|reflexivity]. now apply list_elem_of_lookup_2 in Hi.
Qed.

Lemma StronglySorted_filter {A} (R : relation A) (P : A -> Prop)
    `{!forall x, Decision (P x)} (l : list A) :
  StronglySorted R l -> StronglySorted R (filter P l).
Proof.
  induction 1 as [|x l Hs IH Hx]; [constructor|].
  rewrite filter_cons. destruct (decide (P x)); [|assumption].
  constructor; [assumption|].
  apply Forall_forall. intros y [_ Hy]%list_elem_of_filter.
  rewrite Forall_forall in Hx. auto.
Qed.

Lemma StronglySorted_take {A} (R : relation A) (n : nat) (l : list A) :
  StronglySorted R l -> StronglySorted R (take n l).
Proof.
  intros H. rewrite <- (take_drop n l) in H. now apply StronglySorted_app_1_l in H.
Qed.

Lemma StronglySorted_fmap_elem {A B} (R : relation A) (R' : relation B)
    (f : A -> B) (l : list A) :
  (forall x y, x ∈ l -> y ∈ l -> R x y -> R' (f x) (f y)) ->
  StronglySorted R l -> StronglySorted R' (f <$> l).
Proof.
  intros Hf Hs. induction Hs as [|x l Hs IH Hx]; cbn; [constructor|].
  constructor.
  - apply IH. intros a b Ha Hb. apply Hf; now right.
  - apply Forall_fmap, Forall_forall. intros y Hy. cbn.
    rewrite Forall_forall in Hx. apply Hf; [left | now right | auto].
Qed.

(** A concatenation of sorted blocks is sorted when the blocks follow
    an order that carries over to their elements. *)
Lemma StronglySorted_bind {A B} (R' : relation A) (R : relation B)
    (f : A -> list B) (l : list A) :
  StronglySorted R' l ->
  (forall x, x ∈ l -> StronglySorted R (f x)) ->
  (forall x y a b, x ∈ l -> y ∈ l -> R' x y -> a ∈ f x -> b ∈ f y -> R a b) ->
  StronglySorted R (l ≫= f).
Proof.
  intros Hs. induction Hs as [|x l Hs IH Hx]; intros Hin Hcross; [constructor|].
  rewrite bind_cons. apply StronglySorted_app_2.
  - intros a b Ha Hb. apply list_elem_of_bind in Hb as (y & Hb & Hy).
    rewrite Forall_forall in Hx.
    apply (Hcross x y); [left | now right | auto | assumption | assumption].
  - apply Hin. left.
  - apply IH.
    + intros y Hy. apply Hin. now right.
    + intros y z a b Hy Hz. apply Hcross; now right.
Qed.

Lemma imap_pair_sorted {A} (l : list A) :
  StronglySorted (fun x y : nat * A => (x.1 < y.1)%nat) (imap pair l).
Proof.
  assert (forall n, StronglySorted (fun x y : nat * A => (x.1 < y.1)%nat)
                      (imap (fun i => pair (n + i)%nat) l)) as H.
  { induction l as [|a l IH]; intros n; cbn; [constructor|].
    constructor.
    - rewrite (imap_ext _ (fun i => pair (S n + i)%nat)); [apply IH|].
      intros i x _. cbn. f_equal. lia.
    - apply Forall_forall. intros [k x] Hx.
      apply elem_of_lookup_imap in Hx as (i & y & [= -> ->] & _). cbn. lia. }
  exact (H 0%nat).
Qed.

Lemma seqZ_sorted (m n : Z) : StronglySorted Z.lt (seqZ m n).
Proof.
  apply Sorted_StronglySorted; [apply _|].
  unfold seqZ. apply Sorted_fmap with (R1 := lt); [intros; lia|].
  clear. generalize 0%nat. induction (Z.to_nat n) as [|k IH]; intros s; cbn.
  - constructor.
  - constructor; [apply IH|]. destruct k; cbn; constructor. lia.
Qed.

(** When every chapter of [refs] is sorted, so is the traversal. *)
Lemma visits_sorted (refs : gmap string (list Verse)) (m : Meta) :
  (forall k vs, refs !! k = Some vs -> StronglySorted verseLe vs) ->
  StronglySorted visitLe (visits refs m).
Proof.
  intros Hrefs. unfold visits.
  assert (forall bi b c x, x ∈ chapterVisits refs bi b c ->
            atIndex x = bi /\ atBook x = b /\ atChapter x = c) as Hcv.
  { intros bi b c x Hx. unfold chapterVisits in Hx.
    apply list_elem_of_fmap in Hx as (v & -> & _). now cbn. }
  assert (forall ib x, x ∈ bookVisits refs m ib -> atIndex x = ib.1) as Hbv.
  { intros ib x Hx. unfold bookVisits in Hx.
    apply list_elem_of_bind in Hx as (c & Hx & _). now apply Hcv in Hx as [? _]. }
  eapply StronglySorted_bind; [apply imap_pair_sorted| |].
  - intros [bi b] _. unfold bookVisits. cbn [fst snd].
    eapply StronglySorted_bind; [apply seqZ_sorted| |].
    + intros c _. unfold chapterVisits, chapterOf.
      apply StronglySorted_fmap_elem with (R := verseLe).
      * intros v1 v2 _ _ Hv. right. cbn. split; [reflexivity|].
        right. now split.
      * destruct (refs !! refKey b (Some c)) as [vs|] eqn:Hk; cbn; [|constructor].
        now apply (Hrefs _ _ Hk).
    + intros c1 c2 x y _ _ Hc Hx Hy.
      apply Hcv in Hx as (Hx1 & _ & Hx2), Hy as (Hy1 & _ & Hy2).
      right. split; [congruence|]. left. lia.
  - intros ib1 ib2 x y _ _ Hlt Hx Hy. apply Hbv in Hx, Hy. cbn beta in Hlt. left. lia.
Qed.

Lemma visits_wellformed (refs : gmap string (list Verse)) (m : Meta) (x : Visit) :
  x ∈ visits refs m -> metaBooks m !! atIndex x = Some (atBook x).
Proof.
  unfold visits. intros Hx. apply list_elem_of_bind in Hx as ([bi b] & Hx & Hib).
  apply elem_of_lookup_imap in Hib as (i & y & [= -> ->] & Hi).
  unfold bookVisits in Hx. cbn [fst snd] in Hx.
  apply list_elem_of_bind in Hx as (c & Hx & _).
  unfold chapterVisits in Hx. apply list_elem_of_fmap in Hx as (v & -> & _).
  exact Hi.
Qed.

Lemma hits_sorted (refs : gmap string (list Verse)) (m : Meta)
    (tokens : list string) (n : nat) :
  NoDup (metaBooks m) ->
  (forall k vs, refs !! k = Some vs -> StronglySorted verseLe vs) ->
  StronglySorted (hitLe (metaBooks m)) (take n (hitsAmong tokens (visits refs m))).
Proof.
  intros Hnd Hrefs. apply StronglySorted_take. unfold hitsAmong.
  apply StronglySorted_fmap_elem with (R := visitLe).
  - intros x y Hx Hy Hle.
    apply list_elem_of_filter in Hx as [_ Hx], Hy as [_ Hy].
    apply visits_wellformed in Hx, Hy.
    unfold hitLe. cbn.
    rewrite (rank_lookup _ _ _ Hnd Hx), (rank_lookup _ _ _ Hnd Hy).
    exact Hle.
  - apply StronglySorted_filter. now apply visits_sorted.
Qed.

(** After single-source ingestion the books are in canonical order,
    the canon names that were met, in canon order, then the other books
    as they were first met; a search over that store returns, and its
    hits are ordered by that order of books, then by chapter, then by
    verse number. *)
Lemma bulk_hits_in_canonical_order (w : World) (j : json) (d d' : Data)
    (refs : gmap string (list Verse)) (q : string) (limit : Z) (s : Sys) :
  ingestSingle j d = Ok d' ->
  singleByRef d' = Some refs ->
  coherent refs s ->
  books d' = canonicalOrder (firstOccurrences (book <$> survivors j)) /\
  exists hits s',
    search w (indexMeta d') q limit s = (Some hits, s') /\
    StronglySorted (hitLe (books d')) hits.
Proof.
  intros Hi Hrefs Hs.
  pose proof (ingestSingle_result j d d' Hi) as (Hbooks & _).
  split.
  - rewrite Hbooks, organize_keys. apply orderBooks_canonical, firstOccurrences_NoDup.
  - destruct (tokenize q) as [|t ts] eqn:Ht.
    + exists [], s. unfold search. rewrite Ht. split; [reflexivity | constructor].
    + destruct (search_single w refs (indexMeta d') q limit s Hs) as (s' & Hsearch & _);
        [congruence|].
      do 2 eexists. split; [exact Hsearch|].
      apply (hits_sorted refs (indexMeta d')).
      * cbn. rewrite Hbooks. apply orderBooks_NoDup.
      * intros k vs Hk.
        destruct (stored_chapter_rows j d d' refs k vs Hi Hrefs Hk)
          as (_ & _ & _ & _ & _ & Hsorted & _).
        exact Hsorted.
Qed.

(** ** [getChapter] *)

Ltac destruct_normalize :=
  match goal with
  | |- context [normalizePerBook ?x ?y ?z] =>
      let count := fresh "count" in
      let chapters := fresh "chapters" in
      destruct (normalizePerBook x y z) as [count chapters]
  end.

Lemma fetchMaybe_cases (w : World) (b : value) :
  match fetchMaybe w (toStr b) with
  | Throw e => badBody w b = true /\ noPayload w b = false /\ e = SyntaxError
  | Ok None => badBody w b = false /\ noPayload w b = true
  | Ok (Some jb) => badBody w b = false /\ noPayload w b = negb (jbTruthy jb)
  end.
Proof.
  unfold fetchMaybe, badBody, noPayload.
  destruct (bookFile w (toStr b)) as [| |raw [jb|]]; auto.
Qed.

(** When [getChapter] throws, and what. *)
Lemma getChapter_throws (w : World) (b : value) (c : Z) (d : Data) (e : error) :
  (getChapter w b c d).1 = Throw e <->
  singleByRef d = None /\ cache d !! refKey b (Some c) = None /\
  (noPayload w b = true /\ e = MissingData b \/ badBody w b = true /\ e = SyntaxError).
Proof.
  unfold getChapter.
  destruct (cache d !! refKey b (Some c)) as [vs|];
    [split; [discriminate | intros (_ & ? & _); discriminate]|].
  destruct (singleByRef d) as [refs|];
    [split; [discriminate | intros (? & _); discriminate]|].
  pose proof (fetchMaybe_cases w b) as H.
  destruct (fetchMaybe w (toStr b)) as [[jb|]|e'].
  - destruct H as [Hb Hn]. destruct (jbTruthy jb); cbn [negb] in Hn.
    + destruct_normalize. split; [discriminate|].
      intros (_ & _ & [[? _]|[? _]]); congruence.
    + split; [intros [= <-]; auto|].
      intros (_ & _ & [[_ ->]|[? _]]); [reflexivity | congruence].
  - destruct H as [Hb Hn]. split; [intros [= <-]; auto|].
    intros (_ & _ & [[_ ->]|[? _]]); [reflexivity | congruence].
  - destruct H as (Hb & Hn & ->). split; [intros [= <-]; auto|].
    intros (_ & _ & [[? _]|[_ ->]]); [congruence | reflexivity].
Qed.

(** In single-source mode nothing is thrown and nothing is fetched: a
    key that is not stored gives the empty list. *)
Lemma getChapter_single (w : World) (b : value) (c : Z) (d : Data)
    (refs : gmap string (list Verse)) :
  singleByRef d = Some refs ->
  cache d !! refKey b (Some c) = None ->
  (getChapter w b c d).1 = Ok (default [] (refs !! refKey b (Some c))) /\
  fetched (getChapter w b c d).2 = fetched d.
Proof.
  intros Hr Hc. unfold getChapter. rewrite Hc, Hr. split; reflexivity.
Qed.

(** A second call with the same key returns what the first returned and
    leaves the store as it is: no fetch, no normalisation. *)
Lemma getChapter_memo (w : World) (b : value) (c : Z) (d d1 : Data) (vs : list Verse) :
  getChapter w b c d = (Ok vs, d1) ->
  getChapter w b c d1 = (Ok vs, d1).
Proof.
  unfold getChapter.
  destruct (cache d !! refKey b (Some c)) as [vs0|] eqn:Hc.
  - intros [= <- <-]. now rewrite Hc.
  - destruct (singleByRef d) as [refs|].
    + intros [= <- <-]. cbn. now rewrite lookup_insert_eq.
    + destruct (fetchMaybe w (toStr b)) as [[jb|]|]; try discriminate.
      destruct (jbTruthy jb); [|discriminate].
      destruct_normalize.
      intros [= <- <-]. cbn. now rewrite lookup_insert_eq.
Qed.

(** In split-source mode every miss of the chapter cache is a fetch of
    the file of the book. *)
Lemma getChapter_split_fetches (w : World) (b : value) (c : Z) (d : Data) :
  singleByRef d = None ->
  cache d !! refKey b (Some c) = None ->
  fetched (getChapter w b c d).2 = fetched d ++ [BookFile (toStr b)].
Proof.
  intros Hr Hc. unfold getChapter. rewrite Hc, Hr.
  destruct (fetchMaybe w (toStr b)) as [[jb|]|]; try reflexivity.
  destruct (jbTruthy jb); [|reflexivity].
  destruct_normalize. reflexivity.
Qed.

(** C3, at two chapters of one book: the second chapter is not taken
    from what the first call fetched; the file of the book is fetched,
    and normalised, a second time. *)
Theorem other_chapter_fetches_again :
  let first := getChapter splitWorld (VStr "Genesis") 1 splitData in
  let second := getChapter splitWorld (VStr "Genesis") 2 first.2 in
  singleByRef splitData = None /\
  isThrow first.1 = false /\
  isThrow second.1 = false /\
  fetched splitData = [SingleFile; CanonFile] /\
  fetched first.2 = [SingleFile; CanonFile; BookFile "Genesis"] /\
  fetched second.2 = [SingleFile; CanonFile; BookFile "Genesis"; BookFile "Genesis"].
Proof. vm_compute. repeat split; reflexivity. Qed.

(** C8, at a book file whose body is not JSON: [getChapter] throws the
    syntax error of [res.json()], not the missing-data error. *)
Theorem unparsable_book_file_throws_syntax_error :
  singleByRef splitData = None /\
  noPayload splitWorld (VStr "Exodus") = false /\
  (getChapter splitWorld (VStr "Exodus") 1 splitData).1 = Throw SyntaxError.
Proof. vm_compute. repeat split; reflexivity. Qed.

(** ** [init] *)

Lemma logFetch_fetched (u : url) (d : Data) : fetched (logFetch u d) = fetched d ++ [u].
Proof. reflexivity. Qed.

Lemma loadInline_cases (w : World) (d : Data) :
  (exists d1, loadInline w d = Ok (d1, true) /\ inlineLoads w d d1) \/
  (catch (loadInline w d) (d, false) = Ok (d, false) /\ forall d1, ~ inlineLoads w d d1).
Proof.
  unfold loadInline, inlineLoads.
  destruct (inlineJson w) as [|[j|]] eqn:Hi.
  - right. split; [reflexivity|]. intros d1 (j & [=] & _).
  - destruct (ingestSingle j d) as [d1|e] eqn:Hj; cbn.
    + left. exists d1. split; [reflexivity|]. now exists j.
    + right. split; [reflexivity|]. intros d1 (j' & [= <-] & Hj'). congruence.
  - right. split; [reflexivity|]. intros d1 (j & [=] & _).
Qed.

Lemma loadSingle_cases (w : World) (d : Data) :
  (exists d2, loadSingle w (logFetch SingleFile d) = Ok (d2, true) /\ singleLoads w d d2) \/
  (catch (loadSingle w (logFetch SingleFile d)) (logFetch SingleFile d, false)
     = Ok (logFetch SingleFile d, false) /\
   forall d2, ~ singleLoads w d d2).
Proof.
  unfold loadSingle, singleLoads.
  destruct (singleFile w) as [| |raw [j|]] eqn:Hs.
  - right. split; [reflexivity|]. intros d2 (? & ? & [=] & _).
  - right. split; [reflexivity|]. intros d2 (? & ? & [=] & _).
  - destruct (looksLikeHtml raw) eqn:Hh.
    + right. split; [reflexivity|]. intros d2 (? & ? & [= <- <-] & ? & _). congruence.
    + destruct (ingestSingle j (logFetch SingleFile d)) as [d2|e] eqn:Hj; cbn.
      * left. exists d2. split; [reflexivity|]. now exists raw, j.
      * right. split; [reflexivity|]. intros d2 (? & ? & [= <- <-] & _ & Hj'). congruence.
  - right. split; [|intros d2 (? & ? & [=] & _)].
    destruct (looksLikeHtml raw); reflexivity.
Qed.

Lemma loadCanon_catch (w : World) : catch (loadCanon w) None = Ok (canonOf w).
Proof.
  unfold loadCanon, canonOf. destruct (canonFile w) as [| |raw [c|]]; reflexivity.
Qed.

Lemma useCanon_built_in (canon : option canonJson) (d : Data) :
  (forall arr, canon <> Some (CanonArr arr)) ->
  exists d',
    useCanon canon d = Ok d' /\
    books d' = VStr <$> CANON_66 /\
    (forall name n, (name, n) ∈ BUILT_IN_CANON -> chapterCount d' (VStr name) = n) /\
    cache d' = cache d /\ singleByRef d' = singleByRef d /\ fetched d' = fetched d.
Proof.
  intros Hno.
  assert (useCanon canon d = useCanon None d) as ->.
  { destruct canon as [[arr|]|]; [now contradiction (Hno arr) | reflexivity..]. }
  eexists. split; [reflexivity|]. cbn [books cache singleByRef fetched].
  split; [reflexivity|]. split; [|now repeat split].
  assert (Forall (fun nc : string * Z =>
            orElse (default None
              ((list_to_map ((fun nc => (VStr nc.1, Some nc.2)) <$> BUILT_IN_CANON)
                 : gmap value num) !! VStr nc.1)) 1 = nc.2) BUILT_IN_CANON) as HF.
  { repeat (constructor; [vm_compute; reflexivity|]). constructor. }
  intros name n H. rewrite Forall_forall in HF. exact (HF (name, n) H).
Qed.

Lemma canon_counts (entries : list (gmap string value)) (m : gmap value num)
    (e : gmap string value) :
  NoDup ((fun e => get e "name") <$> entries) -> e ∈ entries ->
  fold_left (fun m e => <[get e "name" := toNumber (get e "chapters")]> m) entries m
    !! get e "name" = Some (toNumber (get e "chapters")).
Proof.
  revert m. induction entries as [|x entries IH]; intros m Hnd He.
  - now apply elem_of_nil in He.
  - rewrite fmap_cons in Hnd. apply NoDup_cons in Hnd as [Hx Hnd].
    cbn [fold_left]. apply elem_of_cons in He as [->|He]; [|now apply IH].
    clear IH. assert (forall m0 : gmap value num,
      m0 !! get x "name" = Some (toNumber (get x "chapters")) ->
      fold_left (fun m e => <[get e "name" := toNumber (get e "chapters")]> m) entries m0
        !! get x "name" = Some (toNumber (get x "chapters"))) as Hkeep.
    { clear Hnd. induction entries as [|y entries IH]; intros m0 Hm0; [exact Hm0|].
      cbn [fold_left]. apply IH.
      - intros Hin. apply Hx. rewrite fmap_cons. now right.
      - rewrite lookup_insert_ne; [exact Hm0|].
        intros Heq. apply Hx. rewrite fmap_cons, <- Heq. left. }
    apply Hkeep. apply lookup_insert_eq.
Qed.

Lemma useCanon_throws (canon : option canonJson) (d : Data) :
  match canon with
  | Some (CanonArr arr) =>
      if existsb isNull arr then useCanon canon d = Throw TypeError
      else exists d',
        useCanon canon d = Ok d' /\
        books d' = (fun e => get e "name") <$> omap id arr /\
        bookChapters d' =
          fold_left (fun m e => <[get e "name" := toNumber (get e "chapters")]> m)
                    (omap id arr) (bookChapters d) /\
        cache d' = cache d /\ singleByRef d' = singleByRef d /\ fetched d' = fetched d
  | _ => isThrow (useCanon canon d) = false
  end.
Proof.
  destruct canon as [[arr|]|]; try reflexivity.
  cbn [useCanon]. destruct (existsb isNull arr); [reflexivity|].
  eexists. split; [reflexivity|]. now repeat split.
Qed.

(** What [init] comes to: the first source that loads, and the canon
    step when none does. *)
Lemma init_cases (w : World) (d : Data) :
  (exists d1, inlineLoads w d d1 /\ init w d = Ok d1 /\ fetched d1 = fetched d) \/
  ((forall d1, ~ inlineLoads w d d1) /\
   exists d2, singleLoads w d d2 /\ init w d = Ok d2 /\
              fetched d2 = fetched d ++ [SingleFile]) \/
  ((forall d1, ~ inlineLoads w d d1) /\ (forall d2, ~ singleLoads w d d2) /\
   init w d = useCanon (canonOf w) (logFetch CanonFile (logFetch SingleFile d))).
Proof.
  unfold init.
  destruct (loadInline_cases w d) as [(d1 & H1 & Hin)|[H1 Hnin]].
  - left. exists d1. rewrite H1. cbn. split; [exact Hin|]. split; [reflexivity|].
    destruct Hin as (j & _ & Hi).
    now apply ingestSingle_result in Hi as (_ & _ & _ & ? & _).
  - right. rewrite H1. cbn [bind].
    destruct (loadSingle_cases w d) as [(d2 & H2 & Hsi)|[H2 Hnsi]].
    + left. split; [exact Hnin|]. exists d2. rewrite H2. cbn.
      split; [exact Hsi|]. split; [reflexivity|].
      destruct Hsi as (raw & j & _ & _ & Hi).
      now apply ingestSingle_result in Hi as (_ & _ & _ & ? & _).
    + right. split; [exact Hnin|]. split; [exact Hnsi|].
      rewrite H2. cbn [bind]. rewrite loadCanon_catch. reflexivity.
Qed.

Lemma inlineLoads_fun (w : World) (d d1 d1' : Data) :
  inlineLoads w d d1 -> inlineLoads w d d1' -> d1 = d1'.
Proof. intros (j & Hj & Hi) (j' & Hj' & Hi'). congruence. Qed.

Lemma singleLoads_fun (w : World) (d d2 d2' : Data) :
  singleLoads w d d2 -> singleLoads w d d2' -> d2 = d2'.
Proof.
  intros (raw & j & Hj & _ & Hi) (raw' & j' & Hj' & _ & Hi'). congruence.
Qed.

(** The sources in their order, for a canon array without [null]:
    [init] returns; the inline payload is tried first, and when it
    loads nothing is fetched; otherwise the single file is fetched, and
    when it loads nothing else is; otherwise the canon file is fetched
    and the store takes the names and chapter counts of the canon, of
    the fetched one when it is an array and of the built-in one in
    every other case. *)
Lemma init_sources_in_order (w : World) (d : Data) :
  canonHasNull w = false ->
  exists d',
    init w d = Ok d' /\
    (forall d1, inlineLoads w d d1 -> d' = d1 /\ fetched d' = fetched d) /\
    ((forall d1, ~ inlineLoads w d d1) ->
     forall d2, singleLoads w d d2 ->
       d' = d2 /\ fetched d' = fetched d ++ [SingleFile]) /\
    ((forall d1, ~ inlineLoads w d d1) -> (forall d2, ~ singleLoads w d d2) ->
       fetched d' = fetched d ++ [SingleFile; CanonFile] /\
       singleByRef d' = singleByRef d /\
       (forall arr, canonOf w = Some (CanonArr arr) ->
          books d' = (fun e => get e "name") <$> omap id arr /\
          (NoDup ((fun e => get e "name") <$> omap id arr) ->
           forall e, e ∈ omap id arr ->
             bookChapters d' !! get e "name" = Some (toNumber (get e "chapters")))) /\
       ((forall arr, canonOf w <> Some (CanonArr arr)) ->
          books d' = VStr <$> CANON_66 /\
          forall name n, (name, n) ∈ BUILT_IN_CANON -> chapterCount d' (VStr name) = n)).
Proof.
  intros Hnull.
  destruct (init_cases w d) as [(d1 & Hin & -> & Hf) | [(Hnin & d2 & Hsi & -> & Hf)
                                                       | (Hnin & Hnsi & ->)]].
  - exists d1. split; [reflexivity|]. split; [|split].
    + intros d1' Hd1'. split; [now apply (inlineLoads_fun w d) | exact Hf].
    + intros Hn. exfalso. now apply (Hn d1).
    + intros Hn. exfalso. now apply (Hn d1).
  - exists d2. split; [reflexivity|]. split; [|split].
    + intros d1 Hd1. exfalso. now apply (Hnin d1).
    + intros _ d2' Hd2'. split; [now apply (singleLoads_fun w d) | exact Hf].
    + intros _ Hn. exfalso. now apply (Hn d2).
  - unfold canonHasNull in Hnull.
    pose proof (useCanon_throws (canonOf w) (logFetch CanonFile (logFetch SingleFile d)))
      as Hu.
    destruct (canonOf w) as [[arr|]|] eqn:Hc.
    + rewrite Hnull in Hu. destruct Hu as (d' & -> & Hb & Hbc & _ & Hs & Hfe).
      exists d'. split; [reflexivity|]. split; [|split].
      * intros d1 Hd1. exfalso. now apply (Hnin d1).
      * intros _ d2 Hd2. exfalso. now apply (Hnsi d2).
      * intros _ _. rewrite Hfe, Hs, !logFetch_fetched, <- app_assoc.
        split; [reflexivity|]. split; [reflexivity|]. split.
        -- intros arr' [= <-]. split; [exact Hb|].
           intros Hnd e He. rewrite Hbc. now apply canon_counts.
        -- intros Hno. exfalso. now apply (Hno arr).
    + destruct (useCanon_built_in (Some CanonOther)
                  (logFetch CanonFile (logFetch SingleFile d)))
        as (d' & -> & Hb & Hcnt & _ & Hs & Hfe); [discriminate|].
      exists d'. split; [reflexivity|]. split; [|split].
      * intros d1 Hd1. exfalso. now apply (Hnin d1).
      * intros _ d2 Hd2. exfalso. now apply (Hnsi d2).
      * intros _ _. rewrite Hfe, Hs, !logFetch_fetched, <- app_assoc.
        split; [reflexivity|]. split; [reflexivity|]. split; [discriminate|].
        intros _. now split.
    + destruct (useCanon_built_in None (logFetch CanonFile (logFetch SingleFile d)))
        as (d' & -> & Hb & Hcnt & _ & Hs & Hfe); [discriminate|].
      exists d'. split; [reflexivity|]. split; [|split].
      * intros d1 Hd1. exfalso. now apply (Hnin d1).
      * intros _ d2 Hd2. exfalso. now apply (Hnsi d2).
      * intros _ _. rewrite Hfe, Hs, !logFetch_fetched, <- app_assoc.
        split; [reflexivity|]. split; [reflexivity|]. split; [discriminate|].
        intros _. now split.
Qed.

(** The only way in which [init] throws: after both content sources
    failed to load, on a canon array that holds [null]. *)
Lemma init_throws (w : World) (d : Data) (e : error) :
  init w d = Throw e <->
  e = TypeError /\ canonHasNull w = true /\
  (forall d1, ~ inlineLoads w d d1) /\ (forall d2, ~ singleLoads w d d2).
Proof.
  destruct (init_cases w d) as [(d1 & Hin & -> & _) | [(Hnin & d2 & Hsi & -> & _)
                                                      | (Hnin & Hnsi & ->)]].
  - split; [discriminate|]. intros (_ & _ & Hn & _). now contradiction (Hn d1).
  - split; [discriminate|]. intros (_ & _ & _ & Hn). now contradiction (Hn d2).
  - unfold canonHasNull.
    pose proof (useCanon_throws (canonOf w) (logFetch CanonFile (logFetch SingleFile d)))
      as Hu.
    destruct (canonOf w) as [[arr|]|].
    + destruct (existsb isNull arr).
      * rewrite Hu. split; [intros [= <-]; now repeat split | now intros (-> & _)].
      * destruct Hu as (d' & -> & _). split; [discriminate|]. now intros (_ & ? & _).
    + destruct (useCanon _ _); [|discriminate Hu].
      split; [discriminate|]. now intros (_ & ? & _).
    + destruct (useCanon _ _); [|discriminate Hu].
      split; [discriminate|]. now intros (_ & ? & _).
Qed.

(** C7. A page without inline payload, a single file that is not found
    and a canon file whose JSON is the array holding [null]: the first
    two steps fail inside their [try] blocks, the canon is fetched, and
    [canon.map(e=>e.name)], which stands outside every [try], throws a
    [TypeError] that [init] passes on to its caller, where the claim
    has [init] never raise and the store end with the names and counts
    of the Canon Table. With the empty array in place of that one
    [init] returns. *)
Theorem null_canon_entry_makes_init_throw :
  inlineJson nullCanonWorld = NoInline /\
  singleFile nullCanonWorld = NotOk /\
  canonFile nullCanonWorld = Body "[null]" (Some (CanonArr [None])) /\
  init nullCanonWorld newData = Throw TypeError /\
  isThrow (init (emptyCanonWorld) newData) = false.
Proof. repeat split; reflexivity. Qed.

(** ** The reference parser *)

Lemma startsWith_refl (s : string) : startsWith s s = true.
Proof. induction s as [|c s IH]; cbn; [reflexivity|]. now rewrite Ascii.eqb_refl. Qed.

Lemma findValue_elem (p : value -> bool) (l : list value) :
  truthy (findValue p l) = true -> findValue p l ∈ l.
Proof.
  unfold findValue. destruct (List.find p l) as [x|] eqn:Hf; cbn; [|discriminate].
  intros _. apply List.find_some in Hf as [Hx _]. now apply list_elem_of_In.
Qed.

Lemma findValue_none (p : value -> bool) (l : list value) :
  (forall x, x ∈ l -> p x = false) -> findValue p l = VUndef.
Proof.
  intros H. unfold findValue. destruct (List.find p l) as [x|] eqn:Hf; [|reflexivity].
  apply List.find_some in Hf as [Hx Hp]. apply list_elem_of_In in Hx.
  rewrite (H x Hx) in Hp. discriminate.
Qed.

(** What [resolveBook] returns, when it is truthy, is a book of the store. *)
Lemma resolveBook_hasBook (d : Data) (q : value) :
  truthy (resolveBook d q) = true -> hasBook d (resolveBook d q) = true.
Proof.
  unfold resolveBook, hasBook. cbn zeta. intros H. apply bool_decide_eq_true.
  destruct (truthy (findValue (fun b => String.eqb (norm b) (norm q)) (books d))) eqn:He;
    now apply findValue_elem.
Qed.

Lemma resolveBook_unresolvable (d : Data) (b : string) :
  unresolvable d b ->
  resolveBook d (VStr b) = VUndef /\ hasBook d (VStr b) = false.
Proof.
  intros Hu. split.
  - unfold resolveBook. cbn zeta.
    rewrite (findValue_none (fun x => String.eqb (norm x) (norm (VStr b)))).
    + cbn. now apply findValue_none.
    + intros x Hx. apply String.eqb_neq. intros Heq.
      specialize (Hu x Hx). rewrite Heq, startsWith_refl in Hu. discriminate.
  - apply bool_decide_eq_false. intros Hin.
    specialize (Hu _ Hin). rewrite startsWith_refl in Hu. discriminate.
Qed.

Lemma parseRef_unfold (d : Data) (s tok chap : string) (vs : option string) :
  s <> "" -> matchRef s = Some (tok, chap, vs) ->
  parseRef d s =
    match aliasOf (toLowerCase (cleanToken tok)) with
    | AliasBook name =>
        if hasBook d (VStr name) then Some (refTo d (VStr name) chap vs) else None
    | AliasInherited => None
    | AliasNone =>
        let r := resolveBook d (VStr (cleanToken tok)) in
        let b' := if truthy r then r else VStr (cleanToken tok) in
        if hasBook d b' then Some (refTo d b' chap vs) else None
    end.
Proof.
  intros Hs Hm. unfold parseRef. rewrite Hm.
  destruct s; [congruence|]. cbn [isEmpty].
  destruct (aliasOf _); reflexivity.
Qed.

Lemma clamp_range (n : whole) (cc : Z) : 1 <= cc -> 1 <= clamp n cc <= cc.
Proof. intros H. destruct n as [z|]; cbn; lia. Qed.

(** The claim of C9 fails on a store whose chapter count for a book is
    below 1, as after the ingestion of a row with chapter -1: the
    chapter of the reference is that count, not a number from 1 on. *)
Lemma chapter_count_below_one_is_not_clamped :
  ingestSingle belowOnePayload newData = Ok belowOneData /\
  chapterCount belowOneData (VStr "Alpha") = -1 /\
  parseRef belowOneData "alpha 3" =
    Some {| refBook := VStr "Alpha"; refChapter := -1; refVerse := None |} /\
  ~ (1 <= -1 <= chapterCount belowOneData (VStr "Alpha")).
Proof.
  split; [vm_compute; reflexivity|]. split; [vm_compute; reflexivity|].
  split; [vm_compute; reflexivity|]. lia.
Qed.

(** C9. The reference parser returns none for a text that is not of
    the form book, chapter and optional verse. On a text of that form
    the book is the alias of the token when the alias table has one,
    and else what [resolveBook] finds for it; the chapter is the number
    clamped by [Math.min(Math.max(1, n), chapterCount(book))], which
    lies between 1 and the chapter count when that count is at least 1;
    the result is none when no book of the store answers to the token.
    In particular [jn 3:16] is John 3:16 when John is a book with at
    least 3 chapters. *)
Theorem parseRef_resolves_alias_then_book (d : Data) :
  (forall s, matchRef s = None -> parseRef d s = None) /\
  (forall s tok chap vs,
     s <> "" -> matchRef s = Some (tok, chap, vs) ->
     let b := cleanToken tok in
     (forall name, aliasOf (toLowerCase b) = AliasBook name ->
        hasBook d (VStr name) = true ->
        parseRef d s = Some (refTo d (VStr name) chap vs)) /\
     (aliasOf (toLowerCase b) = AliasNone ->
        truthy (resolveBook d (VStr b)) = true ->
        parseRef d s = Some (refTo d (resolveBook d (VStr b)) chap vs)) /\
     (aliasOf (toLowerCase b) = AliasNone -> unresolvable d b ->
        parseRef d s = None)) /\
  (forall s r, parseRef d s = Some r ->
     hasBook d (refBook r) = true /\
     (1 <= chapterCount d (refBook r) ->
      1 <= refChapter r <= chapterCount d (refBook r))) /\
  (hasBook d (VStr "John") = true -> 3 <= chapterCount d (VStr "John") ->
   parseRef d "jn 3:16" =
     Some {| refBook := VStr "John"; refChapter := 3; refVerse := Some (Whole 16) |}).
Proof.
  split; [|split; [|split]].
  - intros s Hm. unfold parseRef. rewrite Hm. now destruct (isEmpty s).
  - intros s tok chap vs Hs Hm b. rewrite (parseRef_unfold d s tok chap vs Hs Hm).
    subst b. split; [|split].
    + intros name -> ->. reflexivity.
    + intros -> Ht. cbn zeta. rewrite Ht.
      now rewrite (resolveBook_hasBook d _ Ht).
    + intros -> Hu. cbn zeta.
      destruct (resolveBook_unresolvable d _ Hu) as [Hr Hh].
      rewrite Hr. cbn [truthy]. now rewrite Hh.
  - intros s r. unfold parseRef.
    destruct (isEmpty s); [discriminate|].
    destruct (matchRef s) as [[[tok chap] vs]|]; [|discriminate].
    destruct (match aliasOf _ with AliasBook _ => _ | _ => _ end) as [b'|]; [|discriminate].
    destruct (hasBook d b') eqn:Hb; [|discriminate].
    intros [= <-]. cbn [refBook refChapter]. split; [assumption | apply clamp_range].
  - intros Hj Hc. rewrite (parseRef_unfold d "jn 3:16" "jn" "3" (Some "16"));
      [|discriminate | reflexivity].
    change (aliasOf (toLowerCase (cleanToken "jn"))) with (AliasBook "John").
    cbv beta iota. rewrite Hj. unfold refTo.
    change (numberOfDigits "3") with (Whole 3).
    change (numberOfDigits <$> Some "16") with (Some (Whole 16)).
    cbn [clamp]. f_equal. f_equal. lia.
Qed.

Lemma parseRef_resolves_alias_then_book_witness :
  hasBook splitData (VStr "John") = true /\
  3 <= chapterCount splitData (VStr "John") /\
  parseRef splitData "jn 3:16" =
    Some {| refBook := VStr "John"; refChapter := 3; refVerse := Some (Whole 16) |}.
Proof.
  assert (hasBook splitData (VStr "John") = true) as Hb by (vm_compute; reflexivity).
  assert (3 <= chapterCount splitData (VStr "John")) as Hc by (vm_compute; discriminate).
  split; [exact Hb|]. split; [exact Hc|].
  exact (proj2 (proj2 (proj2 (parseRef_resolves_alias_then_book splitData))) Hb Hc).
Defined.

(** The scenario on a store that holds the built-in canon. *)
Example parseRef_jn_3_16 :
  parseRef splitData "jn 3:16" =
    Some {| refBook := VStr "John"; refChapter := 3; refVerse := Some (Whole 16) |} /\
  parseRef splitData " 1 john 9" =
    Some {| refBook := VStr "1 John"; refChapter := 5; refVerse := None |} /\
  parseRef splitData "1stJohn 2" =
    Some {| refBook := VStr "1 John"; refChapter := 2; refVerse := None |} /\
  parseRef splitData "jn 3:" = None /\
  parseRef splitData "nobody 3" = None.
Proof. vm_compute. repeat split; reflexivity. Qed.

(** A verse number beyond 2^53 is the double nearest to it, and a
    chapter number too large for a double is the last chapter. *)
Example parseRef_rounds_like_Number :
  refVerse <$> parseRef splitData "jn 3:9007199254740993" =
    Some (Some (Whole 9007199254740992)) /\
  refVerse <$> parseRef splitData "jn 3:9007199254740995" =
    Some (Some (Whole 9007199254740996)) /\
  nearestDouble (10 ^ 400) = None /\
  clamp Infinite 21 = 21.
Proof. vm_compute. repeat split; reflexivity. Qed.

(** ** Highlighting *)

Lemma esc_app (a b : string) : esc (a +:+ b) = esc a +:+ esc b.
Proof.
  induction a as [|c a IH]; [reflexivity|].
  sapp. cbn [esc]. now rewrite IH, append_assoc.
Qed.

Lemma esc_plain (u : string) : plainToken u = true -> esc u = u.
Proof.
  unfold plainToken. induction u as [|c u IH]; [reflexivity|].
  cbn [allChars esc]. intros [Hc Hu]%andb_true_iff. rewrite (IH Hu).
  unfold escChar, isHtmlSensitive in *.
  destruct (code c =? 38)%N; [discriminate|].
  destruct (code c =? 60)%N; [discriminate|].
  destruct (code c =? 62)%N; [discriminate|].
  destruct (code c =? 34)%N; [discriminate|]. reflexivity.
Qed.

Lemma lowerChar_sensitive (c : ascii) :
  isHtmlSensitive (lowerChar c) = isHtmlSensitive c.
Proof. destruct c as [[] [] [] [] [] [] [] []]; reflexivity. Qed.

Lemma plainToken_lower (u : string) : plainToken (toLowerCase u) = plainToken u.
Proof.
  unfold plainToken. induction u as [|c u IH]; [reflexivity|].
  cbn [toLowerCase allChars]. now rewrite lowerChar_sensitive, IH.
Qed.

Lemma takeStr_app (a b : string) : takeStr (String.length a) (a +:+ b) = a.
Proof. induction a as [|c a IH]; [now destruct b | sapp; cbn; now rewrite IH]. Qed.

(** The expression matches at the start of [s] exactly when [s] starts
    with a text that equals [t] up to case. *)
Lemma matchesAt_spec (t s : string) :
  matchesAt t s = true <->
  exists u post, s = u +:+ post /\ toLowerCase u = toLowerCase t.
Proof.
  unfold matchesAt. rewrite startsWith_spec. split.
  - intros [post H]. apply toLowerCase_split in H as (u & post' & -> & Hu & _).
    now exists u, post'.
  - intros (u & post & -> & Hu). exists (toLowerCase post).
    now rewrite toLowerCase_app, Hu.
Qed.

Lemma lower_same_length (u t : string) :
  toLowerCase u = toLowerCase t -> String.length u = String.length t.
Proof. intros H. now rewrite <- (toLowerCase_length u), H, toLowerCase_length. Qed.

Lemma markFrom_skip (t a b : string) :
  t <> "" -> markFrom t (String.length a) (a +:+ b) = markFrom t 0 b.
Proof.
  intros Ht. induction a as [|c a IH]; [reflexivity|].
  sapp. cbn [String.length markFrom]. exact IH.
Qed.

(** At a match the matched text is wrapped, and the replacement goes on
    after it. *)
Lemma markFrom_match (t u post : string) :
  t <> "" -> toLowerCase u = toLowerCase t ->
  markFrom t 0 (u +:+ post) = mark u +:+ markFrom t 0 post.
Proof.
  intros Ht Hu. pose proof (lower_same_length u t Hu) as Hlen.
  destruct u as [|c u]; [destruct t; [congruence | discriminate]|].
  sapp. cbn [markFrom].
  assert (matchesAt t (String c (u +:+ post)) = true) as ->.
  { apply matchesAt_spec. now exists (String c u), post. }
  destruct t as [|x t]; [congruence|]. cbn [isEmpty].
  rewrite <- Hlen.
  replace (String.length (String c u) - 1)%nat with (String.length u)
    by (cbn [String.length]; lia).
  f_equal.
  - f_equal. rewrite <- append_cons. apply takeStr_app.
  - now apply markFrom_skip.
Qed.

(** Where [t] does not occur, nothing is changed. *)
Lemma markFrom_none (t s : string) :
  t <> "" -> ~ ciSubstring t s -> markFrom t 0 s = s.
Proof.
  intros Ht. induction s as [|c s IH]; intros Hno.
  - destruct t; [congruence | reflexivity].
  - cbn [markFrom]. destruct (matchesAt t (String c s)) eqn:Hm.
    + exfalso. apply Hno. apply matchesAt_spec in Hm as (u & post & Hs & Hu).
      exists "", u, post. now split.
    + rewrite IH; [reflexivity|].
      intros (pre & u & post & -> & Hu). apply Hno.
      exists (String c pre), u, post. now split.
Qed.

(** The replacement wraps the leftmost occurrence: no match starts
    before it. *)
Lemma markFrom_leftmost (t s : string) :
  t <> "" -> ciSubstring t s ->
  exists pre u post,
    s = pre +:+ u +:+ post /\ toLowerCase u = toLowerCase t /\
    (forall a b, pre = a +:+ b -> b <> "" -> matchesAt t (b +:+ u +:+ post) = false) /\
    markFrom t 0 s = pre +:+ mark u +:+ markFrom t 0 post.
Proof.
  intros Ht. induction s as [|c s IH]; intros (pre & u & post & Hs & Hu).
  - destruct pre; [|discriminate]. destruct u; [|discriminate].
    destruct t; [congruence | discriminate].
  - destruct (matchesAt t (String c s)) eqn:Hm.
    + apply matchesAt_spec in Hm as (u' & post' & Hs' & Hu').
      exists "", u', post'. split; [exact Hs'|]. split; [exact Hu'|]. split.
      * intros a b Hab Hb. destruct a; [|discriminate]. sapp in Hab. congruence.
      * rewrite Hs'. sapp. now apply markFrom_match.
    + destruct pre as [|x pre].
      * exfalso. sapp in Hs. assert (matchesAt t (String c s) = true) as Hm'
          by (apply matchesAt_spec; now exists u, post).
        congruence.
      * sapp in Hs. injection Hs as -> Hs.
        destruct IH as (pre' & u' & post' & Hs' & Hu' & Hleft & Hmark);
          [now exists pre, u, post|].
        exists (String x pre'), u', post'. sapp.
        split; [now rewrite Hs'|]. split; [exact Hu'|]. split.
        -- intros a b Hab Hb. destruct a as [|y a].
           ++ sapp in Hab. subst b. sapp. now rewrite <- Hs'.
           ++ sapp in Hab. injection Hab as -> Hab. now apply (Hleft a b).
        -- cbn [markFrom]. rewrite Hm. now rewrite Hmark.
Qed.

Lemma ciSubstring_esc (t txt : string) :
  plainToken t = true -> ciSubstring t txt -> ciSubstring t (esc txt).
Proof.
  intros Hp (pre & u & post & -> & Hu).
  exists (esc pre), u, (esc post). split; [|exact Hu].
  rewrite !esc_app. rewrite (esc_plain u); [reflexivity|].
  now rewrite <- plainToken_lower, Hu, plainToken_lower.
Qed.

Lemma marked_includes (u html : string) :
  marked u html <-> includes html (mark u) = true.
Proof. unfold marked. now rewrite includes_spec. Qed.

(** C10, as the code has it. The match test reads the raw text in lower
    case; the marks go into the escaped text. For a query of one token
    without [&], [<], [>] and the double quote, the preview of a matching
    verse wraps the leftmost occurrence of the token in the escaped text
    and goes on replacing after it, leaving a rest without occurrence as
    it is. A token with one of the four characters can match a verse
    whose preview has no mark at all. *)
Theorem single_plain_token_is_marked (q t : string) (v : Verse) :
  tokenize q = [t] ->
  plainToken t = true ->
  verseMatches (tokenize q) v = true ->
  (exists pre u post,
     esc (text v) = pre +:+ u +:+ post /\
     toLowerCase u = t /\
     (forall a b, pre = a +:+ b -> b <> "" -> matchesAt t (b +:+ u +:+ post) = false) /\
     highlight (text v) (tokenize q) = pre +:+ mark u +:+ markFrom t 0 post /\
     (~ ciSubstring t post -> markFrom t 0 post = post) /\
     marked u (highlight (text v) (tokenize q))) /\
  (exists q' t' v',
     tokenize q' = [t'] /\ plainToken t' = false /\
     verseMatches (tokenize q') v' = true /\
     highlight (text v') (tokenize q') = esc (text v') /\
     includes (highlight (text v') (tokenize q')) "<mark>" = false).
Proof.
  intros Hq Hp Hm. split.
  - assert (t ∈ tokenize q) as Ht by (rewrite Hq; left).
    destruct (tokenize_elem q t Ht) as [Hne Hlow].
    pose proof (proj1 (verseMatches_spec q v) Hm t Ht) as Hsub.
    destruct (markFrom_leftmost t (esc (text v)) Hne (ciSubstring_esc _ _ Hp Hsub))
      as (pre & u & post & Hs & Hu & Hleft & Hmark).
    rewrite Hlow in Hu. rewrite Hq. exists pre, u, post.
    split; [exact Hs|]. split; [exact Hu|]. split; [exact Hleft|].
    unfold highlight. cbn [fold_left]. split; [exact Hmark|].
    split; [now apply markFrom_none|].
    exists pre, (markFrom t 0 post). exact Hmark.
  - exists "<", "<",
      {| book := VStr "Genesis"; chapter := Some 1; verse := Some 1;
         text := "a<b"; paragraphStart := false |}.
    vm_compute. repeat split; reflexivity.
Qed.

Lemma single_plain_token_is_marked_witness :
  tokenize "Beginning" = ["beginning"] /\
  plainToken "beginning" = true /\
  verseMatches (tokenize "Beginning") quotedVerse = true /\
  (exists pre u post,
     esc (text quotedVerse) = pre +:+ u +:+ post /\
     toLowerCase u = "beginning" /\
     (forall a b, pre = a +:+ b -> b <> "" ->
        matchesAt "beginning" (b +:+ u +:+ post) = false) /\
     highlight (text quotedVerse) (tokenize "Beginning")
       = pre +:+ mark u +:+ markFrom "beginning" 0 post /\
     (~ ciSubstring "beginning" post -> markFrom "beginning" 0 post = post) /\
     marked u (highlight (text quotedVerse) (tokenize "Beginning"))) /\
  (exists q' t' v',
     tokenize q' = [t'] /\ plainToken t' = false /\
     verseMatches (tokenize q') v' = true /\
     highlight (text v') (tokenize q') = esc (text v') /\
     includes (highlight (text v') (tokenize q')) "<mark>" = false).
Proof.
  split; [reflexivity|]. split; [reflexivity|]. split; [reflexivity|].
  exact (single_plain_token_is_marked "Beginning" "beginning" quotedVerse
           eq_refl eq_refl eq_refl).
Defined.

(** C10, as the claim states it, fails: in the query [a ab] both tokens
    are free of the four characters and the verse [ab] matches, yet
    after the marks of [a] are in, [ab] no longer occurs and is not
    wrapped. *)
Lemma later_token_left_unmarked :
  tokenize "a ab" = ["a"; "ab"] /\
  plainToken "a" = true /\ plainToken "ab" = true /\
  allIncluded (toLowerCase "ab") (tokenize "a ab") = true /\
  highlight "ab" (tokenize "a ab") = "<mark>a</mark>b" /\
  ~ marked "ab" (highlight "ab" (tokenize "a ab")).
Proof.
  repeat split; try reflexivity.
  rewrite marked_includes. vm_compute. discriminate.
Qed.

(** ** The scenarios of the specification, evaluated *)

Example tokenize_in_the : tokenize "  In THE  beginning " = ["in"; "the"; "beginning"].
Proof. reflexivity. Qed.

Example tokenize_at_most_five : tokenize "a b c d e f g" = ["a"; "b"; "c"; "d"; "e"].
Proof. reflexivity. Qed.

Example splitWs_ends : splitWs false "  in  the " = [""; "in"; "the"; ""].
Proof. reflexivity. Qed.

Example esc_three : esc "a<b & c > d" = "a&lt;b &amp; c &gt; d".
Proof. reflexivity. Qed.

(** [search("beginning created", 5)] finds Genesis 1:1 alone, with both
    words marked. *)
Example search_beginning_created :
  (search offline (indexMeta sampleData) "beginning created" 5 sampleSys).1 =
    Some [{| hitBook := VStr "Genesis"; hitChapter := 1; hitVerse := Some 1;
             previewHtml :=
               "In the <mark>beginning</mark> God <mark>created</mark> the heaven and the earth." |}].
Proof. vm_compute. reflexivity. Qed.

(** Rows that name the book by number under [b], with [c] and [v]. *)
Example numeric_book_id :
  readRow {[ "b" := VNum 1; "c" := VNum 1; "v" := VNum 1; "t" := VStr "In the beginning" ]} =
    Some {| book := VStr "Genesis"; chapter := Some 1; verse := Some 1;
            text := "In the beginning"; paragraphStart := false |}.
Proof. vm_compute. reflexivity. Qed.

Example book_given_as_text_under_book :
  readRow {[ "book" := VStr "Genesis"; "chapter" := VNum 1; "verse" := VNum 1 ]} = None.
Proof. vm_compute. reflexivity. Qed.

Example pilcrow_starts_paragraph :
  stripMarkers false (String (ascii_of_N 182) " In the beginning") =
    ("In the beginning", true) /\
  stripMarkers false "## Heading" = ("Heading", true).
Proof. split; reflexivity. Qed.

Example sample_books : books sampleData = [VStr "Genesis"; VStr "John"].
Proof. vm_compute. reflexivity. Qed.

Example matchRef_forms :
  matchRef "jn 3:16" = Some ("jn", "3", Some "16") /\
  matchRef " 1 John  3 " = Some ("1 John", "3", None) /\
  matchRef "jn 3:" = None /\
  matchRef "john" = None.
Proof. repeat split; reflexivity. Qed.

(** ** Keys of the chapter maps *)

Lemma showZ_inj (a b : Z) : showZ a = showZ b -> a = b.
Proof.
  unfold showZ. intros H.
  assert (Some (Z.to_int a) = Some (Z.to_int b)) as [= Hab]
    by now rewrite <- !NilEmpty.isi, H.
  now rewrite <- (DecimalZ.of_to a), <- (DecimalZ.of_to b), Hab.
Qed.

Lemma string_of_uint_no_colon (d : Decimal.uint) :
  allChars (fun c => negb (isColonChar c)) (NilEmpty.string_of_uint d) = true.
Proof. induction d; cbn; auto. Qed.

Lemma showZ_no_colon (z : Z) : allChars (fun c => negb (isColonChar c)) (showZ z) = true.
Proof.
  unfold showZ. destruct (Z.to_int z); cbn [NilEmpty.string_of_int];
    [|cbn [allChars]; rewrite andb_true_iff; split; [reflexivity|]];
    apply string_of_uint_no_colon.
Qed.

Lemma showNum_no_colon (c : num) :
  allChars (fun c => negb (isColonChar c))
           (match c with Some z => showZ z | None => "NaN" end) = true.
Proof. destruct c; [apply showZ_no_colon | reflexivity]. Qed.

Lemma showNum_inj (c c' : num) :
  match c with Some z => showZ z | None => "NaN" end =
  match c' with Some z => showZ z | None => "NaN" end -> c = c'.
Proof.
  assert (forall z, showZ z <> "NaN") as Hnan.
  { intros z H. unfold showZ in H.
    assert (NilEmpty.int_of_string "NaN" = Some (Z.to_int z)) as Hi
      by now rewrite <- H, NilEmpty.isi.
    discriminate. }
  destruct c as [a|], c' as [b|]; intros H.
  - f_equal. now apply showZ_inj.
  - now apply Hnan in H.
  - symmetry in H. now apply Hnan in H.
  - reflexivity.
Qed.

(** A text is split in one way only at its last colon. *)
Lemma split_at_last_colon (a b n m : string) :
  allChars (fun c => negb (isColonChar c)) n = true ->
  allChars (fun c => negb (isColonChar c)) m = true ->
  a +:+ ":" +:+ n = b +:+ ":" +:+ m -> a = b /\ n = m.
Proof.
  intros Hn Hm. revert b. induction a as [|x a IH]; intros [|y b] H; sapp in H.
  - injection H as H. now split.
  - injection H as <- H. exfalso. rewrite H, allChars_app in Hn.
    apply andb_true_iff in Hn as [_ Hn]. sapp in Hn. discriminate.
  - injection H as -> H. exfalso. rewrite <- H, allChars_app in Hm.
    apply andb_true_iff in Hm as [_ Hm]. sapp in Hm. discriminate.
  - injection H as <- H. destruct (IH b H) as [-> ->]. now split.
Qed.

Lemma refKey_inj (b b' : value) (c c' : num) :
  refKey b c = refKey b' c' -> toStr b = toStr b' /\ c = c'.
Proof.
  unfold refKey. intros H.
  apply split_at_last_colon in H as [Hb Hc]; try apply showNum_no_colon.
  split; [assumption | now apply showNum_inj].
Qed.

(** ** What ingestion leaves in the store *)

Lemma buildRefs_present (m : list (value * list (num * list Verse)))
    (b : value) (chs : list (num * list Verse)) (c : num) (arr : list Verse) :
  (b, chs) ∈ m -> (c, arr) ∈ chs -> is_Some (buildRefs m !! refKey b c).
Proof.
  unfold buildRefs.
  assert (forall b0 (l : list (num * list Verse)) (acc : gmap string (list Verse)) k,
            is_Some (acc !! k) ->
            is_Some (fold_left (fun m' ca =>
                       <[refKey b0 ca.1 := storeChapter b0 ca.1 ca.2]> m') l acc !! k))
    as Hkeep1.
  { intros b0 l. induction l as [|x l IH]; intros acc k Hk; [exact Hk|].
    cbn [fold_left]. apply IH. rewrite lookup_insert. case_decide; eauto. }
  assert (forall (l : list (value * list (num * list Verse)))
                 (acc : gmap string (list Verse)) k,
            is_Some (acc !! k) ->
            is_Some (fold_left (fun m bc =>
                       fold_left (fun m' ca =>
                         <[refKey bc.1 ca.1 := storeChapter bc.1 ca.1 ca.2]> m')
                         bc.2 m) l acc !! k))
    as Hkeep2.
  { induction l as [|x l IH]; intros acc k Hk; [exact Hk|].
    cbn [fold_left]. apply IH. now apply Hkeep1. }
  assert (forall b0 (l : list (num * list Verse)) (acc : gmap string (list Verse)),
            (c, arr) ∈ l ->
            is_Some (fold_left (fun m' ca =>
                       <[refKey b0 ca.1 := storeChapter b0 ca.1 ca.2]> m') l acc
                     !! refKey b0 c))
    as Hput1.
  { intros b0 l. induction l as [|x l IH]; intros acc Hin.
    - now apply elem_of_nil in Hin.
    - cbn [fold_left]. apply elem_of_cons in Hin as [<-|Hin]; [|now apply IH].
      apply Hkeep1. cbn. rewrite lookup_insert_eq. eauto. }
  intros Hb Hc. generalize (∅ : gmap string (list Verse)).
  induction m as [|x m IH]; intros acc.
  - now apply elem_of_nil in Hb.
  - cbn [fold_left]. apply elem_of_cons in Hb as [<-|Hb]; [|now apply IH].
    apply Hkeep2. cbn [fst snd]. now apply Hput1.
Qed.

Lemma survivors_organize_NoDup (j : json) : NoDup (organize (survivors j)).*1.
Proof. rewrite organize_keys. apply firstOccurrences_NoDup. Qed.

(** A list of [byBook] is never empty. *)
Lemma organize_group_nonempty (vs : list Verse) (b : value) (c : num)
    (chs : list (num * list Verse)) (arr : list Verse) :
  alookup b (organize vs) = Some chs -> alookup c chs = Some arr -> arr <> [].
Proof.
  revert chs arr. induction vs as [|v vs IH] using rev_ind; intros chs arr.
  - discriminate.
  - rewrite organize_snoc, alookup_pushVerse.
    destruct (decide (b = book v)) as [->|Hb]; [|apply IH].
    intros [= <-]. rewrite alookup_pushChapter.
    destruct (decide (c = chapter v)) as [->|Hc].
    + intros [= <-]. now destruct (default [] _).
    + destruct (alookup (book v) (organize vs)) as [chs0|] eqn:Hl; cbn.
      * now apply IH.
      * discriminate.
Qed.

(** The chapters listed under a book are the chapters of its rows. *)
Lemma organize_chapter_keys (vs : list Verse) (b : value)
    (chs : list (num * list Verse)) (c : num) :
  (b, chs) ∈ organize vs ->
  c ∈ chs.*1 <-> exists v, v ∈ vs /\ book v = b /\ chapter v = c.
Proof.
  intros Hb. pose proof (organize_chapters_NoDup vs b chs Hb) as Hnd.
  assert (NoDup (organize vs).*1) as Hndb
    by (rewrite organize_keys; apply firstOccurrences_NoDup).
  split.
  - intros Hc. apply list_elem_of_fmap in Hc as ([c' arr] & -> & Harr). cbn.
    pose proof (organize_entry vs b chs c' arr Hb Harr) as Heq.
    apply (alookup_elem _ _ _ Hndb) in Hb. apply (alookup_elem _ _ _ Hnd) in Harr.
    pose proof (organize_group_nonempty vs b c' chs arr Hb Harr) as Hne.
    destruct arr as [|v arr]; [congruence|].
    assert (v ∈ ofChapter b c' vs) as Hv by (rewrite <- Heq; left).
    unfold ofChapter in Hv. apply list_elem_of_filter in Hv as [[? ?] ?].
    now exists v.
  - intros (v & Hv & Hbv & Hcv).
    assert (v ∈ groupOf b c (organize vs)) as Hg.
    { rewrite organize_group. unfold ofChapter. apply list_elem_of_filter. auto. }
    unfold groupOf in Hg. apply (alookup_elem _ _ _ Hndb) in Hb. rewrite Hb in Hg.
    cbn in Hg. destruct (alookup c chs) as [arr|] eqn:Hc; cbn in Hg.
    + apply (alookup_elem _ _ _ Hnd) in Hc. apply list_elem_of_fmap.
      now exists (c, arr).
    + now apply elem_of_nil in Hg.
Qed.

Lemma organize_book_keys (vs : list Verse) (b : value) :
  b ∈ (organize vs).*1 <-> exists v, v ∈ vs /\ book v = b.
Proof.
  rewrite organize_keys, firstOccurrences_elem, list_elem_of_fmap.
  split; intros (v & ? & ?); exists v; auto.
Qed.

Lemma orderBooks_elem (keys : list value) (b : value) :
  b ∈ orderBooks keys <-> b ∈ keys.
Proof.
  unfold orderBooks.
  assert (forall ks (acc : list value) x,
            x ∈ fold_left (fun ord b => if decide (b ∈ ord) then ord else ord ++ [b]) ks acc
            <-> x ∈ acc \/ x ∈ ks) as H.
  { induction ks as [|k ks IH]; intros acc x; cbn [fold_left].
    - rewrite elem_of_nil. tauto.
    - rewrite IH, elem_of_cons. destruct (decide (k ∈ acc)) as [Hk|Hk].
      + split; [tauto|]. intros [?|[->|?]]; auto.
      + rewrite elem_of_app, list_elem_of_singleton. tauto. }
  rewrite H. split; [|auto]. intros [Hb|Hb]; [|assumption].
  apply list_elem_of_fmap in Hb as (n & -> & Hn).
  now apply list_elem_of_filter in Hn as [? _].
Qed.

Lemma fold_max_spec (ks : list num) (k : num) :
  Forall is_Some (k :: ks) ->
  exists n,
    fold_left (fun a b => match a, b with
                          | Some x, Some y => Some (Z.max x y)
                          | _, _ => None
                          end) ks k = Some n /\
    Some n ∈ k :: ks /\ forall c, Some c ∈ k :: ks -> c <= n.
Proof.
  revert k. induction ks as [|y ks IH]; intros k Hall.
  - apply Forall_cons in Hall as [[x ->] _]. exists x. cbn. split; [reflexivity|].
    split; [left|]. intros c [[= ->]|H]%elem_of_cons; [lia | now apply elem_of_nil in H].
  - apply Forall_cons in Hall as [[x ->] Hall].
    pose proof Hall as Hall'. apply Forall_cons in Hall' as [[z ->] Hks].
    cbn [fold_left]. destruct (IH (Some (Z.max x z))) as (n & Hn & Hin & Hmax).
    { constructor; [eauto | assumption]. }
    exists n. split; [exact Hn|]. split.
    + apply elem_of_cons in Hin as [[= ->]|Hin].
      * destruct (Z.max_spec x z) as [[_ ->]|[_ ->]]; [right; left | left].
      * right. now right.
    + intros c Hc. apply elem_of_cons in Hc as [[= ->]|Hc].
      * specialize (Hmax (Z.max x z) (list_elem_of_here _ _)). lia.
      * apply elem_of_cons in Hc as [[= ->]|Hc].
        -- specialize (Hmax (Z.max x z) (list_elem_of_here _ _)). lia.
        -- apply Hmax. now right.
Qed.

Lemma fold_insert_lookup {A} (f : A -> value) (g : A -> num) (l : list A)
    (m : gmap value num) (x : A) :
  NoDup (f <$> l) -> x ∈ l ->
  fold_left (fun m a => <[f a := g a]> m) l m !! f x = Some (g x).
Proof.
  revert m. induction l as [|y l IH]; intros m Hnd Hx.
  - now apply elem_of_nil in Hx.
  - rewrite fmap_cons in Hnd. apply NoDup_cons in Hnd as [Hy Hnd].
    cbn [fold_left]. apply elem_of_cons in Hx as [->|Hx]; [|now apply IH].
    clear IH Hnd. revert m. induction l as [|z l IH]; intros m.
    + cbn. apply lookup_insert_eq.
    + cbn [fold_left]. rewrite fmap_cons, not_elem_of_cons in Hy. destruct Hy as [Hz Hy].
      specialize (IH Hy).
      assert (forall (m1 m2 : gmap value num),
                m1 !! f y = m2 !! f y ->
                fold_left (fun m a => <[f a := g a]> m) l m1 !! f y =
                fold_left (fun m a => <[f a := g a]> m) l m2 !! f y) as Hext.
      { clear -Hy. induction l as [|w l IHl]; intros m1 m2 H12; [exact H12|].
        cbn [fold_left]. rewrite fmap_cons, not_elem_of_cons in Hy.
        apply IHl; [tauto|]. rewrite !lookup_insert. case_decide; [reflexivity | exact H12]. }
      rewrite <- (IH m). apply Hext.
      rewrite (lookup_insert_ne _ (f z)) by congruence. reflexivity.
Qed.

Lemma chapterCount_nonzero (d : Data) (b : value) : chapterCount d b <> 0.
Proof.
  unfold chapterCount, orElse. destruct (default None (bookChapters d !! b)) as [z|]; [|lia].
  destruct (Z.eqb_spec z 0); lia.
Qed.

Lemma countAt_indexMeta (d : Data) (bi : nat) (b : value) :
  books d !! bi = Some b -> countAt (indexMeta d) bi = chapterCount d b.
Proof.
  intros Hb. unfold countAt, indexMeta. cbn [chapterCounts].
  rewrite list_lookup_fmap, Hb. cbn. unfold orElse.
  destruct (Z.eqb_spec (chapterCount d b) 0) as [H|H]; [|reflexivity].
  now apply chapterCount_nonzero in H.
Qed.

Lemma ingest_book_count (j : json) (d d' : Data) (b : value) :
  ingestSingle j d = Ok d' -> b ∈ books d' ->
  exists n, isMaxChapter b (survivors j) n /\ bookChapters d' !! b = Some (Some n).
Proof.
  intros Hi Hb. apply ingestSingle_result in Hi as (Hbooks & _ & _ & _ & Hcounts).
  rewrite Hbooks, orderBooks_elem in Hb.
  apply list_elem_of_fmap in Hb as ([b' chs] & -> & Hin). cbn [fst].
  pose proof (fold_insert_lookup fst (fun bc => maxChapter bc.2) (organize (survivors j))
                (bookChapters d) (b', chs) (survivors_organize_NoDup j) Hin) as Hl.
  cbn [fst snd] in Hl. rewrite Hcounts, Hl.
  assert (chs.*1 <> []) as Hne.
  { assert (b' ∈ (organize (survivors j)).*1) as Hk
      by (apply list_elem_of_fmap; now exists (b', chs)).
    apply organize_book_keys in Hk as (v & Hv & Hbv).
    intros Hnil.
    assert (chapter v ∈ chs.*1) as Hc
      by (apply (organize_chapter_keys (survivors j) b' chs); [assumption | now exists v]).
    rewrite Hnil in Hc. now apply elem_of_nil in Hc. }
  assert (Forall is_Some chs.*1) as Hall.
  { apply Forall_forall. intros c Hc.
    apply (organize_chapter_keys (survivors j) b' chs) in Hc as (v & Hv & _ & <-); [|assumption].
    unfold survivors in Hv. apply list_elem_of_omap in Hv as (r & _ & Hr).
    now apply readRow_numbered in Hr as (_ & ? & _). }
  unfold maxChapter. destruct (chs.*1) as [|k ks] eqn:Hks; [congruence|].
  destruct (fold_max_spec ks k Hall) as (n & -> & Hin' & Hmax).
  exists n. split; [|reflexivity]. split.
  - rewrite <- Hks in Hin'.
    apply (organize_chapter_keys (survivors j) b' chs) in Hin' as (v & ? & ? & ?); [|assumption].
    now exists v.
  - intros v c Hv Hbv Hcv. apply Hmax. rewrite <- Hks.
    apply (organize_chapter_keys (survivors j) b' chs); [assumption|]. exists v. now rewrite Hcv.
Qed.

Lemma ingested_books_counts (j : json) (d d' : Data) :
  ingestSingle j d = Ok d' ->
  NoDup (books d') /\
  (forall b, b ∈ books d' <-> exists v, v ∈ survivors j /\ book v = b) /\
  (forall b, b ∈ books d' ->
     exists n, isMaxChapter b (survivors j) n /\
               chapterCount d' b = if n =? 0 then 1 else n).
Proof.
  intros Hi. pose proof (ingestSingle_result j d d' Hi) as (Hbooks & _).
  assert (forall b, b ∈ books d' <-> exists v, v ∈ survivors j /\ book v = b) as Hiff.
  { intros b. now rewrite Hbooks, orderBooks_elem, organize_book_keys. }
  split; [rewrite Hbooks; apply orderBooks_NoDup|]. split; [exact Hiff|].
  intros b Hb.
  destruct (ingest_book_count j d d' b Hi Hb) as (n & Hmax & Hl).
  exists n. split; [exact Hmax|]. unfold chapterCount. now rewrite Hl.
Qed.


(** X1. After single-source ingestion the books of the store are the
    books of the surviving rows, each once and none falsy, and the
    chapter count of a book is the largest chapter number among its
    rows, or 1 when that number is 0. *)
Theorem ingest_books_and_counts (j : json) (d d' : Data) :
  ingestSingle j d = Ok d' ->
  NoDup (books d') /\
  (forall b, b ∈ books d' <-> exists v, v ∈ survivors j /\ book v = b) /\
  (forall b, b ∈ books d' ->
     truthy b = true /\
     exists n, isMaxChapter b (survivors j) n /\
               chapterCount d' b = if n =? 0 then 1 else n).
Proof.
  intros Hi. pose proof (ingestSingle_result j d d' Hi) as (Hbooks & _).
  assert (forall b, b ∈ books d' <-> exists v, v ∈ survivors j /\ book v = b) as Hiff.
  { intros b. now rewrite Hbooks, orderBooks_elem, organize_book_keys. }
  split; [rewrite Hbooks; apply orderBooks_NoDup|]. split; [exact Hiff|].
  intros b Hb. split.
  - apply Hiff in Hb as (v & Hv & <-). unfold survivors in Hv.
    apply list_elem_of_omap in Hv as (r & _ & Hr).
    now apply readRow_numbered in Hr as (_ & _ & ?).
  - destruct (ingest_book_count j d d' b Hi Hb) as (n & Hmax & Hl).
    exists n. split; [exact Hmax|]. unfold chapterCount. now rewrite Hl.
Qed.

Lemma ingest_books_and_counts_witness :
  ingestSingle samplePayload newData = Ok sampleData /\
  NoDup (books sampleData) /\
  (forall b, b ∈ books sampleData <->
     exists v, v ∈ survivors samplePayload /\ book v = b) /\
  (forall b, b ∈ books sampleData ->
     truthy b = true /\
     exists n, isMaxChapter b (survivors samplePayload) n /\
               chapterCount sampleData b = if n =? 0 then 1 else n).
Proof.
  assert (ingestSingle samplePayload newData = Ok sampleData) as Hi
    by (vm_compute; reflexivity).
  split; [exact Hi|].
  exact (ingest_books_and_counts samplePayload newData sampleData Hi).
Defined.

Lemma stringNamed_elem (j : json) (v : Verse) :
  stringNamed j -> v ∈ survivors j -> exists s, book v = VStr s.
Proof.
  unfold stringNamed. rewrite forallb_forall. intros H Hv.
  apply list_elem_of_In in Hv. specialize (H v Hv).
  destruct (book v); try discriminate. eauto.
Qed.

(** What the store holds under the key of a chapter of a book named by
    a string. *)
Lemma ingest_refs_lookup (j : json) (d d' : Data) (refs : gmap string (list Verse))
    (s : string) (c : num) :
  ingestSingle j d = Ok d' -> singleByRef d' = Some refs -> stringNamed j ->
  default [] (refs !! refKey (VStr s) c) = sortByVerse (ofChapter (VStr s) c (survivors j)).
Proof.
  intros Hi Hr Hnamed. apply ingestSingle_result in Hi as (_ & Hrefs & _).
  rewrite Hrefs in Hr. injection Hr as <-.
  destruct (buildRefs (organize (survivors j)) !! refKey (VStr s) c) as [vs|] eqn:Hk.
  - cbn. apply buildRefs_lookup in Hk as (b' & chs & c' & arr & Hb & Hc & Hkey & ->).
    apply refKey_inj in Hkey as [Hs <-].
    assert (b' = VStr s) as ->.
    { assert (b' ∈ (organize (survivors j)).*1) as Hin
        by (apply list_elem_of_fmap; now exists (b', chs)).
      apply organize_book_keys in Hin as (v & Hv & <-).
      destruct (stringNamed_elem j v Hnamed Hv) as [s' Hs']. rewrite Hs' in Hs |- *. cbn in Hs. now subst. }
    rewrite (organize_entry _ _ _ _ _ Hb Hc).
    apply storeChapter_grouped, ofChapter_Forall.
  - cbn. destruct (ofChapter (VStr s) c (survivors j)) as [|v l] eqn:Ho; [reflexivity|].
    exfalso.
    assert (v ∈ groupOf (VStr s) c (organize (survivors j))) as Hg
      by (rewrite organize_group, Ho; left).
    unfold groupOf in Hg.
    destruct (alookup (VStr s) (organize (survivors j))) as [chs|] eqn:Hb; cbn in Hg;
      [|now apply elem_of_nil in Hg].
    destruct (alookup c chs) as [arr|] eqn:Hc; cbn in Hg; [|now apply elem_of_nil in Hg].
    apply alookup_elem in Hb; [|apply survivors_organize_NoDup].
    apply alookup_elem in Hc;
      [|now apply (organize_chapters_NoDup (survivors j) (VStr s))].
    destruct (buildRefs_present _ _ _ _ _ Hb Hc) as [x Hx]. congruence.
Qed.

(** X2. Round trip of a bulk payload whose rows name their books by
    strings: after ingestion into a store with an empty chapter cache,
    [getChapter] of a book and chapter returns exactly the surviving rows
    of that book and chapter, sorted by verse number, and the empty list
    when there is none. *)
Theorem getChapter_after_ingest (w : World) (j : json) (d d' : Data) (s : string) (c : Z) :
  ingestSingle j d = Ok d' ->
  cache d = ∅ ->
  stringNamed j ->
  (getChapter w (VStr s) c d').1 =
    Ok (sortByVerse (ofChapter (VStr s) (Some c) (survivors j))).
Proof.
  intros Hi Hc Hnamed.
  pose proof (ingestSingle_result j d d' Hi) as (_ & Hrefs & Hcache & _).
  destruct (getChapter_single w (VStr s) c d' _ Hrefs) as [-> _].
  - rewrite Hcache, Hc. apply lookup_empty.
  - f_equal. now apply (ingest_refs_lookup j d d').
Qed.

Lemma getChapter_after_ingest_witness :
  ingestSingle samplePayload newData = Ok sampleData /\
  cache newData = ∅ /\
  stringNamed samplePayload /\
  (getChapter offline (VStr "Genesis") 1 sampleData).1 =
    Ok (sortByVerse (ofChapter (VStr "Genesis") (Some 1) (survivors samplePayload))).
Proof.
  assert (ingestSingle samplePayload newData = Ok sampleData) as Hi
    by (vm_compute; reflexivity).
  assert (stringNamed samplePayload) as Hn by (vm_compute; reflexivity).
  split; [exact Hi|]. split; [reflexivity|]. split; [exact Hn|].
  exact (getChapter_after_ingest offline samplePayload newData sampleData
           "Genesis" 1 Hi eq_refl Hn).
Defined.

(** ** The canon table and the payload shapes *)

Lemma toInt32_wrap (z k : Z) :
  toInt32 (Some (z + k * 4294967296)) = toInt32 (Some z).
Proof.
  unfold toInt32. replace (z + k * 4294967296 + 2147483648)
    with (z + 2147483648 + k * 4294967296) by lia.
  now rewrite Z.mod_add by lia.
Qed.

Lemma CANON_66_nonempty (i : nat) (name : string) :
  CANON_66 !! i = Some name -> isEmpty name = false.
Proof.
  intros H. apply list_elem_of_lookup_2 in H.
  assert (forallb (fun n => negb (isEmpty n)) CANON_66 = true) as Hall by reflexivity.
  rewrite forallb_forall in Hall. apply negb_true_iff, Hall.
  now apply list_elem_of_In.
Qed.

(** X4. A book id that is a JSON number stands for the canon name at
    its position when its 32-bit value lies between 1 and 66, and for
    [null] otherwise; the result is never [undefined] or an empty name,
    and two such ids that differ by a multiple of 2^32 stand for the
    same book. *)
Theorem bookFromId_canon (z : Z) :
  let i := toInt32 (Some z) in
  (1 <= i <= 66 ->
     exists name, bookFromId (VNum z) = VStr name /\
                  CANON_66 !! Z.to_nat (i - 1) = Some name /\ name <> "") /\
  (~ 1 <= i <= 66 -> bookFromId (VNum z) = VNull) /\
  (truthy (bookFromId (VNum z)) = true <-> 1 <= i <= 66) /\
  (forall k, isDouble z -> isDouble (z + k * 4294967296) ->
     bookFromId (VNum (z + k * 4294967296)) = bookFromId (VNum z)).
Proof.
  intros i.
  assert (1 <= i <= 66 ->
          exists name, bookFromId (VNum z) = VStr name /\
                       CANON_66 !! Z.to_nat (i - 1) = Some name /\ name <> "") as Hin.
  { intros Hi. unfold bookFromId. cbn [toNumber]. fold i.
    replace ((1 <=? i) && (i <=? 66)) with true by (symmetry; apply andb_true_iff; lia).
    destruct (lookup_lt_is_Some_2 CANON_66 (Z.to_nat (i - 1))) as [name Hn].
    { change (length CANON_66) with 66%nat. lia. }
    rewrite Hn. exists name. split; [reflexivity|]. split; [reflexivity|].
    apply CANON_66_nonempty in Hn. now destruct name. }
  assert (~ 1 <= i <= 66 -> bookFromId (VNum z) = VNull) as Hout.
  { intros Hi. unfold bookFromId. cbn [toNumber]. fold i.
    replace ((1 <=? i) && (i <=? 66)) with false; [reflexivity|].
    symmetry. apply andb_false_iff. lia. }
  split; [exact Hin|]. split; [exact Hout|]. split.
  - split.
    + intros Ht. destruct (decide (1 <= i <= 66)) as [|Hn]; [assumption|].
      rewrite (Hout Hn) in Ht. discriminate.
    + intros Hi. destruct (Hin Hi) as (name & -> & _ & Hne).
      now destruct name.
  - intros k _ _. unfold bookFromId. cbn [toNumber]. now rewrite toInt32_wrap.
Qed.

Lemma fieldArr_arrayFields (k : string) (fields : list (string * jfield))
    (a : list (option (gmap string value))) :
  fieldArr k fields = Some a -> a ∈ arrayFields fields.
Proof.
  unfold arrayFields. induction fields as [|[k' f] rest IH]; [discriminate|].
  cbn [fieldArr omap list_omap snd]. destruct (String.eqb k' k).
  - destruct f as [rows|]; [|discriminate]. intros [= ->]. cbn. apply list_elem_of_here.
  - intros H. specialize (IH H). destruct f; cbn; [apply list_elem_of_further|]; exact IH.
Qed.

(** X5. The rows read from an object payload always come from its
    array-valued fields, and an object with exactly one array-valued
    field yields that array whatever the field is called. *)
Theorem firstArrayInObject_rows (fields : list (string * jfield)) :
  (forall r, r ∈ firstArrayInObject fields ->
     exists a, a ∈ arrayFields fields /\ r ∈ a) /\
  (forall rows, arrayFields fields = [rows] -> firstArrayInObject fields = rows) /\
  (arrayFields fields = [] -> firstArrayInObject fields = []).
Proof.
  assert (forall a, firstArrayInObject fields = a ->
            a ∈ arrayFields fields \/ a = concat (arrayFields fields)) as Hcases.
  { intros a <-. unfold firstArrayInObject.
    repeat match goal with
           | |- context [fieldArr ?k fields] =>
               let E := fresh "E" in
               destruct (fieldArr k fields) eqn:E;
               [left; eapply fieldArr_arrayFields; eassumption|]
           end.
    now right. }
  split; [|split].
  - intros r Hr. destruct (Hcases _ eq_refl) as [Ha | Ha].
    + eauto.
    + rewrite Ha in Hr. apply list_elem_of_In, in_concat in Hr as (a & Ha' & Hr).
      exists a. split; now apply list_elem_of_In.
  - intros rows Hone. destruct (Hcases _ eq_refl) as [Ha | Ha].
    + rewrite Hone in Ha. now apply list_elem_of_singleton in Ha.
    + rewrite Ha, Hone. cbn. apply app_nil_r.
  - intros Hnone. destruct (Hcases _ eq_refl) as [Ha | Ha].
    + rewrite Hnone in Ha. now apply elem_of_nil in Ha.
    + now rewrite Ha, Hnone.
Qed.

(** ** Tokens *)

Lemma lowerChar_space (c : ascii) : isSpace (lowerChar c) = isSpace c.
Proof. destruct c as [[] [] [] [] [] [] [] []]; reflexivity. Qed.

Lemma allChars_space_lower (s : string) :
  allChars isSpace (toLowerCase s) = allChars isSpace s.
Proof.
  induction s as [|c s IH]; [reflexivity|].
  cbn [toLowerCase allChars]. now rewrite lowerChar_space, IH.
Qed.

Lemma splitWs_blank (s : string) (r : bool) :
  allChars isSpace s = true -> Forall (fun x => x = "") (splitWs r s).
Proof.
  revert r. induction s as [|c s IH]; intros r; cbn [allChars splitWs].
  - intros _. now constructor.
  - intros [Hc Hs]%andb_true_iff. rewrite Hc. destruct r; [now apply IH|].
    constructor; [reflexivity | now apply IH].
Qed.

Lemma splitWs_pieces (s : string) (r : bool) :
  Forall (fun x => allChars notSpace x = true) (splitWs r s).
Proof.
  revert r. induction s as [|c s IH]; intros r; cbn [splitWs].
  - now constructor.
  - destruct (isSpace c) eqn:Hc.
    + destruct r; [apply IH|]. constructor; [reflexivity | apply IH].
    + specialize (IH false). destruct (splitWs false s) as [|p ps].
      * constructor; [|constructor]. cbn. unfold notSpace. now rewrite Hc.
      * apply Forall_cons in IH as [Hp Hps]. constructor; [|exact Hps].
        cbn. unfold notSpace at 1. now rewrite Hc, Hp.
Qed.

Lemma splitWs_word (s : string) :
  allChars notSpace s = true -> splitWs false s = [s].
Proof.
  induction s as [|c s IH]; [reflexivity|].
  cbn [allChars splitWs]. intros [Hc Hs]%andb_true_iff.
  unfold notSpace in Hc. apply negb_true_iff in Hc. rewrite Hc.
  now rewrite (IH Hs).
Qed.

Lemma splitWs_finds_word (s : string) (r : bool) :
  allChars isSpace s = false -> exists x, x ∈ splitWs r s /\ x <> "".
Proof.
  revert r. induction s as [|c s IH]; intros r; cbn [allChars splitWs]; [discriminate|].
  destruct (isSpace c) eqn:Hc.
  - cbn [andb]. intros Hs. destruct (IH true Hs) as (x & Hx & Hne).
    exists x. split; [|exact Hne]. destruct r; [exact Hx | now apply list_elem_of_further].
  - intros _. destruct (splitWs false s) as [|p ps].
    + exists (String c ""). split; [apply list_elem_of_here | discriminate].
    + exists (String c p). split; [apply list_elem_of_here | discriminate].
Qed.

Lemma dropEndWhile_word (s : string) :
  allChars notSpace s = true -> dropEndWhile isSpace s = s.
Proof.
  induction s as [|c s IH]; [reflexivity|].
  cbn [allChars dropEndWhile]. intros [Hc Hs]%andb_true_iff.
  unfold notSpace in Hc. apply negb_true_iff in Hc.
  rewrite (IH Hs), Hc. now destruct s.
Qed.

Lemma trim_word (s : string) : allChars notSpace s = true -> trim s = s.
Proof.
  intros H. unfold trim.
  assert (dropWhile isSpace s = s) as ->.
  { destruct s as [|c s]; [reflexivity|]. cbn [allChars] in H.
    apply andb_true_iff in H as [Hc _]. unfold notSpace in Hc.
    apply negb_true_iff in Hc. cbn. now rewrite Hc. }
  now apply dropEndWhile_word.
Qed.

Lemma tokenize_blank (q : string) :
  tokenize q = [] <-> allChars isSpace q = true.
Proof.
  unfold tokenize. split.
  - intros H. destruct (allChars isSpace q) eqn:Hq; [reflexivity|]. exfalso.
    rewrite <- allChars_space_lower in Hq.
    destruct (splitWs_finds_word _ false Hq) as (x & Hx & Hne).
    pose proof (splitWs_pieces (toLowerCase q) false) as Hp.
    rewrite Forall_forall in Hp. specialize (Hp x Hx).
    assert (x ∈ filter (fun x => isEmpty x = false)
                       (trim <$> splitWs false (toLowerCase q))) as Hin.
    { apply list_elem_of_filter. split; [now destruct x|].
      apply list_elem_of_fmap. exists x. split; [now rewrite trim_word | exact Hx]. }
    destruct (filter _ _) as [|y ys]; [now apply elem_of_nil in Hin | discriminate].
  - intros Hq. rewrite <- allChars_space_lower in Hq.
    pose proof (splitWs_blank _ false Hq) as Hb.
    induction Hb as [|x l -> _ IH]; [reflexivity|].
    rewrite fmap_cons. change (trim "") with "".
    rewrite filter_cons_False by (cbn; discriminate).
    destruct (filter _ _) as [|y ys]; [reflexivity | discriminate].
Qed.

(** X6. A query is cut into at most five tokens; each is non-empty, in
    lower case and free of white space, and is the only token of itself;
    there is no token exactly when the query is blank. *)
Theorem tokenize_tokens (q : string) :
  (length (tokenize q) <= 5)%nat /\
  (forall t, t ∈ tokenize q ->
     t <> "" /\ toLowerCase t = t /\ allChars notSpace t = true /\ tokenize t = [t]) /\
  (tokenize q = [] <-> allChars isSpace q = true).
Proof.
  split; [|split].
  - unfold tokenize. rewrite length_take. lia.
  - intros t Ht. destruct (tokenize_elem q t Ht) as [Hne Hlow].
    assert (allChars notSpace t = true) as Hns.
    { unfold tokenize in Ht. apply elem_of_take in Ht as (i & Ht & _).
      apply list_elem_of_lookup_2, list_elem_of_filter in Ht as [_ Ht].
      apply list_elem_of_fmap in Ht as (x & -> & Hx).
      apply allChars_trim.
      pose proof (splitWs_pieces (toLowerCase q) false) as Hp.
      rewrite Forall_forall in Hp. now apply Hp. }
    repeat split; try assumption.
    unfold tokenize. rewrite Hlow, (splitWs_word t Hns). cbn [fmap list_fmap].
    rewrite (trim_word t Hns).
    rewrite filter_cons_True by now destruct t.
    reflexivity.
  - apply tokenize_blank.
Qed.

(** X7. A blank query is answered with no hit at once: no chapter is
    asked for and neither the worker nor the store changes, whatever the
    mode of the store. *)
Theorem blank_query_finds_nothing (w : World) (m : Meta) (q : string) (limit : Z) (s : Sys) :
  allChars isSpace q = true ->
  search w m q limit s = (Some [], s).
Proof.
  intros Hq. apply tokenize_blank in Hq. unfold search. now rewrite Hq.
Qed.

Lemma blank_query_finds_nothing_witness :
  allChars isSpace "  " = true /\
  search splitWorld (indexMeta splitData) "  " 100
         {| store := splitData; chapterCache := ∅ |}
    = (Some [], {| store := splitData; chapterCache := ∅ |}).
Proof.
  split; [reflexivity|].
  apply (blank_query_finds_nothing splitWorld (indexMeta splitData) "  " 100).
  reflexivity.
Defined.

(** ** Escaping *)

Lemma code_inj (c c' : ascii) : code c = code c' -> c = c'.
Proof.
  unfold code. intros H.
  rewrite <- (ascii_N_embedding c), <- (ascii_N_embedding c'). now rewrite H.
Qed.

Lemma escChar_cases (c : ascii) :
  (code c = 38%N /\ escChar c = "&amp;") \/
  (code c = 60%N /\ escChar c = "&lt;") \/
  (code c = 62%N /\ escChar c = "&gt;") \/
  (code c = 34%N /\ escChar c = "&quot;") \/
  (isHtmlSensitive c = false /\ escChar c = String c "").
Proof.
  destruct c as [[] [] [] [] [] [] [] []];
    first [ left; split; reflexivity
          | right; left; split; reflexivity
          | right; right; left; split; reflexivity
          | right; right; right; left; split; reflexivity
          | right; right; right; right; split; reflexivity ].
Qed.

Lemma escChar_noMarkup (c : ascii) : noMarkup (escChar c) = true.
Proof. destruct c as [[] [] [] [] [] [] [] []]; reflexivity. Qed.

Lemma esc_noMarkup (s : string) : noMarkup (esc s) = true.
Proof.
  unfold noMarkup. induction s as [|c s IH]; [reflexivity|].
  cbn [esc]. rewrite allChars_app, IH.
  pose proof (escChar_noMarkup c) as Hc. unfold noMarkup in Hc. now rewrite Hc.
Qed.

Lemma esc_inj (s s' : string) : esc s = esc s' -> s = s'.
Proof.
  revert s'. induction s as [|c s IH]; intros [|c' s']; cbn [esc].
  - reflexivity.
  - destruct (escChar_cases c') as [[_ ->]|[[_ ->]|[[_ ->]|[[_ ->]|[_ ->]]]]];
      sapp; discriminate.
  - destruct (escChar_cases c) as [[_ ->]|[[_ ->]|[[_ ->]|[[_ ->]|[_ ->]]]]];
      sapp; discriminate.
  - destruct (escChar_cases c) as [[Hc ->]|[[Hc ->]|[[Hc ->]|[[Hc ->]|[Hc ->]]]]];
    destruct (escChar_cases c') as [[Hc' ->]|[[Hc' ->]|[[Hc' ->]|[[Hc' ->]|[Hc' ->]]]]];
      sapp; intros H; try discriminate H;
      try (injection H as H; apply IH in H; subst s';
           f_equal; apply code_inj; congruence);
      try (injection H as -> H; discriminate Hc);
      try (injection H as <- H; discriminate Hc').
    injection H as -> H. now rewrite (IH _ H).
Qed.

(** X8. Escaping leaves none of the characters [<], [>] and the double
    quote in its output, and loses nothing: two texts with the same
    escaped form are the same text. *)
Theorem esc_safe_and_injective :
  (forall s, noMarkup (esc s) = true) /\
  (forall s s', esc s = esc s' -> s = s').
Proof.
  split; [exact esc_noMarkup | exact esc_inj].
Qed.

(** ** Highlighting *)

Lemma lowerChar_markup (c : ascii) : isMarkup (lowerChar c) = isMarkup c.
Proof. destruct c as [[] [] [] [] [] [] [] []]; reflexivity. Qed.

Lemma noMarkup_lower (s : string) : noMarkup (toLowerCase s) = noMarkup s.
Proof.
  unfold noMarkup. induction s as [|c s IH]; [reflexivity|].
  cbn [toLowerCase allChars]. now rewrite lowerChar_markup, IH.
Qed.

Lemma ciSubstring_noMarkup (t s : string) :
  ciSubstring t s -> noMarkup s = true -> noMarkup t = true.
Proof.
  intros (pre & u & post & -> & Hu) Hs. unfold noMarkup in Hs.
  rewrite !allChars_app in Hs.
  apply andb_true_iff in Hs as [_ [Hu' _]%andb_true_iff].
  rewrite <- noMarkup_lower, <- Hu, noMarkup_lower. exact Hu'.
Qed.

(** X9. Tokens that hold [<], [>] or a double quote mark nothing as
    long as no mark has been written: with such tokens in front of the
    others the preview is that of the others alone, and when every
    token holds one of these characters it is the escaped text. Such a
    token that comes after a plain token can still match inside the
    tags written for that one. *)
Theorem leading_markup_tokens_mark_nothing (txt : string) (front rest : list string) :
  forallb (fun t => negb (noMarkup t)) front = true ->
  highlight txt (front ++ rest) = highlight txt rest /\
  highlight txt front = esc txt.
Proof.
  intros Hfront.
  assert (fold_left (fun out t => markFrom t 0 out) front (esc txt) = esc txt) as H.
  { induction front as [|t ts IH]; [reflexivity|].
    cbn [forallb fold_left] in *. apply andb_true_iff in Hfront as [Ht Hts].
    rewrite markFrom_none; [now apply IH| |].
    - intros ->. discriminate Ht.
    - intros Hci. apply ciSubstring_noMarkup in Hci; [|apply esc_noMarkup].
      rewrite Hci in Ht. discriminate. }
  unfold highlight. split; [|exact H]. now rewrite fold_left_app, H.
Qed.

Lemma leading_markup_tokens_mark_nothing_witness :
  forallb (fun t => negb (noMarkup t)) (tokenize "<Beginning>") = true /\
  highlight (text quotedVerse) (tokenize "<Beginning>" ++ tokenize "word")
    = highlight (text quotedVerse) (tokenize "word") /\
  highlight (text quotedVerse) (tokenize "<Beginning>") = esc (text quotedVerse).
Proof.
  split; [reflexivity|].
  apply (leading_markup_tokens_mark_nothing (text quotedVerse) (tokenize "<Beginning>")
           (tokenize "word")).
  reflexivity.
Defined.

(** A token made of markup characters, after a plain one: it is marked
    inside the tags that the plain one brought. *)
Example markup_token_after_a_plain_one :
  highlight "a" ["a"; "<mark>"] = "<mark><mark></mark>a</mark>".
Proof. reflexivity. Qed.

(** ** Chapter keys and the chapter cache *)

(** X10. The key of a chapter tells the book, as a string, and the
    chapter number apart: two keys agree only when both do, whatever
    colons the name of the book holds. *)
Theorem chapter_keys_are_unambiguous (b b' : value) (c c' : num) :
  refKey b c = refKey b' c' <-> toStr b = toStr b' /\ c = c'.
Proof.
  split; [apply refKey_inj|].
  intros [Hb ->]. unfold refKey. now rewrite Hb.
Qed.

Lemma orElse_nonzero (a : num) (y : Z) : y <> 0 -> orElse a y <> 0.
Proof.
  intros Hy. unfold orElse. destruct a as [z|]; [|exact Hy].
  destruct (Z.eqb_spec z 0); assumption.
Qed.

Lemma orElse_Some (z y : Z) : z <> 0 -> orElse (Some z) y = z.
Proof. intros Hz. unfold orElse. destruct (Z.eqb_spec z 0); [contradiction | reflexivity]. Qed.

Lemma normalize_count_nonzero (d : Data) (b : value) (jb : perBook) :
  (normalizePerBook d b jb).1 <> 0.
Proof.
  unfold normalizePerBook. cbn [fst].
  repeat apply orElse_nonzero. lia.
Qed.

Lemma normalize_logFetch (u : url) (d : Data) (b : value) (jb : perBook) :
  normalizePerBook (logFetch u d) b jb = normalizePerBook d b jb.
Proof. reflexivity. Qed.

(** What a call of [getChapter] in split mode comes to when the file of
    the book gives a payload. *)
Lemma getChapter_split_ok (w : World) (b : value) (c : Z) (d : Data)
    (raw : string) (jb : perBook) :
  singleByRef d = None ->
  cache d !! refKey b (Some c) = None ->
  bookFile w (toStr b) = Body raw (Some jb) ->
  jbTruthy jb = true ->
  getChapter w b c d =
    (Ok (default [] ((normalizePerBook d b jb).2 !! Some c)),
     setCache (refKey b (Some c)) (default [] ((normalizePerBook d b jb).2 !! Some c))
       (setChapterCount b (normalizePerBook d b jb).1 (logFetch (BookFile (toStr b)) d))).
Proof.
  intros Hs Hc Hf Hj. unfold getChapter, fetchMaybe. rewrite Hc, Hs, Hf, Hj.
  rewrite normalize_logFetch. now destruct (normalizePerBook d b jb).
Qed.

(** X11. A call of [getChapter] that throws leaves the store as it
    was but for the request it made: nothing is cached, so the same call
    asks for the file of the book again and throws the same error. *)
Theorem failed_getChapter_is_not_cached (w : World) (b : value) (c : Z) (d : Data)
    (e : error) :
  (getChapter w b c d).1 = Throw e ->
  (getChapter w b c d).2 = logFetch (BookFile (toStr b)) d /\
  getChapter w b c (logFetch (BookFile (toStr b)) d) =
    (Throw e, logFetch (BookFile (toStr b)) (logFetch (BookFile (toStr b)) d)).
Proof.
  unfold getChapter. cbn [logFetch cache singleByRef].
  destruct (cache d !! refKey b (Some c)); [discriminate|].
  destruct (singleByRef d); [discriminate|].
  destruct (fetchMaybe w (toStr b)) as [[jb|]|e'].
  - destruct (jbTruthy jb).
    + rewrite !normalize_logFetch. destruct (normalizePerBook d b jb). discriminate.
    + cbn. intros [= <-]. now split.
  - cbn. intros [= <-]. now split.
  - cbn. intros [= <-]. now split.
Qed.

Lemma failed_getChapter_is_not_cached_witness :
  (getChapter splitWorld (VStr "Exodus") 1 splitData).1 = Throw SyntaxError /\
  (getChapter splitWorld (VStr "Exodus") 1 splitData).2
    = logFetch (BookFile "Exodus") splitData /\
  getChapter splitWorld (VStr "Exodus") 1 (logFetch (BookFile "Exodus") splitData) =
    (Throw SyntaxError,
     logFetch (BookFile "Exodus") (logFetch (BookFile "Exodus") splitData)).
Proof.
  assert ((getChapter splitWorld (VStr "Exodus") 1 splitData).1 = Throw SyntaxError) as H
    by (vm_compute; reflexivity).
  split; [exact H|].
  exact (failed_getChapter_is_not_cached splitWorld (VStr "Exodus") 1 splitData
           SyntaxError H).
Defined.

Lemma getChapter_touches_little (w : World) (b : value) (c : Z) (d : Data) :
  books (getChapter w b c d).2 = books d /\
  singleByRef (getChapter w b c d).2 = singleByRef d /\
  (forall k, k <> refKey b (Some c) ->
     cache (getChapter w b c d).2 !! k = cache d !! k) /\
  (forall b', b' <> b ->
     bookChapters (getChapter w b c d).2 !! b' = bookChapters d !! b') /\
  fetched d `prefix_of` fetched (getChapter w b c d).2 /\
  (is_Some (singleByRef d) ->
     fetched (getChapter w b c d).2 = fetched d /\
     bookChapters (getChapter w b c d).2 = bookChapters d /\
     isThrow (getChapter w b c d).1 = false).
Proof.
  unfold getChapter.
  destruct (cache d !! refKey b (Some c)) as [vs|] eqn:Hc.
  { cbn. do 5 (split; [reflexivity|]). intros _. now repeat split. }
  destruct (singleByRef d) as [refs|] eqn:Hs.
  { cbn. split; [reflexivity|]. split; [exact Hs|].
    split; [intros k Hk; now rewrite lookup_insert_ne|].
    split; [reflexivity|]. split; [reflexivity|]. intros _. now repeat split. }
  assert (forall (r : exc (list Verse)),
    books (r, logFetch (BookFile (toStr b)) d).2 = books d /\
    singleByRef (r, logFetch (BookFile (toStr b)) d).2 = None /\
    (forall k, k <> refKey b (Some c) ->
       cache (r, logFetch (BookFile (toStr b)) d).2 !! k = cache d !! k) /\
    (forall b', b' <> b ->
       bookChapters (r, logFetch (BookFile (toStr b)) d).2 !! b' = bookChapters d !! b') /\
    fetched d `prefix_of` fetched (r, logFetch (BookFile (toStr b)) d).2 /\
    (is_Some (@None (gmap string (list Verse))) ->
       fetched (r, logFetch (BookFile (toStr b)) d).2 = fetched d /\
       bookChapters (r, logFetch (BookFile (toStr b)) d).2 = bookChapters d /\
       isThrow (r, logFetch (BookFile (toStr b)) d).1 = false)) as Hthrow.
  { intros r. cbn. split; [reflexivity|]. split; [exact Hs|].
    split; [reflexivity|]. split; [reflexivity|].
    split; [apply prefix_app_r; reflexivity|]. intros [? ?]; discriminate. }
  destruct (fetchMaybe w (toStr b)) as [[jb|]|e']; try apply Hthrow.
  destruct (jbTruthy jb); [|apply Hthrow].
  rewrite normalize_logFetch. destruct (normalizePerBook d b jb) as [count chapters].
  cbn. split; [reflexivity|]. split; [exact Hs|].
  split; [intros k Hk; now rewrite lookup_insert_ne|].
  split.
  { intros b' Hb'. destruct (decide _); [reflexivity|]. now rewrite lookup_insert_ne. }
  split; [apply prefix_app_r; reflexivity|]. intros [? ?]; discriminate.
Qed.

(** X12. Whatever it returns, [getChapter] leaves the list of books and
    the mode of the store alone, touches no cache entry but the one of
    the chapter asked for and no chapter count but the one of its book,
    and only adds to the requests made; with a bulk payload it makes no
    request, changes no count and does not throw. *)
Theorem getChapter_frame (w : World) (b : value) (c : Z) (d : Data) :
  books (getChapter w b c d).2 = books d /\
  singleByRef (getChapter w b c d).2 = singleByRef d /\
  (forall k, k <> refKey b (Some c) ->
     cache (getChapter w b c d).2 !! k = cache d !! k) /\
  (forall b', b' <> b ->
     bookChapters (getChapter w b c d).2 !! b' = bookChapters d !! b') /\
  fetched d `prefix_of` fetched (getChapter w b c d).2 /\
  (is_Some (singleByRef d) ->
     fetched (getChapter w b c d).2 = fetched d /\
     bookChapters (getChapter w b c d).2 = bookChapters d /\
     isThrow (getChapter w b c d).1 = false).
Proof.
  apply getChapter_touches_little.
Qed.

(** X13. A chapter that [getChapter] returned is in the cache under its
    key, and from then on the same call returns it again without a
    request and without changing the store, whatever has become of the
    network. *)
Theorem obtained_chapter_is_served_offline (w w' : World) (b : value) (c : Z)
    (d d1 : Data) (vs : list Verse) :
  getChapter w b c d = (Ok vs, d1) ->
  cache d1 !! refKey b (Some c) = Some vs /\
  getChapter w' b c d1 = (Ok vs, d1).
Proof.
  intros H.
  assert (cache d1 !! refKey b (Some c) = Some vs) as Hc.
  { revert H. unfold getChapter.
    destruct (cache d !! refKey b (Some c)) as [vs0|] eqn:Hc.
    { now intros [= <- <-]. }
    destruct (singleByRef d) as [refs|].
    { intros [= <- <-]. cbn. apply lookup_insert_eq. }
    destruct (fetchMaybe w (toStr b)) as [[jb|]|e']; try discriminate.
    destruct (jbTruthy jb); [|discriminate].
    destruct (normalizePerBook _ b jb) as [count chapters].
    intros [= <- <-]. cbn. apply lookup_insert_eq. }
  split; [exact Hc|]. unfold getChapter. now rewrite Hc.
Qed.

Lemma obtained_chapter_is_served_offline_witness :
  let first := getChapter splitWorld (VStr "Genesis") 2 splitData in
  exists vs,
    first = (Ok vs, first.2) /\
    cache first.2 !! refKey (VStr "Genesis") (Some 2) = Some vs /\
    getChapter offline (VStr "Genesis") 2 first.2 = (Ok vs, first.2).
Proof.
  intros first.
  destruct first as [r d1] eqn:E. destruct r as [vs|e].
  - exists vs. split; [reflexivity|].
    exact (obtained_chapter_is_served_offline splitWorld offline (VStr "Genesis") 2
             splitData d1 vs E).
  - exfalso.
    assert (isThrow (getChapter splitWorld (VStr "Genesis") 2 splitData).1 = false) as H
      by (vm_compute; reflexivity).
    unfold first in E. rewrite E in H. discriminate H.
Defined.

(** ** Chapters of a book file *)

Lemma fold_left_invariant {A B} (P : A -> Prop) (f : A -> B -> A) (l : list B) (a : A) :
  P a -> (forall a x, P a -> P (f a x)) -> P (fold_left f l a).
Proof. revert a. induction l as [|x l IH]; intros a Ha Hf; cbn; auto. Qed.

Lemma verseOfObj_label (b : value) (cnum : num) (v : gmap string value) :
  book (verseOfObj b cnum v) = b /\ chapter (verseOfObj b cnum v) = cnum.
Proof. unfold verseOfObj. now destruct (stripMarkers _ _). Qed.

Lemma verseOfEntry_label (b : value) (cnum : num) (kv : string * value) (v : Verse) :
  verseOfEntry b cnum kv = Some v ->
  book v = b /\ chapter v = cnum /\ is_Some (verse v).
Proof.
  unfold verseOfEntry. destruct (digits kv.1) as [n|]; [|discriminate].
  destruct (stripMarkers _ _). intros [= <-]. cbn. eauto.
Qed.

Lemma labelled_insert (b : value) (chapters : gmap num (list Verse)) (c : num)
    (vs : list Verse) :
  labelled b chapters ->
  Forall (fun v => book v = b /\ chapter v = c) vs ->
  labelled b (<[c := sortByVerse vs]> chapters).
Proof.
  intros Hl Hvs c' vs' Hlook. destruct (decide (c = c')) as [<-|Hne].
  - rewrite lookup_insert_eq in Hlook. injection Hlook as <-.
    now rewrite sortByVerse_perm.
  - rewrite lookup_insert_ne in Hlook by exact Hne. now apply Hl.
Qed.

Lemma normalize_labelled (d : Data) (b : value) (jb : perBook) :
  labelled b (normalizePerBook d b jb).2.
Proof.
  unfold normalizePerBook. cbn [snd].
  assert (labelled b ∅) as Hempty by (intros c vs H; now rewrite lookup_empty in H).
  destruct jb as [chs declared | entries | v]; [| |exact Hempty].
  - apply fold_left_invariant; [exact Hempty|].
    intros m ch Hm. unfold addChapterObj. apply labelled_insert; [exact Hm|].
    apply Forall_fmap, Forall_true. intros r. apply verseOfObj_label.
  - apply fold_left_invariant; [exact Hempty|].
    intros m kv Hm. unfold addEntry.
    destruct (stringToNumber kv.1) as [c|]; [|exact Hm].
    destruct kv.2 as [es|]; [|exact Hm].
    apply labelled_insert; [exact Hm|].
    apply Forall_forall. intros v Hv.
    apply list_elem_of_omap in Hv as (kv' & _ & Hv).
    apply verseOfEntry_label in Hv. tauto.
Qed.

(** The chapters of a keyed payload are sorted by verse number. *)
Lemma keyed_sorted (d : Data) (b : value) (entries : list (string * bentry))
    (c : num) (vs : list Verse) :
  (normalizePerBook d b (Keyed entries)).2 !! c = Some vs ->
  StronglySorted verseLe vs.
Proof.
  unfold normalizePerBook. cbn [snd]. revert c vs.
  apply (fold_left_invariant
           (fun m : gmap num (list Verse) =>
              forall c vs, m !! c = Some vs -> StronglySorted verseLe vs)).
  - intros c vs H. now rewrite lookup_empty in H.
  - intros m kv Hm c vs. unfold addEntry.
    destruct (stringToNumber kv.1) as [c0|]; [|apply Hm].
    destruct kv.2 as [es|]; [|apply Hm].
    destruct (decide (Some c0 = c)) as [<-|Hne].
    + rewrite lookup_insert_eq. intros [= <-]. apply sortByVerse_sorted.
      apply Forall_forall. intros v Hv.
      apply list_elem_of_omap in Hv as (kv' & _ & Hv).
      apply verseOfEntry_label in Hv. tauto.
    + rewrite lookup_insert_ne by exact Hne. apply Hm.
Qed.

(** X14. In split mode the verses that [getChapter] returns for a
    chapter not yet cached all bear the book and the chapter asked for,
    and when the file of the book is keyed by chapter and verse numbers
    they are sorted by verse. *)
Theorem split_chapter_is_labelled (w : World) (b : value) (c : Z) (d : Data)
    (vs : list Verse) :
  singleByRef d = None ->
  cache d !! refKey b (Some c) = None ->
  (getChapter w b c d).1 = Ok vs ->
  Forall (fun v => book v = b /\ chapter v = Some c) vs /\
  (forall raw entries, bookFile w (toStr b) = Body raw (Some (Keyed entries)) ->
     StronglySorted verseLe vs).
Proof.
  intros Hs Hc. unfold getChapter. rewrite Hc, Hs. unfold fetchMaybe.
  destruct (bookFile w (toStr b)) as [| |raw [jb|]]; try discriminate.
  destruct (jbTruthy jb) eqn:Hj; [|discriminate].
  rewrite normalize_logFetch.
  pose proof (normalize_labelled d b jb) as Hl.
  pose proof (keyed_sorted d b) as Hk.
  destruct (normalizePerBook d b jb) as [count chapters] eqn:En.
  cbn [fst snd] in *. intros [= <-].
  destruct (chapters !! Some c) as [vs|] eqn:Hlook; cbn.
  - split; [now apply (Hl (Some c))|].
    intros raw' entries [= _ ->]. apply (Hk entries (Some c)).
    now rewrite En.
  - split; [constructor|]. intros. constructor.
Qed.

Lemma split_chapter_is_labelled_witness :
  let vs :=
    default [] ((normalizePerBook splitData (VStr "Genesis") genesisFile).2 !! Some 1) in
  singleByRef splitData = None /\
  cache splitData !! refKey (VStr "Genesis") (Some 1) = None /\
  (getChapter splitWorld (VStr "Genesis") 1 splitData).1 = Ok vs /\
  Forall (fun v => book v = VStr "Genesis" /\ chapter v = Some 1) vs /\
  (forall raw entries,
     bookFile splitWorld (toStr (VStr "Genesis")) = Body raw (Some (Keyed entries)) ->
     StronglySorted verseLe vs).
Proof.
  intros vs.
  assert (singleByRef splitData = None) as Hs by (vm_compute; reflexivity).
  assert (cache splitData !! refKey (VStr "Genesis") (Some 1) = None) as Hc
    by (vm_compute; reflexivity).
  assert ((getChapter splitWorld (VStr "Genesis") 1 splitData).1 = Ok vs) as Hg.
  { rewrite (getChapter_split_ok splitWorld (VStr "Genesis") 1 splitData "{...}"
               genesisFile Hs Hc eq_refl eq_refl). reflexivity. }
  split; [exact Hs|]. split; [exact Hc|]. split; [exact Hg|].
  exact (split_chapter_is_labelled splitWorld (VStr "Genesis") 1 splitData vs Hs Hc Hg).
Defined.

(** X15. In split mode a successful [getChapter] sets the chapter count
    of the book: to the number of chapters found in its file when there
    is one, and otherwise to the count the file declares, to the count
    known before, or to 1, in that order; the count is never 0. *)
Theorem split_fetch_sets_the_chapter_count (w : World) (b : value) (c : Z) (d : Data)
    (raw : string) (jb : perBook) :
  singleByRef d = None ->
  cache d !! refKey b (Some c) = None ->
  bookFile w (toStr b) = Body raw (Some jb) ->
  jbTruthy jb = true ->
  let d' := (getChapter w b c d).2 in
  let chapters := (normalizePerBook d b jb).2 in
  let declared :=
    match jb with
    | WithChapters _ v => toNumber v
    | Keyed entries => toNumber (entryPrim "chapterCount" entries)
    | Prim _ => None
    end in
  chapterCount d' b <> 0 /\
  (size chapters <> 0%nat -> chapterCount d' b = Z.of_nat (size chapters)) /\
  (size chapters = 0%nat ->
     chapterCount d' b = orElse declared (chapterCount d b)).
Proof.
  intros Hs Hc Hf Hj d' chapters declared.
  assert (chapterCount d' b = (normalizePerBook d b jb).1) as Hcount.
  { unfold d'. rewrite (getChapter_split_ok w b c d raw jb Hs Hc Hf Hj).
    cbn [snd]. pose proof (normalize_count_nonzero d b jb) as Hnz.
    set (n := (normalizePerBook d b jb).1) in *.
    unfold chapterCount, setCache, setChapterCount.
    cbn [bookChapters logFetch].
    destruct (decide _) as [E|E].
    - rewrite E. cbn [default]. now apply orElse_Some.
    - rewrite lookup_insert_eq. cbn [default]. now apply orElse_Some. }
  rewrite Hcount. split; [apply normalize_count_nonzero|].
  unfold chapters, declared, normalizePerBook. cbn [fst snd].
  split.
  - intros Hn. apply orElse_Some. lia.
  - intros Hn. rewrite Hn. reflexivity.
Qed.

Lemma split_fetch_sets_the_chapter_count_witness :
  singleByRef splitData = None /\
  cache splitData !! refKey (VStr "Genesis") (Some 1) = None /\
  chapterCount splitData (VStr "Genesis") = 50 /\
  chapterCount (getChapter splitWorld (VStr "Genesis") 1 splitData).2 (VStr "Genesis") = 2.
Proof.
  assert (singleByRef splitData = None) as Hs by (vm_compute; reflexivity).
  assert (cache splitData !! refKey (VStr "Genesis") (Some 1) = None) as Hc
    by (vm_compute; reflexivity).
  split; [exact Hs|]. split; [exact Hc|]. split; [vm_compute; reflexivity|].
  destruct (split_fetch_sets_the_chapter_count splitWorld (VStr "Genesis") 1 splitData
              "{...}" genesisFile Hs Hc eq_refl eq_refl) as (_ & Hsize & _).
  rewrite Hsize; vm_compute; [reflexivity | discriminate].
Defined.

(** ** Metadata, book names and references *)

(** X16. The metadata handed to the worker lists one chapter count per
    book, the count that [chapterCount] gives for it; the count the
    worker reads at an index is never 0, and is 1 past the end. *)
Theorem indexMeta_counts (d : Data) :
  length (chapterCounts (indexMeta d)) = length (metaBooks (indexMeta d)) /\
  (forall i b, metaBooks (indexMeta d) !! i = Some b ->
     chapterCounts (indexMeta d) !! i = Some (chapterCount d b) /\
     countAt (indexMeta d) i = chapterCount d b) /\
  (forall i, countAt (indexMeta d) i <> 0) /\
  (forall i, (length (books d) <= i)%nat -> countAt (indexMeta d) i = 1).
Proof.
  unfold indexMeta. cbn [chapterCounts metaBooks]. split; [|split; [|split]].
  - apply length_fmap.
  - intros i b Hb. split; [now rewrite list_lookup_fmap, Hb|].
    now apply countAt_indexMeta.
  - intros i. unfold countAt. now apply orElse_nonzero.
  - intros i Hi. unfold countAt. cbn [chapterCounts].
    rewrite lookup_ge_None_2; [reflexivity|]. now rewrite length_fmap.
Qed.

Lemma find_unique {A} (p : A -> bool) (l : list A) (b : A) :
  b ∈ l -> p b = true -> (forall x, x ∈ l -> p x = true -> x = b) ->
  List.find p l = Some b.
Proof.
  induction l as [|y l IH]; intros Hb Hp Hu; [now apply elem_of_nil in Hb|].
  cbn. destruct (p y) eqn:Hy.
  - f_equal. apply Hu; [left | exact Hy].
  - apply elem_of_cons in Hb as [-> | Hb]; [congruence|].
    apply IH; [exact Hb | exact Hp|]. intros x Hx. apply Hu. now right.
Qed.

Lemma NoDup_fmap_elem {A B} (f : A -> B) (l : list A) (x y : A) :
  NoDup (f <$> l) -> x ∈ l -> y ∈ l -> f x = f y -> x = y.
Proof.
  intros Hnd Hx Hy Hf.
  apply list_elem_of_lookup_1 in Hx as [i Hi], Hy as [k Hk].
  assert (i = k) as ->.
  { eapply NoDup_lookup; [exact Hnd| |].
    - rewrite list_lookup_fmap, Hi. reflexivity.
    - rewrite list_lookup_fmap, Hk. cbn. now rewrite Hf. }
  congruence.
Qed.

(** X17. When the normalised names of the books are pairwise distinct, a
    query whose normalised form is that of a book resolves to this book,
    also when an earlier book only starts with it; a book of the store
    so resolves to itself. *)
Theorem resolveBook_exact (d : Data) (q b : value) :
  NoDup (norm <$> books d) ->
  b ∈ books d ->
  truthy b = true ->
  norm b = norm q ->
  resolveBook d q = b /\ resolveBook d b = b.
Proof.
  intros Hnd Hb Ht Hn.
  assert (forall q', norm b = norm q' -> resolveBook d q' = b) as H.
  { intros q' Hq. unfold resolveBook, findValue.
    rewrite (find_unique _ (books d) b Hb).
    - cbn. now rewrite Ht.
    - now apply String.eqb_eq.
    - intros x Hx Hxn%String.eqb_eq.
      apply (NoDup_fmap_elem norm (books d)); [assumption..|congruence]. }
  split; apply H; [exact Hn | reflexivity].
Qed.

Lemma resolveBook_exact_witness :
  books sampleData = [VStr "Genesis"; VStr "John"] /\
  resolveBook sampleData (VStr "J O H N") = VStr "John" /\
  resolveBook sampleData (VStr "John") = VStr "John".
Proof.
  split; [vm_compute; reflexivity|].
  apply (resolveBook_exact sampleData (VStr "J O H N") (VStr "John")).
  - refine (bool_decide_unpack _ _). vm_compute. reflexivity.
  - refine (bool_decide_unpack _ _). vm_compute. reflexivity.
  - reflexivity.
  - vm_compute. reflexivity.
Defined.

(** X18. A token that the alias table knows is never looked up among
    the books: when the aliased book is not in the store, or the key is
    an inherited property of the table, there is no reference, even if
    the store has a book that the token names. *)
Theorem parseRef_alias_has_no_fallback (d : Data) (s tok chap : string)
    (vs : option string) :
  s <> "" ->
  matchRef s = Some (tok, chap, vs) ->
  deadAlias d (toLowerCase (cleanToken tok)) ->
  parseRef d s = None.
Proof.
  intros Hs Hm Hdead. rewrite (parseRef_unfold d s tok chap vs Hs Hm).
  unfold deadAlias in Hdead.
  destruct (aliasOf (toLowerCase (cleanToken tok))) as [name| |].
  - now rewrite Hdead.
  - reflexivity.
  - contradiction.
Qed.

Lemma parseRef_alias_has_no_fallback_witness :
  resolveBook aliasNamedData (VStr "jn") = VStr "Jn" /\
  hasBook aliasNamedData (VStr "Jn") = true /\
  parseRef aliasNamedData "jn 3" = None.
Proof.
  split; [vm_compute; reflexivity|]. split; [vm_compute; reflexivity|].
  apply (parseRef_alias_has_no_fallback aliasNamedData "jn 3" "jn" "3" None).
  - discriminate.
  - vm_compute. reflexivity.
  - vm_compute. reflexivity.
Defined.

(** ** More about the search loop *)

(** X19. With a bulk payload, a limit of at least 1 bounds the number of
    hits, and a search with a larger limit returns the hits of the
    smaller one followed by more. *)
Theorem raising_the_limit_appends_hits (w : World) (refs : gmap string (list Verse))
    (m : Meta) (q : string) (n n' : Z) (s : Sys) :
  coherent refs s ->
  n <= n' ->
  exists hits hits' s1 s2,
    search w m q n s = (Some hits, s1) /\
    search w m q n' s = (Some hits', s2) /\
    hits `prefix_of` hits' /\
    (1 <= n -> Z.of_nat (length hits) <= n).
Proof.
  apply search_limit_prefix.
Qed.

Lemma raising_the_limit_appends_hits_witness :
  exists hits hits' s1 s2,
    search offline (indexMeta sampleData) "the" 1 sampleSys = (Some hits, s1) /\
    search offline (indexMeta sampleData) "the" 2 sampleSys = (Some hits', s2) /\
    hits `prefix_of` hits' /\
    (1 <= 1 -> Z.of_nat (length hits) <= 1).
Proof.
  apply (raising_the_limit_appends_hits offline sampleRefs (indexMeta sampleData)
           "the" 1 2 sampleSys); [exact sample_coherent | lia].
Defined.

(** X20. In split mode a search never returns when the file of the
    first book cannot be had: the first chapter is asked for, the page
    fails to get it and sends no answer. *)
Theorem search_stalls_when_the_first_book_is_missing (w : World) (m : Meta) (q : string)
    (limit : Z) (s : Sys) (b : value) (bs : list value) :
  metaBooks m = b :: bs ->
  tokenize q <> [] ->
  1 <= countAt m 0 ->
  singleByRef (store s) = None ->
  chapterCache s !! refKey b (Some 1) = None ->
  cache (store s) !! refKey b (Some 1) = None ->
  noPayload w b = true \/ badBody w b = true ->
  (search w m q limit s).1 = None.
Proof.
  intros Hm Hq Hcount Hs Hw Hc Hbad. unfold search.
  destruct (tokenize q) as [|t ts]; [contradiction|].
  rewrite Hm. cbn [imap scanBooks]. unfold chaptersUpTo.
  rewrite seqZ_cons by lia. cbn [scanChapters].
  unfold workerGetChapter. rewrite Hw.
  assert (exists e, (getChapter w b 1 (store s)).1 = Throw e) as [e He].
  { destruct Hbad as [Hn | Hb].
    - exists (MissingData b). apply getChapter_throws. auto.
    - exists SyntaxError. apply getChapter_throws. auto. }
  destruct (getChapter w b 1 (store s)) as [r d']. cbn in He. subst r.
  reflexivity.
Qed.

Lemma search_stalls_when_the_first_book_is_missing_witness :
  (search offline (indexMeta splitData) "beginning" 100
          {| store := splitData; chapterCache := ∅ |}).1 = None.
Proof.
  apply (search_stalls_when_the_first_book_is_missing offline (indexMeta splitData)
           "beginning" 100 {| store := splitData; chapterCache := ∅ |}
           (VStr "Genesis") (VStr <$> tail CANON_66)).
  - vm_compute. reflexivity.
  - vm_compute. discriminate.
  - vm_compute. discriminate.
  - vm_compute. reflexivity.
  - vm_compute. reflexivity.
  - vm_compute. reflexivity.
  - left. vm_compute. reflexivity.
Defined.

Lemma onlyCaches_refl (s : Sys) : onlyCaches s s.
Proof. now repeat split. Qed.

Lemma onlyCaches_trans (s1 s2 s3 : Sys) :
  onlyCaches s1 s2 -> onlyCaches s2 s3 -> onlyCaches s1 s3.
Proof.
  intros (A1 & A2 & A3 & A4) (B1 & B2 & B3 & B4).
  repeat split; congruence.
Qed.

Lemma workerGetChapter_bulk (w : World) (b : value) (c : Z) (s : Sys) :
  is_Some (singleByRef (store s)) ->
  exists vs s', workerGetChapter w b c s = (Some vs, s') /\ onlyCaches s s'.
Proof.
  intros Hs. unfold workerGetChapter.
  destruct (chapterCache s !! refKey b (Some c)) as [vs|].
  { exists vs, s. split; [reflexivity | apply onlyCaches_refl]. }
  pose proof (getChapter_touches_little w b c (store s)) as (Hb & Hr & _ & _ & _ & Hbulk).
  destruct (Hbulk Hs) as (Hf & Hbc & Hok).
  destruct (getChapter w b c (store s)) as [[vs|e] d']; [|discriminate Hok].
  eexists _, _. split; [reflexivity|]. now repeat split.
Qed.

Lemma onlyCaches_bulk (s s' : Sys) :
  onlyCaches s s' -> is_Some (singleByRef (store s)) -> is_Some (singleByRef (store s')).
Proof. intros (_ & _ & -> & _). auto. Qed.

Lemma scanChapters_bulk (w : World) (tokens : list string) (limit : Z) (b : value)
    (cs : list Z) :
  forall (results : list Hit) (s : Sys),
  is_Some (singleByRef (store s)) ->
  exists f s', scanChapters w tokens limit b cs results s = (f, s') /\
               f <> Stalled /\ onlyCaches s s'.
Proof.
  induction cs as [|c cs IH]; intros results s Hs; cbn [scanChapters].
  - eexists _, _. split; [reflexivity|]. split; [discriminate | apply onlyCaches_refl].
  - destruct (workerGetChapter_bulk w b c s Hs) as (vs & s1 & -> & H1).
    destruct (scanVerses tokens limit b c vs results) as [results' [|]].
    + eexists _, _. split; [reflexivity|]. split; [discriminate | exact H1].
    + destruct (IH results' s1 (onlyCaches_bulk _ _ H1 Hs)) as (f & s2 & -> & Hf & H2).
      exists f, s2. split; [reflexivity|]. split; [exact Hf|].
      now apply (onlyCaches_trans s s1 s2).
Qed.

Lemma scanBooks_bulk (w : World) (m : Meta) (tokens : list string) (limit : Z)
    (bs : list (nat * value)) :
  forall (results : list Hit) (s : Sys),
  is_Some (singleByRef (store s)) ->
  exists f s', scanBooks w m tokens limit bs results s = (f, s') /\
               f <> Stalled /\ onlyCaches s s'.
Proof.
  induction bs as [|[bi b] bs IH]; intros results s Hs; cbn [scanBooks].
  - eexists _, _. split; [reflexivity|]. split; [discriminate | apply onlyCaches_refl].
  - destruct (scanChapters_bulk w tokens limit b (chaptersUpTo (countAt m bi)) results s Hs)
      as (f & s1 & -> & Hf & H1).
    destruct f as [results' | results' |]; [| |contradiction].
    + destruct (IH results' s1 (onlyCaches_bulk _ _ H1 Hs)) as (f & s2 & -> & Hf2 & H2).
      exists f, s2. split; [reflexivity|]. split; [exact Hf2|].
      now apply (onlyCaches_trans s s1 s2).
    + eexists _, _. split; [reflexivity|]. split; [discriminate | exact H1].
Qed.

(** X21. With a bulk payload a search makes no request and leaves the
    books, the chapter counts, the payload and the list of requests as
    they were, whatever the query, the limit and the metadata: only the
    two chapter caches can change. *)
Theorem bulk_search_makes_no_request (w : World) (m : Meta) (q : string)
    (limit : Z) (s : Sys) :
  is_Some (singleByRef (store s)) ->
  onlyCaches s (search w m q limit s).2.
Proof.
  intros Hs. unfold search. destruct (tokenize q) as [|t ts].
  { apply onlyCaches_refl. }
  destruct (scanBooks_bulk w m (t :: ts) limit (imap pair (metaBooks m)) [] s Hs)
    as (f & s' & -> & Hf & H1).
  now destruct f.
Qed.

Lemma bulk_search_makes_no_request_witness :
  is_Some (singleByRef (store sampleSys)) /\
  fetched (store (search offline (indexMeta sampleData) "void" 100 sampleSys).2)
    = fetched (store sampleSys).
Proof.
  assert (is_Some (singleByRef (store sampleSys))) as Hs by (vm_compute; eauto).
  split; [exact Hs|].
  exact (proj2 (proj2 (proj2
           (bulk_search_makes_no_request offline (indexMeta sampleData) "void" 100
              sampleSys Hs)))).
Defined.

(** ** Ingesting twice *)

Lemma fold_insert_id {A} (f : A -> value) (g : A -> num) (l : list A)
    (m : gmap value num) :
  (forall a, a ∈ l -> m !! f a = Some (g a)) ->
  fold_left (fun m a => <[f a := g a]> m) l m = m.
Proof.
  induction l as [|y l IH]; intros H; [reflexivity|].
  cbn [fold_left]. rewrite insert_id by (apply H; left).
  apply IH. intros a Ha. apply H. now right.
Qed.

(** X22. Ingesting the same payload again changes nothing: the store
    after the second ingestion is the store after the first. *)
Theorem ingestSingle_idempotent (j : json) (d d' : Data) :
  ingestSingle j d = Ok d' ->
  ingestSingle j d' = Ok d'.
Proof.
  unfold ingestSingle. fold (survivors j).
  pose proof (survivors_organize_NoDup j) as Hnd.
  destruct (existsb isNull (jsonArray j)); [discriminate|].
  destruct (survivors j) as [|v vs]; [destruct (existsb _ _); discriminate|].
  intros [= <-]. cbn [bookChapters cache fetched]. do 2 f_equal.
  apply fold_insert_id. intros a Ha.
  now apply (fold_insert_lookup fst (fun bc => maxChapter bc.2)).
Qed.

Lemma ingestSingle_idempotent_witness :
  ingestSingle samplePayload newData = Ok sampleData /\
  ingestSingle samplePayload sampleData = Ok sampleData.
Proof.
  assert (ingestSingle samplePayload newData = Ok sampleData) as H
    by (vm_compute; reflexivity).
  split; [exact H|].
  exact (ingestSingle_idempotent samplePayload newData sampleData H).
Defined.

(** ** The reader and the palette *)

Lemma paragraphsFrom_spec (verses current : list Verse) :
  unbroken current ->
  concat (paragraphsFrom current verses) = current ++ verses /\
  Forall unbroken (paragraphsFrom current verses) /\
  Forall opened (tail (paragraphsFrom current verses)) /\
  (current <> [] -> Forall (fun p => p <> []) (paragraphsFrom current verses)) /\
  (exists p ps, paragraphsFrom current verses = p :: ps /\ current `prefix_of` p).
Proof.
  revert current. induction verses as [|v rest IH]; intros current Hcur;
    cbn [paragraphsFrom].
  - cbn. rewrite !app_nil_r. repeat split.
    + now constructor.
    + constructor.
    + intros Hne. now constructor.
    + now exists current, [].
  - destruct (paragraphStart v) eqn:Hv; cbn [andb].
    + destruct (bool_decide_reflect (current = [])) as [-> | Hne]; cbn [negb].
      * destruct (IH [v]) as (Hc & Hu & Ho & Hn & p & ps & Hp & Hpre);
          [constructor|].
        cbn [app]. repeat split; try assumption.
        -- intros Hne. now contradiction Hne.
        -- exists p, ps. split; [exact Hp | apply prefix_nil].
      * destruct (IH [v]) as (Hc & Hu & Ho & Hn & p & ps & Hp & Hpre);
          [constructor|].
        cbn [concat tail]. rewrite Hc. repeat split.
        -- now constructor.
        -- rewrite Hp. constructor; [|now rewrite Hp in Ho].
           destruct Hpre as [k ->]. now exists v.
        -- intros _. constructor; [exact Hne | now apply Hn].
        -- now exists current, (paragraphsFrom [v] rest).
    + assert (unbroken (current ++ [v])) as Hcur'.
      { unfold unbroken in *. destruct current as [|x current]; [constructor|].
        cbn [app tail] in *. apply Forall_app. split; [exact Hcur|].
        now constructor. }
      destruct (IH (current ++ [v]) Hcur') as (Hc & Hu & Ho & Hn & p & ps & Hp & Hpre).
      rewrite Hc, <- app_assoc. repeat split; try assumption.
      * intros _. apply Hn. now destruct current.
      * exists p, ps. split; [exact Hp|].
        transitivity (current ++ [v]); [now apply prefix_app_r | exact Hpre].
Qed.

(** X23. The reader shows every verse of the chapter once and in order:
    the paragraphs put end to end are the verses. A paragraph breaks
    exactly before a verse that starts one: no verse inside a paragraph
    starts one, every paragraph after the first begins with such a
    verse, and only the first paragraph of an empty chapter is empty. *)
Theorem paragraphs_break_at_paragraph_starts (verses : list Verse) :
  concat (paragraphsFrom [] verses) = verses /\
  Forall unbroken (paragraphsFrom [] verses) /\
  Forall opened (tail (paragraphsFrom [] verses)) /\
  (verses <> [] -> Forall (fun p => p <> []) (paragraphsFrom [] verses)) /\
  (verses = [] -> paragraphsFrom [] verses = [[]]).
Proof.
  destruct (paragraphsFrom_spec verses []) as (Hc & Hu & Ho & _ & _); [constructor|].
  split; [exact Hc|]. split; [exact Hu|]. split; [exact Ho|]. split.
  - destruct verses as [|v rest]; [contradiction|]. intros _.
    cbn [paragraphsFrom]. rewrite andb_false_r. cbn [app].
    destruct (paragraphsFrom_spec rest [v]) as (_ & _ & _ & Hn & _); [constructor|].
    now apply Hn.
  - now intros ->.
Qed.

(** X24. Rendering a chapter changes the store exactly as
    [getChapter] does and shows exactly what it returns; when the
    chapter cannot be had nothing is shown and the error goes on to the
    caller. *)
Theorem renderChapter_shows_the_chapter (w : World) (b : value) (c : Z) (d : Data) :
  (renderChapter w b c d).2 = (getChapter w b c d).2 /\
  (forall vs, (getChapter w b c d).1 = Ok vs ->
     exists ps, (renderChapter w b c d).1 = Ok ps /\ concat ps = vs) /\
  (forall e, (getChapter w b c d).1 = Throw e -> (renderChapter w b c d).1 = Throw e).
Proof.
  unfold renderChapter. destruct (getChapter w b c d) as [[vs|e] d']; cbn.
  - split; [reflexivity|]. split; [|discriminate].
    intros ? [= <-]. eexists. split; [reflexivity|].
    destruct (paragraphsFrom_spec vs []) as (Hc & _); [constructor|]. exact Hc.
  - split; [reflexivity|]. split; [discriminate|]. now intros ? [= <-].
Qed.

Lemma parseRef_hasBook (d : Data) (s : string) (r : Ref) :
  parseRef d s = Some r -> hasBook d (refBook r) = true.
Proof.
  unfold parseRef. destruct (isEmpty s); [discriminate|].
  destruct (matchRef s) as [[[tok chap] vs]|]; [|discriminate].
  destruct (aliasOf _) as [name| |]; try discriminate.
  - destruct (hasBook d (VStr name)) eqn:H; [|discriminate]. now intros [= <-].
  - destruct (hasBook d _) eqn:H; [|discriminate]. now intros [= <-].
Qed.

Lemma trim_blank (s : string) : trim s = "" <-> allChars isSpace s = true.
Proof.
  unfold trim. induction s as [|c s IH]; [easy|].
  cbn [dropWhile allChars]. destruct (isSpace c) eqn:Hc; [exact IH|].
  cbn [dropEndWhile andb]. split; [|discriminate].
  destruct (dropEndWhile isSpace s); rewrite ?Hc; discriminate.
Qed.

Lemma matchingBooks_spec (qq : string) (bs : list value) :
  match matchingBooks qq bs with
  | Some l =>
      l = filter (fun b => includes (toLowerCase (toStr b)) qq = true) bs /\
      Forall (fun b => exists s, b = VStr s) bs
  | None => exists b, b ∈ bs /\ forall s, b <> VStr s
  end.
Proof.
  induction bs as [|b bs IH]; [now split|].
  destruct b as [| |x|z|s]; cbn [matchingBooks];
    try (eexists; split; [left | discriminate]).
  destruct (matchingBooks qq bs) as [l|]; cbn [fmap option_fmap option_map].
  - destruct IH as [-> Hall]. split; [|constructor; eauto].
    destruct (includes (toLowerCase s) qq) eqn:Hi.
    + now rewrite filter_cons_True.
    + rewrite filter_cons_False; [reflexivity|]. cbn [toStr]. now rewrite Hi.
  - destruct IH as (b & Hb & Hs). exists b. split; [now right | exact Hs].
Qed.

(** X25. The palette offers at most 50 entries and every entry names a
    book of the store. For a blank input the entries are the first 50
    books, each at chapter 1. The list is built whenever every book of
    the store is a string, and a store with another kind of book makes
    a non-blank input throw. *)
Theorem palette_entries_name_stored_books (d : Data) (input : string) :
  (forall items, paletteItems d input = Some items ->
     (length items <= 50)%nat /\
     forall it, it ∈ items -> hasBook d (itemBook it) = true) /\
  (allChars isSpace input = true ->
     paletteItems d input = Some (bookItem <$> take 50 (books d))) /\
  (Forall (fun b => exists s, b = VStr s) (books d) ->
     is_Some (paletteItems d input)) /\
  (allChars isSpace input = false ->
     is_Some (paletteItems d input) ->
     Forall (fun b => exists s, b = VStr s) (books d)).
Proof.
  assert (forall bs items,
            (forall b, b ∈ bs -> b ∈ books d) ->
            items = take 50
              (match parseRef d (trim input) with Some r => [refItem r] | None => [] end
               ++ (bookItem <$> bs)) ->
            (length items <= 50)%nat /\
            forall it, it ∈ items -> hasBook d (itemBook it) = true) as Hitems.
  { intros bs items Hbs ->. split; [rewrite length_take; lia|].
    intros it Hit. apply elem_of_take in Hit as (i & Hit & _).
    apply list_elem_of_lookup_2, elem_of_app in Hit as [Hit | Hit].
    - destruct (parseRef d (trim input)) as [r|] eqn:Hr;
        [|now apply elem_of_nil in Hit].
      apply list_elem_of_singleton in Hit as ->. cbn.
      now apply (parseRef_hasBook d (trim input)).
    - apply list_elem_of_fmap in Hit as (b & -> & Hb). cbn.
      apply bool_decide_eq_true. now apply Hbs. }
  pose proof (matchingBooks_spec (toLowerCase (trim input)) (books d)) as Hm.
  unfold paletteItems. split; [|split; [|split]].
  - intros items. destruct (isEmpty (trim input)).
    + intros [= <-]. now apply (Hitems (books d)).
    + destruct (matchingBooks _ _) as [l|]; [|discriminate].
      destruct Hm as [-> _]. intros [= <-].
      apply (Hitems (filter (fun b => includes (toLowerCase (toStr b))
                                        (toLowerCase (trim input)) = true) (books d)));
        [|reflexivity].
      intros b Hb. now apply list_elem_of_filter in Hb.
  - intros Hblank.
    apply trim_blank in Hblank. rewrite Hblank.
    cbn. now rewrite fmap_take.
  - intros Hall. destruct (isEmpty (trim input)); [eauto|].
    destruct (matchingBooks _ _) as [l|]; [cbn; eauto|].
    destruct Hm as (b & Hb & Hs). rewrite Forall_forall in Hall.
    destruct (Hall b Hb) as [s ->]. now contradiction (Hs s).
  - intros Hblank. destruct (isEmpty (trim input)) eqn:He.
    + exfalso. assert (trim input = "") as E by now destruct (trim input).
      apply trim_blank in E. congruence.
    + destruct (matchingBooks _ _) as [l|]; [now destruct Hm|].
      intros [? ?]. discriminate.
Qed.

(** ** The two chapter caches *)

Lemma getChapter_cache_cases (w : World) (b : value) (c : Z) (d : Data) :
  (cache (getChapter w b c d).2 = cache d /\
   (forall vs, (getChapter w b c d).1 = Ok vs -> cache d !! refKey b (Some c) = Some vs)) \/
  (exists vs, (getChapter w b c d).1 = Ok vs /\
              cache d !! refKey b (Some c) = None /\
              cache (getChapter w b c d).2 = <[refKey b (Some c) := vs]> (cache d)).
Proof.
  unfold getChapter. destruct (cache d !! refKey b (Some c)) as [vs|] eqn:Hc.
  { left. cbn. split; [reflexivity|]. now intros ? [= <-]. }
  destruct (singleByRef d) as [refs|].
  { right. eexists. cbn. now repeat split. }
  destruct (fetchMaybe w (toStr b)) as [[jb|]|e'];
    try (left; cbn; split; [reflexivity | discriminate]).
  destruct (jbTruthy jb); [|left; cbn; split; [reflexivity | discriminate]].
  destruct (normalizePerBook _ b jb) as [count chapters].
  right. eexists. cbn. now repeat split.
Qed.

Lemma workerGetChapter_caches (w : World) (b : value) (c : Z) (s : Sys) :
  chapterCache s ⊆ cache (store s) ->
  chapterCache (workerGetChapter w b c s).2 ⊆ cache (store (workerGetChapter w b c s).2) /\
  chapterCache s ⊆ chapterCache (workerGetChapter w b c s).2 /\
  cache (store s) ⊆ cache (store (workerGetChapter w b c s).2).
Proof.
  intros Hsub. unfold workerGetChapter.
  destruct (chapterCache s !! refKey b (Some c)) as [vs|] eqn:Hw.
  { cbn. now repeat split. }
  destruct (getChapter_cache_cases w b c (store s)) as [[Hsame Hhit] | (vs & Hok & Hmiss & Hins)];
    destruct (getChapter w b c (store s)) as [[vs'|e] d'] eqn:E; cbn in *.
  - rewrite Hsame. split; [|split; [|reflexivity]].
    + apply insert_subseteq_l; [now apply Hhit | exact Hsub].
    + now apply insert_subseteq.
  - rewrite Hsame. now repeat split.
  - injection Hok as ->. rewrite Hins. split; [|split].
    + now apply insert_mono.
    + now apply insert_subseteq.
    + now apply insert_subseteq.
  - discriminate.
Qed.

Lemma scanChapters_caches (w : World) (tokens : list string) (limit : Z) (b : value)
    (cs : list Z) :
  forall (results : list Hit) (s : Sys),
  chapterCache s ⊆ cache (store s) ->
  let s' := (scanChapters w tokens limit b cs results s).2 in
  chapterCache s' ⊆ cache (store s') /\
  chapterCache s ⊆ chapterCache s' /\
  cache (store s) ⊆ cache (store s').
Proof.
  induction cs as [|c cs IH]; intros results s Hs; cbn [scanChapters]; cbn zeta.
  - now repeat split.
  - destruct (workerGetChapter_caches w b c s Hs) as (H1 & H2 & H3).
    destruct (workerGetChapter w b c s) as [[vs|] s1]; cbn [snd] in *; [|now repeat split].
    destruct (scanVerses tokens limit b c vs results) as [results' [|]];
      cbn [snd]; [now repeat split|].
    destruct (IH results' s1 H1) as (K1 & K2 & K3).
    split; [exact K1|]. split; etrans; eassumption.
Qed.

Lemma scanBooks_caches (w : World) (m : Meta) (tokens : list string) (limit : Z)
    (bs : list (nat * value)) :
  forall (results : list Hit) (s : Sys),
  chapterCache s ⊆ cache (store s) ->
  let s' := (scanBooks w m tokens limit bs results s).2 in
  chapterCache s' ⊆ cache (store s') /\
  chapterCache s ⊆ chapterCache s' /\
  cache (store s) ⊆ cache (store s').
Proof.
  induction bs as [|[bi b] bs IH]; intros results s Hs; cbn [scanBooks]; cbn zeta.
  - now repeat split.
  - destruct (scanChapters_caches w tokens limit b (chaptersUpTo (countAt m bi)) results s Hs)
      as (H1 & H2 & H3).
    destruct (scanChapters w tokens limit b (chaptersUpTo (countAt m bi)) results s)
      as [[results' | results' |] s1]; cbn [snd] in *; try now repeat split.
    destruct (IH results' s1 H1) as (K1 & K2 & K3).
    split; [exact K1|]. split; etrans; eassumption.
Qed.

(** X26. The worker and the page never disagree about a chapter: when
    every chapter the worker holds is the one the page holds under the
    same key, this is still so after a search, in either mode and also
    when the search stalls; and both caches only grow. *)
Theorem search_keeps_the_caches_in_step (w : World) (m : Meta) (q : string) (limit : Z)
    (s : Sys) :
  chapterCache s ⊆ cache (store s) ->
  let s' := (search w m q limit s).2 in
  chapterCache s' ⊆ cache (store s') /\
  chapterCache s ⊆ chapterCache s' /\
  cache (store s) ⊆ cache (store s').
Proof.
  intros Hs. unfold search. destruct (tokenize q) as [|t ts]; cbn zeta.
  { now repeat split. }
  pose proof (scanBooks_caches w m (t :: ts) limit (imap pair (metaBooks m)) [] s Hs) as H.
  cbn zeta in H.
  now destruct (scanBooks w m (t :: ts) limit (imap pair (metaBooks m)) [] s)
    as [[results | results |] s1].
Qed.

Lemma search_keeps_the_caches_in_step_witness :
  let s := {| store := splitData; chapterCache := ∅ |} in
  let s' := (search splitWorld (indexMeta splitData) "beginning" 1 s).2 in
  chapterCache s' ⊆ cache (store s') /\
  chapterCache s ⊆ chapterCache s' /\
  cache (store s) ⊆ cache (store s').
Proof.
  intros s.
  apply (search_keeps_the_caches_in_step splitWorld (indexMeta splitData) "beginning" 1 s).
  apply map_empty_subseteq.
Defined.

(** X27. In split mode every call of [getChapter] for a chapter that is
    not cached asks for the file of the book once, whether the call
    succeeds or throws and whether or not that file was asked for
    before; a cached chapter makes no request. *)
Theorem split_miss_requests_the_book_file (w : World) (b : value) (c : Z) (d : Data) :
  singleByRef d = None ->
  (cache d !! refKey b (Some c) = None ->
     fetched (getChapter w b c d).2 = fetched d ++ [BookFile (toStr b)]) /\
  (is_Some (cache d !! refKey b (Some c)) ->
     fetched (getChapter w b c d).2 = fetched d).
Proof.
  intros Hs. split.
  - intros Hc. now apply getChapter_split_fetches.
  - intros [vs Hc]. unfold getChapter. now rewrite Hc.
Qed.

Lemma split_miss_requests_the_book_file_witness :
  let d1 := (getChapter splitWorld (VStr "Genesis") 1 splitData).2 in
  singleByRef d1 = None /\
  fetched d1 = [SingleFile; CanonFile; BookFile "Genesis"] /\
  (cache d1 !! refKey (VStr "Genesis") (Some 2) = None ->
     fetched (getChapter splitWorld (VStr "Genesis") 2 d1).2
       = fetched d1 ++ [BookFile "Genesis"]) /\
  (is_Some (cache d1 !! refKey (VStr "Genesis") (Some 2)) ->
     fetched (getChapter splitWorld (VStr "Genesis") 2 d1).2 = fetched d1).
Proof.
  intros d1.
  assert (singleByRef d1 = None) as Hs by (vm_compute; reflexivity).
  split; [exact Hs|]. split.
  - vm_compute. reflexivity.
  - exact (split_miss_requests_the_book_file splitWorld (VStr "Genesis") 2 d1 Hs).
Defined.

(** ** The order of the hits in any mode *)

Lemma traceChapters_elem (w : World) (bi : nat) (b : value) (cs : list Z) (x : Visit) :
  forall s, x ∈ (traceChapters w bi b cs s).1 ->
  atIndex x = bi /\ atBook x = b /\ atChapter x ∈ cs.
Proof.
  induction cs as [|c cs IH]; intros s; cbn [traceChapters].
  - intros H. now apply elem_of_nil in H.
  - destruct (workerGetChapter w b c s) as [[vs|] s1];
      [|intros H; now apply elem_of_nil in H].
    specialize (IH s1). destruct (traceChapters w bi b cs s1) as [V r].
    cbn [fst] in *. intros [H | H]%elem_of_app.
    + apply list_elem_of_fmap in H as (v & -> & _). cbn. repeat split. left.
    + destruct (IH H) as (? & ? & ?). repeat split; try assumption. now right.
Qed.

Lemma traceBooks_elem (w : World) (m : Meta) (bs : list (nat * value)) (x : Visit) :
  forall s, x ∈ (traceBooks w m bs s).1 ->
  (atIndex x, atBook x) ∈ bs /\ 1 <= atChapter x <= countAt m (atIndex x).
Proof.
  induction bs as [|[bi b] bs IH]; intros s; cbn [traceBooks].
  - intros H. now apply elem_of_nil in H.
  - pose proof (traceChapters_elem w bi b (chaptersUpTo (countAt m bi)) x s) as Hc.
    destruct (traceChapters w bi b (chaptersUpTo (countAt m bi)) s) as [V [s1|]];
      cbn [fst] in *.
    + specialize (IH s1). destruct (traceBooks w m bs s1) as [V' r]. cbn [fst] in *.
      intros [H | H]%elem_of_app.
      * destruct (Hc H) as (-> & -> & Hin). split; [left|].
        unfold chaptersUpTo in Hin. apply elem_of_seqZ in Hin. lia.
      * destruct (IH H) as [? ?]. split; [now right | assumption].
    + intros H. destruct (Hc H) as (-> & -> & Hin). split; [left|].
      unfold chaptersUpTo in Hin. apply elem_of_seqZ in Hin. lia.
Qed.

Section Sorted.

(** An invariant [I] of the system that every answered request keeps,
    a property [Q] of the chapters delivered under it, and an order [R]
    that follows the index and the chapter and in which a chapter with
    [Q] is sorted. *)
Variable w : World.
Variable I : Sys -> Prop.
Variable Q : list Verse -> Prop.
Variable R : relation Visit.
Hypothesis deliver : forall b c s vs s',
  I s -> workerGetChapter w b c s = (Some vs, s') -> Q vs /\ I s'.
Hypothesis within : forall bi b c vs, Q vs -> StronglySorted R (Build_Visit bi b c <$> vs).
Hypothesis byChapter : forall x y,
  atIndex x = atIndex y -> atChapter x < atChapter y -> R x y.
Hypothesis byIndex : forall x y, (atIndex x < atIndex y)%nat -> R x y.

Lemma traceChapters_sorted (bi : nat) (b : value) (cs : list Z) :
  StronglySorted Z.lt cs ->
  forall s, I s ->
  StronglySorted R (traceChapters w bi b cs s).1 /\
  (forall s', (traceChapters w bi b cs s).2 = Some s' -> I s').
Proof.
  induction 1 as [|c cs Hcs IH Hc]; intros s Hs; cbn [traceChapters].
  - split; [constructor|]. now intros ? [= <-].
  - destruct (workerGetChapter w b c s) as [[vs|] s1] eqn:Hg;
      [|split; [constructor | discriminate]].
    destruct (deliver b c s vs s1 Hs Hg) as [Hq Hs1].
    destruct (IH s1 Hs1) as [Hsorted Hstate].
    pose proof (traceChapters_elem w bi b cs) as Helem.
    destruct (traceChapters w bi b cs s1) as [V r] eqn:Ht. cbn [fst snd] in *.
    split; [|exact Hstate].
    apply StronglySorted_app_2; [|now apply within | exact Hsorted].
    intros x y Hx Hy. apply list_elem_of_fmap in Hx as (v & -> & _).
    assert (y ∈ (traceChapters w bi b cs s1).1) as Hy' by now rewrite Ht.
    apply Helem in Hy' as (Hi & _ & Hin).
    apply byChapter; cbn; [congruence|].
    rewrite Forall_forall in Hc. now apply Hc.
Qed.

Lemma traceBooks_sorted (m : Meta) (bs : list (nat * value)) :
  StronglySorted (fun x y : nat * value => (x.1 < y.1)%nat) bs ->
  forall s, I s -> StronglySorted R (traceBooks w m bs s).1.
Proof.
  induction 1 as [|[bi b] bs Hbs IH Hb]; intros s Hs; cbn [traceBooks].
  - constructor.
  - destruct (traceChapters_sorted bi b (chaptersUpTo (countAt m bi))
                (seqZ_sorted _ _) s Hs) as [Hsorted Hstate].
    pose proof (traceChapters_elem w bi b (chaptersUpTo (countAt m bi))) as Helem.
    destruct (traceChapters w bi b (chaptersUpTo (countAt m bi)) s) as [V [s1|]] eqn:Ht;
      cbn [fst snd] in *; [|exact Hsorted].
    specialize (IH s1 (Hstate s1 eq_refl)).
    pose proof (traceBooks_elem w m bs) as Helem'.
    destruct (traceBooks w m bs s1) as [V' r] eqn:Ht'. cbn [fst] in *.
    apply StronglySorted_app_2; [|exact Hsorted | exact IH].
    intros x y Hx Hy.
    assert (x ∈ (traceChapters w bi b (chaptersUpTo (countAt m bi)) s).1) as Hx'
      by now rewrite Ht.
    apply Helem in Hx' as (Hi & _).
    assert (y ∈ (traceBooks w m bs s1).1) as Hy' by now rewrite Ht'.
    apply Helem' in Hy' as [Hin _].
    rewrite Forall_forall in Hb. specialize (Hb _ Hin). cbn in Hb.
    apply byIndex. lia.
Qed.

End Sorted.

Lemma trace_wayLe (w : World) (m : Meta) (s : Sys) :
  StronglySorted wayLe (onTheWay w m s).
Proof.
  unfold onTheWay, trace.
  apply (traceBooks_sorted w (fun _ => True) (fun _ => True) wayLe);
    [| | | |apply imap_pair_sorted | exact Logic.I].
  - intros. now split.
  - intros bi b c vs _. apply StronglySorted_fmap_elem with (R := fun _ _ => True).
    + intros. right. cbn. split; [reflexivity | lia].
    + clear. induction vs; constructor; [assumption|]. now apply Forall_true.
  - intros x y Hi Hc. right. split; [exact Hi | lia].
  - intros x y Hi. now left.
Qed.

Lemma trace_wellformed (w : World) (m : Meta) (s : Sys) (x : Visit) :
  x ∈ onTheWay w m s ->
  metaBooks m !! atIndex x = Some (atBook x) /\
  1 <= atChapter x <= countAt m (atIndex x).
Proof.
  unfold onTheWay, trace. intros Hx. apply traceBooks_elem in Hx as [Hin Hc].
  split; [|exact Hc].
  apply elem_of_lookup_imap in Hin as (i & y & [= -> ->] & Hi). exact Hi.
Qed.

Lemma sortedLists_insert (chapters : gmap string (list Verse)) (k : string)
    (vs : list Verse) :
  sortedLists chapters -> StronglySorted verseLe vs ->
  sortedLists (<[k := vs]> chapters).
Proof.
  intros Hc Hvs k' vs'. rewrite lookup_insert. case_decide; [|apply Hc].
  now intros [= <-].
Qed.

Lemma workerGetChapter_orderly (w : World) (b : value) (c : Z) (s : Sys)
    (vs : list Verse) (s' : Sys) :
  orderly w s -> workerGetChapter w b c s = (Some vs, s') ->
  StronglySorted verseLe vs /\ orderly w s'.
Proof.
  intros (Hw & Hp & Hsrc). unfold workerGetChapter.
  destruct (chapterCache s !! refKey b (Some c)) as [vs0|] eqn:Hk.
  { intros [= <- <-]. split; [now apply (Hw _ _ Hk) | now repeat split]. }
  unfold getChapter.
  destruct (cache (store s) !! refKey b (Some c)) as [vs0|] eqn:Hk'.
  { intros [= <- <-]. pose proof (Hp _ _ Hk') as Hs0. split; [exact Hs0|].
    split; [|split]; cbn; [now apply sortedLists_insert | exact Hp | exact Hsrc]. }
  destruct (singleByRef (store s)) as [refs|] eqn:Href.
  { intros [= <- <-].
    assert (StronglySorted verseLe (default [] (refs !! refKey b (Some c)))) as Hs0.
    { destruct (refs !! refKey b (Some c)) as [vs0|] eqn:Hr; cbn; [|constructor].
      now apply (Hsrc _ _ Hr). }
    split; [exact Hs0|].
    split; [|split]; cbn; [now apply sortedLists_insert..|].
    now rewrite Href. }
  unfold fetchMaybe.
  destruct (bookFile w (toStr b)) as [| |raw [jb|]] eqn:Hf; try discriminate.
  destruct (jbTruthy jb); [|discriminate].
  pose proof (Hsrc (toStr b) raw jb (logFetch (BookFile (toStr b)) (store s)) b) as Hfile.
  destruct (normalizePerBook (logFetch (BookFile (toStr b)) (store s)) b jb)
    as [count chapters]. cbn [snd] in Hfile.
  intros [= <- <-].
  assert (StronglySorted verseLe (default [] (chapters !! Some c))) as Hs0.
  { destruct (chapters !! Some c) as [vs0|] eqn:Hr; cbn; [|constructor].
    now apply (Hfile (Some c) vs0 Hf). }
  split; [exact Hs0|].
  split; [|split]; cbn; [now apply sortedLists_insert..|].
  now rewrite Href.
Qed.

Lemma trace_visitLe (w : World) (m : Meta) (s : Sys) :
  orderly w s -> StronglySorted visitLe (onTheWay w m s).
Proof.
  intros Hs. unfold onTheWay, trace.
  apply (traceBooks_sorted w (orderly w) (StronglySorted verseLe) visitLe);
    [| | | |apply imap_pair_sorted | exact Hs].
  - intros b c s0 vs s' H0 Hg. now apply (workerGetChapter_orderly w b c s0).
  - intros bi b c vs Hvs. apply StronglySorted_fmap_elem with (R := verseLe); [|exact Hvs].
    intros v1 v2 _ _ Hv. right. cbn. split; [reflexivity|]. right. now split.
  - intros x y Hi Hc. right. split; [exact Hi|]. now left.
  - intros x y Hi. now left.
Qed.

(** A fresh system over a store in split mode is orderly when the book
    files are keyed by chapter and verse numbers. *)
Lemma keyed_sortedFiles (w : World) :
  (forall name raw jb, bookFile w name = Body raw (Some jb) ->
     exists entries, jb = Keyed entries) ->
  sortedFiles w.
Proof.
  intros Hk name raw jb d b c vs Hf Hl.
  destruct (Hk name raw jb Hf) as [entries ->]. exact (keyed_sorted d b entries c vs Hl).
Qed.

Lemma johnFirst_orderly : orderly johnFirstWorld johnFirstSys.
Proof.
  split; [|split].
  - intros k vs H. cbn in H. now rewrite lookup_empty in H.
  - intros k vs H. change (cache (store johnFirstSys)) with (∅ : gmap string (list Verse)) in H.
    now rewrite lookup_empty in H.
  - change (singleByRef (store johnFirstSys)) with (@None (gmap string (list Verse))).
    apply keyed_sortedFiles. intros name raw jb. cbn.
    destruct (String.eqb name "Genesis"); [intros [= _ <-]; eauto|].
    destruct (String.eqb name "John"); [intros [= _ <-]; eauto | discriminate].
Qed.

(** The claim of C5 fails in split mode when the canon file lists the
    books in another order than the Canon Table: the books of the store
    and the hits follow the file, John before Genesis. *)
Lemma hits_follow_the_canon_file :
  let hits :=
    [{| hitBook := VStr "John"; hitChapter := 1; hitVerse := Some 1;
        previewHtml :=
          "In the <mark>beginning</mark> was the Word, and the Word was with God." |};
     {| hitBook := VStr "Genesis"; hitChapter := 1; hitVerse := Some 1;
        previewHtml :=
          "In the <mark>beginning</mark> God created the heaven and the earth." |}] in
  init johnFirstWorld newData = Ok johnFirstData /\
  books johnFirstData = [VStr "John"; VStr "Genesis"] /\
  (search johnFirstWorld (indexMeta johnFirstData) "beginning" 100 johnFirstSys).1
    = Some hits /\
  canonicalOrder (books johnFirstData) = [VStr "Genesis"; VStr "John"] /\
  ~ StronglySorted (hitLe (canonicalOrder (books johnFirstData))) hits.
Proof.
  intros hits.
  assert (canonicalOrder (books johnFirstData) = [VStr "Genesis"; VStr "John"]) as Hc
    by (vm_compute; reflexivity).
  split; [vm_compute; reflexivity|]. split; [vm_compute; reflexivity|].
  split; [vm_compute; reflexivity|]. split; [exact Hc|].
  rewrite Hc. intros H. apply StronglySorted_inv in H as [_ H].
  apply Forall_cons in H as [H _]. unfold hitLe in H. cbn [hitBook hits] in H.
  vm_compute in H. destruct H as [H | [H _]]; [lia | discriminate].
Qed.

(** C5. The hits of a search follow the way of the search: they are
    met at indexes of the book list of the metadata that never
    decrease, and inside a book in chapters that never decrease; when
    every chapter that can be delivered lists its verses by ascending
    number, as after a bulk ingestion and with book files keyed by
    chapter and verse number, they are ordered by index, then chapter,
    then verse number, and, when no book is listed twice, by the
    position of the book, then chapter, then verse number. After a
    bulk ingestion the book list is in canonical order, the names of
    the Canon Table that were met in table order and then the other
    books as they were first met, and a search returns in that order.
    When no content source loads, the book list is that of the canon
    file in the order of the file, and the Canon Table without one. *)
Theorem search_hits_in_store_order (w : World) (m : Meta) (q : string) (limit : Z)
    (s : Sys) :
  (forall hits, (search w m q limit s).1 = Some hits ->
     exists X,
       hits = visitHit (tokenize q) <$> X /\
       (forall x, x ∈ X ->
          x ∈ onTheWay w m s /\ metaBooks m !! atIndex x = Some (atBook x)) /\
       StronglySorted wayLe X /\
       (orderly w s ->
          StronglySorted visitLe X /\
          (NoDup (metaBooks m) -> StronglySorted (hitLe (metaBooks m)) hits))) /\
  (forall j d d' refs,
     ingestSingle j d = Ok d' -> singleByRef d' = Some refs -> coherent refs s ->
     books d' = canonicalOrder (firstOccurrences (book <$> survivors j)) /\
     exists hits s',
       search w (indexMeta d') q limit s = (Some hits, s') /\
       StronglySorted (hitLe (books d')) hits) /\
  (forall d d',
     init w d = Ok d' ->
     (forall d1, ~ inlineLoads w d d1) -> (forall d2, ~ singleLoads w d d2) ->
     books d' = canonBooks w).
Proof.
  split; [|split].
  - intros hits Hh. destruct (tokenize q) as [|t ts] eqn:Ht.
    { unfold search in Hh. rewrite Ht in Hh. injection Hh as <-.
      exists []. split; [reflexivity|]. split; [intros x Hx; now apply elem_of_nil in Hx|].
      split; [constructor|]. intros _. split; [constructor|]. intros _. constructor. }
    assert (tokenize q <> []) as Hq by congruence. rewrite <- Ht.
    destruct (search_returns w m q limit s Hq) as [Hsome _].
    specialize (Hsome hits Hh).
    set (X := take (cap limit) (holding (tokenize q) (onTheWay w m s))) in *.
    assert (forall x, x ∈ X -> x ∈ onTheWay w m s) as Hin.
    { intros x Hx. unfold X in Hx. apply elem_of_take in Hx as (i & Hx & _).
      apply list_elem_of_lookup_2 in Hx. unfold holding in Hx.
      now apply list_elem_of_filter in Hx. }
    exists X. split; [exact Hsome|]. split; [|split].
    + intros x Hx. split; [now apply Hin|]. now apply (trace_wellformed w m s), Hin.
    + apply StronglySorted_take, StronglySorted_filter, trace_wayLe.
    + intros Ho.
      assert (StronglySorted visitLe X) as HX
        by (apply StronglySorted_take, StronglySorted_filter, trace_visitLe, Ho).
      split; [exact HX|]. intros Hnd. rewrite Hsome.
      apply StronglySorted_fmap_elem with (R := visitLe); [|exact HX].
      intros x y Hx Hy Hle.
      apply Hin, (trace_wellformed w m s) in Hx as [Hx _].
      apply Hin, (trace_wellformed w m s) in Hy as [Hy _].
      unfold hitLe. cbn.
      rewrite (rank_lookup _ _ _ Hnd Hx), (rank_lookup _ _ _ Hnd Hy). exact Hle.
  - intros j d d' refs Hi Hr Hs.
    exact (bulk_hits_in_canonical_order w j d d' refs q limit s Hi Hr Hs).
  - intros d d' Hinit Hnin Hnsi. unfold canonBooks.
    destruct (init_cases w d) as [(d1 & Hin & _) | [(_ & d2 & Hsi & _) | (_ & _ & Hu)]].
    + now contradiction (Hnin d1).
    + now contradiction (Hnsi d2).
    + rewrite Hu in Hinit.
      pose proof (useCanon_throws (canonOf w) (logFetch CanonFile (logFetch SingleFile d)))
        as Hcases.
      destruct (canonOf w) as [[arr|]|] eqn:Hc.
      * destruct (existsb isNull arr); [congruence|].
        destruct Hcases as (d0 & Hd0 & Hb & _). congruence.
      * destruct (useCanon_built_in (Some CanonOther)
                    (logFetch CanonFile (logFetch SingleFile d)))
          as (d0 & Hd0 & Hb & _); [discriminate|]. congruence.
      * destruct (useCanon_built_in None (logFetch CanonFile (logFetch SingleFile d)))
          as (d0 & Hd0 & Hb & _); [discriminate|]. congruence.
Qed.

Lemma search_hits_in_store_order_witness :
  orderly johnFirstWorld johnFirstSys /\
  NoDup (metaBooks (indexMeta johnFirstData)) /\
  exists hits,
    (search johnFirstWorld (indexMeta johnFirstData) "beginning" 100 johnFirstSys).1
      = Some hits /\
    StronglySorted (hitLe (metaBooks (indexMeta johnFirstData))) hits.
Proof.
  assert (NoDup (metaBooks (indexMeta johnFirstData))) as Hnd.
  { refine (bool_decide_unpack _ _). vm_compute. exact Logic.I. }
  split; [exact johnFirst_orderly|]. split; [exact Hnd|].
  destruct (search johnFirstWorld (indexMeta johnFirstData) "beginning" 100 johnFirstSys).1
    as [hits|] eqn:Hh.
  - exists hits. split; [reflexivity|].
    destruct (search_hits_in_store_order johnFirstWorld (indexMeta johnFirstData)
                "beginning" 100 johnFirstSys) as [Hany _].
    destruct (Hany hits Hh) as (X & _ & _ & _ & Ho).
    exact (proj2 (Ho johnFirst_orderly) Hnd).
  - exfalso. revert Hh. vm_compute. discriminate.
Defined.
